(** * miro-basic-markdown: the pseudo-markdown engine and the mode toggle

    A shallow embedding of the board-side script of the app
    ([index.ts]): the string and regular-expression primitives of the host
    language that the script calls, the two converters
    [convertLineToMarkdown] and [convertTextToMarkdown], and the two
    actions [onMarkdownEnable] and [onMarkdownDisable]. *)

From Stdlib Require Import NArith List Lia Bool Ascii String.
From stdpp Require Import base option list gmap.
Import ListNotations.
Local Open Scope list_scope.
Local Open Scope nat_scope.

(** ** Strings of the host language

    A string is a sequence of UTF-16 code units; the regular expressions
    of the script carry no [u] flag, so they see code units. *)

Abbreviation char := N.
Abbreviation jsstring := (list N).

(** A literal of the script that holds ASCII characters only. *)
Fixpoint js (s : string) : jsstring :=
  match s with
  | EmptyString => []
  | String a s' => N_of_ascii a :: js s'
  end.

Definition chr (a : ascii) : char := N_of_ascii a.

(** The three non-ASCII literals of the script. *)
Definition unchecked_glyph : jsstring := [0xD83D; 0xDD32]%N.  (* U+1F532 *)
Definition checked_glyph : jsstring := [0x2705]%N.
Definition bullet_glyph : jsstring := [0x2022]%N.

Definition char_eqb (a b : char) : bool := N.eqb a b.

Fixpoint str_eqb (a b : jsstring) : bool :=
  match a, b with
  | [], [] => true
  | x :: a', y :: b' => char_eqb x y && str_eqb a' b'
  | _, _ => false
  end.

(** [s.startsWith(p)] *)
Fixpoint startsWith (p s : jsstring) : bool :=
  match p, s with
  | [], _ => true
  | x :: p', y :: s' => char_eqb x y && startsWith p' s'
  | _ :: _, [] => false
  end.

(** [s.endsWith(p)] *)
Definition endsWith (s p : jsstring) : bool :=
  (length p <=? length s) && str_eqb (skipn (length s - length p) s) p.

(** [lines.join(sep)] *)
Fixpoint join (sep : jsstring) (lines : list jsstring) : jsstring :=
  match lines with
  | [] => []
  | [l] => l
  | l :: rest => l ++ sep ++ join sep rest
  end.

(** [s.replace(pat, repl)] with a string pattern: the first occurrence
    only.  (The one call of the script passes the empty replacement, so
    the [$]-patterns of a replacement string play no role.) *)
Fixpoint replace_str (pat repl s : jsstring) : jsstring :=
  if startsWith pat s then repl ++ skipn (length pat) s
  else match s with
       | [] => []
       | c :: s' => c :: replace_str pat repl s'
       end.

(** ** Regular expressions

    The fragment of the pattern language that the script uses, matched
    by backtracking with continuations as the language standard defines
    it (a matcher takes a state and a continuation). *)

Module Regex.

Inductive regex : Type :=
| Empty
| Char (c : char)                 (* a pattern character *)
| NotChar (c : char)              (* the class [^c] *)
| Dot                             (* . *)
| Space                           (* \s *)
| Bol                             (* ^ *)
| Seq (r1 r2 : regex)
| Alt (r1 r2 : regex)             (* r1|r2 *)
| Group (n : nat) (r : regex)     (* the n-th capturing group *)
| Repeat (min : nat) (greedy : bool) (r : regex).  (* r{min,} and r{min,}? *)

(** [lit "abc"] is the pattern [abc]. *)
Fixpoint lit (s : jsstring) : regex :=
  match s with
  | [] => Empty
  | [c] => Char c
  | c :: s' => Seq (Char c) (lit s')
  end.

Definition Star (r : regex) := Repeat 0 true r.
Definition Plus (r : regex) := Repeat 1 true r.
Definition PlusLazy (r : regex) := Repeat 1 false r.

Record t := { re : regex; ignoreCase : bool }.

(** Upper-casing restricted to ASCII.  For the [i] flag the standard
    compares canonical (upper-cased) code units, and never lets a
    non-ASCII unit fold to an ASCII one; every pattern character of the
    script is ASCII, so on them this is the standard's comparison. *)
Definition ascii_upper (c : char) : char :=
  if ((97 <=? c) && (c <=? 122))%N then (c - 32)%N else c.

Definition canonicalize (ic : bool) (c : char) : char :=
  if ic then ascii_upper c else c.

Definition char_matches (ic : bool) (c ch : char) : bool :=
  N.eqb (canonicalize ic ch) (canonicalize ic c).

(** Line terminators: LF, CR, LS, PS. *)
Definition is_line_terminator (c : char) : bool :=
  (N.eqb c 10 || N.eqb c 13 || N.eqb c 0x2028 || N.eqb c 0x2029)%N.

(** White space and line terminators, the class [\s]. *)
Definition is_space (c : char) : bool :=
  (N.eqb c 9 || N.eqb c 10 || N.eqb c 11 || N.eqb c 12 || N.eqb c 13
   || N.eqb c 32 || N.eqb c 0xA0 || N.eqb c 0x1680
   || ((0x2000 <=? c) && (c <=? 0x200A))
   || N.eqb c 0x2028 || N.eqb c 0x2029 || N.eqb c 0x202F
   || N.eqb c 0x205F || N.eqb c 0x3000 || N.eqb c 0xFEFF)%N.

(** A capture is the range of indices that its group matched. *)
Definition captures := list (nat * (nat * nat)).

#[projections(primitive)]
Record state := { pos : nat; rest : jsstring; caps : captures }.

Definition cont := state -> option state.
Definition matcher := state -> cont -> option state.

Definition advance (x : state) (s' : jsstring) : state :=
  {| pos := S (pos x); rest := s'; caps := caps x |}.

Definition char_set_matcher (p : char -> bool) : matcher :=
  fun x k =>
    match rest x with
    | ch :: s' => if p ch then k (advance x s') else None
    | [] => None
    end.

Definition clear_caps (gs : list nat) (c : captures) : captures :=
  List.filter (fun e => negb (existsb (Nat.eqb (fst e)) gs)) c.

Definition set_cap (n : nat) (v : nat * nat) (c : captures) : captures :=
  (n, v) :: clear_caps [n] c.

Definition get_cap (n : nat) (c : captures) : option (nat * nat) :=
  match List.find (fun e => Nat.eqb (fst e) n) c with
  | Some e => Some (snd e)
  | None => None
  end.

Fixpoint groups (r : regex) : list nat :=
  match r with
  | Seq r1 r2 | Alt r1 r2 => groups r1 ++ groups r2
  | Group n r' => n :: groups r'
  | Repeat _ _ r' => groups r'
  | _ => []
  end.

(** The repeat matcher of the standard with no upper bound: an iteration
    that is not required ([min = 0]) and consumes nothing fails, the
    captures of the repeated atom are cleared at each iteration.  The
    fuel bounds the number of iterations. *)
Fixpoint repeat_matcher (mb : matcher) (gs : list nat) (greedy : bool)
    (fuel min : nat) (x : state) (k : cont) {struct fuel} : option state :=
  match fuel with
  | O => None
  | S fuel' =>
      let d : cont := fun y =>
        if (min =? 0) && (pos y =? pos x) then None
        else repeat_matcher mb gs greedy fuel' (Nat.pred min) y k in
      let xr := {| pos := pos x; rest := rest x; caps := clear_caps gs (caps x) |} in
      if negb (min =? 0) then mb xr d
      else if greedy then
        match mb xr d with
        | Some z => Some z
        | None => k x
        end
      else
        match k x with
        | Some z => Some z
        | None => mb xr d
        end
  end.

Fixpoint m (ic : bool) (r : regex) {struct r} : matcher :=
  match r with
  | Empty => fun x k => k x
  | Char c => char_set_matcher (char_matches ic c)
  | NotChar c => char_set_matcher (fun ch => negb (char_matches ic c ch))
  | Dot => char_set_matcher (fun ch => negb (is_line_terminator ch))
  | Space => char_set_matcher is_space
  | Bol => fun x k => if pos x =? 0 then k x else None
  | Seq r1 r2 => fun x k => m ic r1 x (fun y => m ic r2 y k)
  | Alt r1 r2 => fun x k =>
      match m ic r1 x k with
      | Some z => Some z
      | None => m ic r2 x k
      end
  | Group n r' => fun x k =>
      m ic r' x (fun y =>
        k {| pos := pos y; rest := rest y;
             caps := set_cap n (pos x, pos y) (caps y) |})
  | Repeat min greedy r' => fun x k =>
      repeat_matcher (m ic r') (groups r') greedy
        (S (min + length (rest x))) min x k
  end.

(** The result of a match: its length and its captures. *)
Definition match_at (r : t) (p : nat) (s : jsstring) : option (nat * captures) :=
  match m (ignoreCase r) (re r) {| pos := p; rest := s; caps := [] |} Some with
  | Some z => Some (pos z - p, caps z)
  | None => None
  end.

(** [r.exec(s)] from index [p] on the suffix [s] that starts there: the
    first index at which the pattern matches, with the match. *)
Fixpoint exec_from (r : t) (p : nat) (s : jsstring) : option (nat * (nat * captures)) :=
  match match_at r p s with
  | Some res => Some (p, res)
  | None =>
      match s with
      | [] => None
      | _ :: s' => exec_from r (S p) s'
      end
  end.

(** [s.match(r)] for a pattern without the [g] flag. *)
Definition match_ (s : jsstring) (r : t) : option (nat * (nat * captures)) :=
  exec_from r 0 s.

(** *** Replacement strings: [$$], [$&] and [$1] to [$9] *)

(** The text of capture [n], read in the suffix [s] of the subject that
    starts at index [p]; empty for a group that did not take part. *)
Definition cap_text {A} (p : nat) (s : list A) (c : captures) (n : nat) : list A :=
  match get_cap n c with
  | Some (a, b) => firstn (b - a) (skipn (a - p) s)
  | None => []
  end.

Definition digit_of (c : char) : option nat :=
  if ((49 <=? c) && (c <=? 57))%N then Some (N.to_nat (c - 48)) else None.

Fixpoint get_substitution (matched : jsstring) (cap : nat -> jsstring) (ngroups : nat)
    (tmpl : jsstring) : jsstring :=
  match tmpl with
  | [] => []
  | c0 :: t1 =>
      if N.eqb c0 36 then
        match t1 with
        | [] => [36%N]
        | d :: t2 =>
            if N.eqb d 36 then 36%N :: get_substitution matched cap ngroups t2
            else if N.eqb d 38 then matched ++ get_substitution matched cap ngroups t2
            else
              match digit_of d with
              | Some n =>
                  if n <=? ngroups
                  then cap n ++ get_substitution matched cap ngroups t2
                  else 36%N :: d :: get_substitution matched cap ngroups t2
              | None => 36%N :: get_substitution matched cap ngroups t1
              end
        end
      else c0 :: get_substitution matched cap ngroups t1
  end.

(** *** [s.replaceAll(r, tmpl)] for a pattern with the [g] flag

    One pass from left to right: [skip] counts the characters of a
    match that are still to be passed over; the search resumes in the
    subject after the match (one character further after an empty
    match). *)
Fixpoint replace_go (r : t) (tmpl : jsstring) (p skip : nat) (s : jsstring)
    {struct s} : jsstring :=
  match skip with
  | S skip' =>
      match s with
      | [] => []
      | _ :: s' => replace_go r tmpl (S p) skip' s'
      end
  | O =>
      match match_at r p s with
      | Some (len, c) =>
          get_substitution (firstn len s) (cap_text p s c)
                           (length (groups (re r))) tmpl ++
          match s with
          | [] => []
          | ch :: s' =>
              match len with
              | O => ch :: replace_go r tmpl (S p) 0 s'
              | S len' => replace_go r tmpl (S p) len' s'
              end
          end
      | None =>
          match s with
          | [] => []
          | ch :: s' => ch :: replace_go r tmpl (S p) 0 s'
          end
      end
  end.

Definition replaceAll (s : jsstring) (r : t) (tmpl : jsstring) : jsstring :=
  replace_go r tmpl 0 0 s.

(** *** [s.split(r)]

    The pattern is tried at each index before the end of the subject;
    a match closes the current piece [cur], unless it is empty and the
    piece is empty too, and then it is passed over; after an empty match
    the search moves one character on; the captures of a match are
    spliced into the result. *)
Definition cap_values (ngroups p : nat) (s : jsstring) (c : captures) : list jsstring :=
  map (cap_text p s c) (seq 1 ngroups).

Fixpoint split_go (r : t) (p skip : nat) (cur : jsstring) (s : jsstring)
    {struct s} : list jsstring :=
  match s with
  | [] => [cur]
  | ch :: s' =>
      match skip with
      | S skip' => split_go r (S p) skip' cur s'
      | O =>
          match match_at r p s with
          | Some (S len', c) =>
              cur :: cap_values (length (groups (re r))) p s c ++
              split_go r (S p) len' [] s'
          | Some (O, c) =>
              match cur with
              | [] => split_go r (S p) 0 [ch] s'
              | _ =>
                  cur :: cap_values (length (groups (re r))) p s c ++
                  split_go r (S p) 0 [ch] s'
              end
          | None => split_go r (S p) 0 (cur ++ [ch]) s'
          end
      end
  end.

Definition split (s : jsstring) (r : t) : list jsstring :=
  match s with
  | [] => match match_at r 0 [] with Some _ => [] | None => [[]] end
  | _ => split_go r 0 0 [] s
  end.

End Regex.

Import Regex.

Definition LF : jsstring := [10%N].
Definition dquote : jsstring := [34%N].

(** ** The inline transformer: [convertLineToMarkdown] *)

(** [/_([^_]+)_/gi] *)
Definition underline_re : Regex.t :=
  {| re := Seq (Char (chr "_")) (Seq (Group 1 (Plus (NotChar (chr "_")))) (Char (chr "_")));
     ignoreCase := true |}.

(** [/\*\*([^\*]+)\*\*/gi] *)
Definition bold_re : Regex.t :=
  {| re := Seq (Char (chr "*")) (Seq (Char (chr "*"))
             (Seq (Group 1 (Plus (NotChar (chr "*"))))
                (Seq (Char (chr "*")) (Char (chr "*")))));
     ignoreCase := true |}.

(** [/\*([^\*]+)\*/gi] *)
Definition italic_re : Regex.t :=
  {| re := Seq (Char (chr "*")) (Seq (Group 1 (Plus (NotChar (chr "*")))) (Char (chr "*")));
     ignoreCase := true |}.

(** [/\~([^~]+)\~/gi] *)
Definition strike_re : Regex.t :=
  {| re := Seq (Char (chr "~")) (Seq (Group 1 (Plus (NotChar (chr "~")))) (Char (chr "~")));
     ignoreCase := true |}.

(** [/\[([^\]]+)\]\(([^)]+)\)/gi] *)
Definition link_re : Regex.t :=
  {| re := Seq (Char (chr "[")) (Seq (Group 1 (Plus (NotChar (chr "]"))))
             (Seq (Char (chr "]")) (Seq (Char (chr "("))
                (Seq (Group 2 (Plus (NotChar (chr ")")))) (Char (chr ")"))))));
     ignoreCase := true |}.

(** [/\[ \]/gi] *)
Definition unchecked_re : Regex.t := {| re := lit (js "[ ]"); ignoreCase := true |}.

(** [/\[x\]/gi] *)
Definition checked_re : Regex.t := {| re := lit (js "[x]"); ignoreCase := true |}.

Definition underline_tmpl : jsstring := js "<u>$1</u>".
Definition bold_tmpl : jsstring := js "<b>$1</b>".
Definition italic_tmpl : jsstring := js "<em>$1</em>".
Definition strike_tmpl : jsstring := js "<s>$1</s>".
Definition link_tmpl : jsstring :=
  js "<a href=" ++ dquote ++ js "$2" ++ dquote ++ js ">$1</a>".

Definition convertLineToMarkdown (text : jsstring) : jsstring :=
  let text := replaceAll text underline_re underline_tmpl in
  let text := replaceAll text bold_re bold_tmpl in
  let text := replaceAll text italic_re italic_tmpl in
  let text := replaceAll text strike_re strike_tmpl in
  let text := replaceAll text link_re link_tmpl in
  let text := replaceAll text unchecked_re unchecked_glyph in
  replaceAll text checked_re checked_glyph.

(** ** The block splitter, the grouper and the assembler:
       [convertTextToMarkdown] *)

(** [/(?:\n|\<br\>|&nbsp;)+/gi] *)
Definition break_re : Regex.t :=
  {| re := Plus (Alt (Char 10%N) (Alt (lit (js "<br>")) (lit (js "&nbsp;"))));
     ignoreCase := true |}.

(** [/<p>(.+?)<\/p>/gi] *)
Definition paragraph_re : Regex.t :=
  {| re := Seq (lit (js "<p>")) (Seq (Group 1 (PlusLazy Dot)) (lit (js "</p>")));
     ignoreCase := true |}.

(** [/(<\/ol>|<\/ul>|<\/li>)/gi] *)
Definition closer_re : Regex.t :=
  {| re := Group 1 (Alt (lit (js "</ol>")) (Alt (lit (js "</ul>")) (lit (js "</li>"))));
     ignoreCase := true |}.

(** [/\n/] *)
Definition lf_re : Regex.t := {| re := Char 10%N; ignoreCase := false |}.

(** [/^\s*\*/] *)
Definition bullet_re : Regex.t :=
  {| re := Seq Bol (Seq (Star Space) (Char (chr "*"))); ignoreCase := false |}.

(** The same pattern with the white space captured: [^], group 1 around [\s*], then [\*]. *)
Definition bullet_spaces_re : Regex.t :=
  {| re := Seq Bol (Seq (Group 1 (Star Space)) (Char (chr "*"))); ignoreCase := false |}.

(** The lines that the converter walks: the primary split, and the
    fallback when it yields one line. *)
Definition inputLines (text : jsstring) : list jsstring :=
  let inputLines := split text break_re in
  match inputLines with
  | [l0] =>
      split (replaceAll (replaceAll l0 paragraph_re (js "$1" ++ LF))
                        closer_re (js "$1" ++ LF))
            lf_re
  | _ => inputLines
  end.

(** The three variables that [processLine] closes over. *)
Record conv := {
  outputLines : list jsstring;
  liLines : list jsstring;
  liSpaces : jsstring
}.

Definition conv_init : conv :=
  {| outputLines := []; liLines := []; liSpaces := [] |}.

(** The flush of the pending bullets. *)
Definition flush (st : conv) : conv :=
  {| outputLines :=
       outputLines st ++
       map (fun li => liSpaces st ++ bullet_glyph ++ js " " ++ li) (liLines st);
     liLines := [];
     liSpaces := [] |}.

(** The tail of [processLine], for a line that is not a bullet. *)
Definition emit (isText : bool) (processedLine : option jsstring) (st : conv) : conv :=
  match processedLine with
  | Some pl =>
      let out :=
        if endsWith pl (js "</ol>") || endsWith pl (js "</ul>") || endsWith pl (js "</li>")
        then pl
        else if isText then js "<p>" ++ pl ++ js "</p>"
        else pl in
      {| outputLines := outputLines st ++ [out];
         liLines := liLines st; liSpaces := liSpaces st |}
  | None => st
  end.

(** [processLine(line)]; [None] as argument is the script's [null], and
    [None] as result is the exception that destructuring a failed match
    raises. *)
Definition processLine (isText : bool) (line : option jsstring) (st : conv)
    : option conv :=
  let processedLine := option_map convertLineToMarkdown line in
  match processedLine with
  | Some pl =>
      match match_ pl bullet_re with
      | Some _ =>
          match match_ pl bullet_spaces_re with
          | Some (_, (_, c)) =>
              let spaces := cap_text 0 pl c 1 in
              Some {| outputLines := outputLines st;
                      liLines := liLines st ++ [replace_str (spaces ++ js "*") [] pl];
                      liSpaces := if length (liSpaces st) =? 0 then spaces
                                  else liSpaces st |}
          | None => None
          end
      | None =>
          Some (emit isText processedLine
                  (if 0 <? length (liLines st) then flush st else st))
      end
  | None =>
      Some (emit isText processedLine
              (if 0 <? length (liLines st) then flush st else st))
  end.

(** The loop over the lines. *)
Fixpoint processLines (isText : bool) (lines : list jsstring) (st : conv)
    : option conv :=
  match lines with
  | [] => Some st
  | l :: rest =>
      match processLine isText (Some l) st with
      | Some st' => processLines isText rest st'
      | None => None
      end
  end.

Definition convertTextToMarkdown (text : jsstring) (isText : bool) : option jsstring :=
  match processLines isText (inputLines text) conv_init with
  | Some st =>
      match processLine isText None st with
      | Some st' =>
          Some (if isText then join [] (outputLines st')
                else join (js "<br/>") (outputLines st'))
      | None => None
      end
  | None => None
  end.

(** ** Board items and the mode toggle *)

(** A metadata value of the host: any JSON value. *)
#[local] Unset Elimination Schemes.
Inductive Json : Type :=
| JNull
| JBool (b : bool)
| JNumber (n : Z)
| JString (s : jsstring)
| JArray (l : list Json)
| JObject (l : list (jsstring * Json)).
#[local] Set Elimination Schemes.

(** The fields of a board item that the script reads or writes.  A card
    carries its text in [title], the other content items in [content]. *)
Record Item := {
  id : jsstring;
  type : jsstring;
  content : jsstring;
  title : jsstring;
  metadata : gmap jsstring Json
}.

Definition MARKDOWN_META_KEY : jsstring := js "original-markdown".

Definition isContentItem (item : Item) : bool :=
  str_eqb (type item) (js "text") || str_eqb (type item) (js "shape")
  || str_eqb (type item) (js "sticky_note") || str_eqb (type item) (js "card").

Definition getItemContent (item : Item) : jsstring :=
  if str_eqb (type item) (js "card") then title item else content item.

Definition setItemContent (item : Item) (c : jsstring) : Item :=
  if str_eqb (type item) (js "card")
  then {| id := id item; type := type item; content := content item;
          title := c; metadata := metadata item |}
  else {| id := id item; type := type item; content := c;
          title := title item; metadata := metadata item |}.

(** [item.getMetadata(key)]; [None] is [undefined]. *)
Definition getMetadata (item : Item) (key : jsstring) : option Json :=
  metadata item !! key.

(** [item.setMetadata(key, value)] *)
Definition setMetadata (item : Item) (key : jsstring) (v : Json) : Item :=
  {| id := id item; type := type item; content := content item;
     title := title item; metadata := <[key := v]> (metadata item) |}.

(** [typeof v === "string"] *)
Definition is_string (v : option Json) : bool :=
  match v with
  | Some (JString _) => true
  | _ => false
  end.

Definition hasMarkdownEnabled (item : Item) : bool :=
  is_string (getMetadata item MARKDOWN_META_KEY).

Section Actions.

(** [item.sync()], the host's commit of an item; the script calls it
    only when a callback answers [true]. *)
Variable sync : Item -> Item.

Definition forEachItemWithContent (items : list Item)
    (callback : Item -> Item * bool) : list Item :=
  map (fun item =>
         if isContentItem item then
           let (item', changed) := callback item in
           if changed then sync item' else item'
         else item)
      items.

(** The callback of [onMarkdownEnable]. *)
Definition enable_callback (item : Item) : Item * bool :=
  (if negb (hasMarkdownEnabled item)
   then setMetadata item MARKDOWN_META_KEY (JString (getItemContent item))
   else item,
   false).

(** The callback of [onMarkdownDisable]. *)
Definition disable_callback (item : Item) : Item * bool :=
  (if hasMarkdownEnabled item
   then setMetadata item MARKDOWN_META_KEY JNull
   else item,
   false).

(** The two actions, on the items of the event. *)
Definition onMarkdownEnable (items : list Item) : list Item :=
  forEachItemWithContent items enable_callback.

Definition onMarkdownDisable (items : list Item) : list Item :=
  forEachItemWithContent items disable_callback.

End Actions.

(** ** The handler of [selection:update]: [initSelectionEvents] *)

Section Selection.

(** [item.sync()] and [miro.board.getById(id)], the latter with [None]
    for the error that it throws on an item that no longer exists. *)
Variable sync : Item -> Item.
Variable getById : jsstring -> option Item.

(** The refresh of [selectedTextItems]: every item is looked up again
    by its identifier, and the items whose lookup throws are filtered
    out. *)
Definition refreshSelected (selectedTextItems : list Item) : list Item :=
  omap (fun item => getById (id item)) selectedTextItems.

(** The callback on a previously selected item: an item that the event
    does not hold and that has markdown enabled gets its text stored
    under the markdown key and replaced by its rendering (in paragraph
    mode for the type [text]), and is synced.  The [None] branch is the
    item as an exception of the converter would leave it, the metadata
    written and the text not. *)
Definition unselect_callback (event_items : list Item) (item : Item) : Item :=
  if negb (isContentItem item) then item
  else if negb (existsb (fun oldItem => str_eqb (id oldItem) (id item)) event_items)
          && hasMarkdownEnabled item
  then
    let item := setMetadata item MARKDOWN_META_KEY (JString (getItemContent item)) in
    match convertTextToMarkdown (getItemContent item)
                                (str_eqb (type item) (js "text")) with
    | Some md => sync (setItemContent item md)
    | None => item
    end
  else item.

(** The callback on an item of the event: with markdown enabled, its
    text is replaced by the stored source and the item is to be synced.
    ([hasMarkdownEnabled] has just found a string under the key; the
    branch of another value is not reached.) *)
Definition select_callback (item : Item) : Item * bool :=
  if hasMarkdownEnabled item then
    match getMetadata item MARKDOWN_META_KEY with
    | Some (JString source) => (setItemContent item source, true)
    | _ => (item, true)
    end
  else (item, false).

(** The handler, from [selectedTextItems] and the items of the event
    to: the previously selected items as it leaves them, the items of
    the event as it leaves them, and the new [selectedTextItems].  The
    callback pushes each content item of the event before it changes
    it, and the list holds the object itself: its elements are the
    items as the callback leaves them.

    The conversions of the previously selected items are started and
    not awaited.  They write to items that the event does not hold,
    the last phase writes to the items of the event: the order in
    which the two run does not show in the result. *)
Definition onSelectionUpdate (selectedTextItems event_items : list Item)
    : list Item * list Item * list Item :=
  let selectedTextItems := refreshSelected selectedTextItems in
  let unselected := map (unselect_callback event_items) selectedTextItems in
  let selected := forEachItemWithContent sync event_items select_callback in
  let selectedTextItems :=
    forEachItemWithContent sync (List.filter isContentItem event_items) select_callback in
  (unselected, selected, selectedTextItems).

End Selection.

(** * Vocabulary of the properties

    The definitions below are not in the script: they are the words
    in which the properties are stated and proved. *)

(** ** The mode toggle *)

(** What the enable action does to one item of the event. *)
Definition enabled (item : Item) : Item :=
  if isContentItem item && negb (hasMarkdownEnabled item)
  then setMetadata item MARKDOWN_META_KEY (JString (getItemContent item))
  else item.

(** What the disable action does to one item of the event. *)
Definition disabled (item : Item) : Item :=
  if isContentItem item && hasMarkdownEnabled item
  then setMetadata item MARKDOWN_META_KEY JNull
  else item.

(** A text item with no metadata. *)
Definition sample_text_item : Item :=
  {| id := js "1"; type := js "text"; content := js "**hi**";
     title := []; metadata := ∅ |}.

(** ** The matcher *)

(** [y] is reached from [x] by consuming a prefix of the input. *)
Definition extends (x y : state) : Prop :=
  exists w, rest x = w ++ rest y /\ pos y = pos x + length w.

(** ** Patterns without [^] do not see the index *)

(** The pattern holds no [^]. *)
Fixpoint bol_free (r : regex) : bool :=
  match r with
  | Bol => false
  | Seq r1 r2 | Alt r1 r2 => bol_free r1 && bol_free r2
  | Group _ r' | Repeat _ _ r' => bol_free r'
  | _ => true
  end.

(** The captures and the state, moved [d] indices on. *)
Definition shift_caps (d : nat) (c : captures) : captures :=
  map (fun e => (fst e, (fst (snd e) + d, snd (snd e) + d))) c.

Definition shift (d : nat) (x : state) : state :=
  {| pos := pos x + d; rest := rest x; caps := shift_caps d (caps x) |}.

(** [k'] does on the moved state what [k] does on the state. *)
Definition equivariant (d : nat) (k k' : cont) : Prop :=
  forall y, k' (shift d y) = option_map (shift d) (k y).

(** The first character of a pattern that begins with a pattern
    character. *)
Definition head_char (r : regex) : option char :=
  match r with
  | Char c | Seq (Char c) _ => Some c
  | _ => None
  end.

(** ** A greedy star over a character class *)

(** The longest prefix in the class, and what follows it. *)
Fixpoint take_while (p : char -> bool) (s : jsstring) : jsstring :=
  match s with
  | ch :: s' => if p ch then ch :: take_while p s' else []
  | [] => []
  end.

Fixpoint drop_while (p : char -> bool) (s : jsstring) : jsstring :=
  match s with
  | ch :: s' => if p ch then drop_while p s' else s
  | [] => []
  end.

(** ** The bullet pattern *)

(** The bullet marker. *)
Definition STAR : char := chr "*".

(** A line is a bullet when a star follows its leading white space. *)
Definition is_bullet (pl : jsstring) : bool :=
  match drop_while is_space pl with
  | ch :: _ => N.eqb ch STAR
  | [] => false
  end.

(** Its leading white space, and its text after the marker. *)
Definition bullet_spaces (pl : jsstring) : jsstring := take_while is_space pl.

Definition bullet_content (pl : jsstring) : jsstring := tl (drop_while is_space pl).

(** ** The seven rules of the inline transformer *)

(** No star in [s]. *)
Definition star_free (s : jsstring) : Prop := Forall (fun ch => ch <> STAR) s.

(** ** The grouper *)

(** The white-space snapshot after a run of bullets: the first prefix
    that is not empty. *)
Definition snapshot (sp0 : jsstring) (bs : list jsstring) : jsstring :=
  fold_left (fun sp l =>
               if length sp =? 0 then bullet_spaces (convertLineToMarkdown l) else sp)
            bs sp0.

(** A line that the classifier takes for a bullet. *)
Definition bullet_line (l : jsstring) : Prop :=
  is_bullet (convertLineToMarkdown l) = true.

(** An entry of a list block. *)
Definition list_entry (sp li : jsstring) : jsstring :=
  sp ++ bullet_glyph ++ js " " ++ li.

(** ** The inline transformer *)

(** The rules, in the order of the script. *)
Definition inline_rules : list (Regex.t * jsstring) :=
  [ (underline_re, underline_tmpl); (bold_re, bold_tmpl); (italic_re, italic_tmpl);
    (strike_re, strike_tmpl); (link_re, link_tmpl);
    (unchecked_re, unchecked_glyph); (checked_re, checked_glyph) ].

(** One rule, as the script applies it. *)
Definition apply_rule (text : jsstring) (rule : Regex.t * jsstring) : jsstring :=
  replaceAll text (fst rule) (snd rule).

(** ** Provenance of the characters of a line

    The same passes over a line whose characters carry a mark:
    [None] for a character of the input line, [Some k] for a character
    that the replacement of rule [k] wrote.  A pass matches on the
    characters alone; it returns its output and the text of each of its
    matches. *)

Definition tagged := list (char * option nat).

(** The characters without their marks; a line with every character
    marked as input. *)
Definition erase (ts : tagged) : jsstring := map fst ts.

Definition original (s : jsstring) : tagged := map (fun ch => (ch, None)) s.

(** [get_substitution] with marks: what the template writes is marked
    [Some k], the match and the captures keep their marks. *)
Fixpoint tag_substitution (k : nat) (matched : tagged) (cap : nat -> tagged)
    (ngroups : nat) (tmpl : jsstring) : tagged :=
  match tmpl with
  | [] => []
  | c0 :: t1 =>
      if N.eqb c0 36 then
        match t1 with
        | [] => [(36%N, Some k)]
        | d :: t2 =>
            if N.eqb d 36 then (36%N, Some k) :: tag_substitution k matched cap ngroups t2
            else if N.eqb d 38 then matched ++ tag_substitution k matched cap ngroups t2
            else
              match digit_of d with
              | Some n =>
                  if n <=? ngroups
                  then cap n ++ tag_substitution k matched cap ngroups t2
                  else (36%N, Some k) :: (d, Some k)
                       :: tag_substitution k matched cap ngroups t2
              | None => (36%N, Some k) :: tag_substitution k matched cap ngroups t1
              end
        end
      else (c0, Some k) :: tag_substitution k matched cap ngroups t1
  end.

(** [replace_go] with marks, and with the list of the matches. *)
Fixpoint replace_go_tagged (r : Regex.t) (tmpl : jsstring) (k : nat) (p skip : nat)
    (ts : tagged) {struct ts} : tagged * list tagged :=
  match skip with
  | S skip' =>
      match ts with
      | [] => ([], [])
      | _ :: ts' => replace_go_tagged r tmpl k (S p) skip' ts'
      end
  | O =>
      match match_at r p (erase ts) with
      | Some (len, c) =>
          let sub := tag_substitution k (firstn len ts) (cap_text p ts c)
                                      (length (groups (re r))) tmpl in
          let tail :=
            match ts with
            | [] => ([], [])
            | u :: ts' =>
                match len with
                | O => let om := replace_go_tagged r tmpl k (S p) 0 ts' in
                       (u :: fst om, snd om)
                | S len' => replace_go_tagged r tmpl k (S p) len' ts'
                end
            end in
          (sub ++ fst tail, firstn len ts :: snd tail)
      | None =>
          match ts with
          | [] => ([], [])
          | u :: ts' => let om := replace_go_tagged r tmpl k (S p) 0 ts' in
                        (u :: fst om, snd om)
          end
      end
  end.

(** The passes of the rules from index [k] on, with the matches of
    each. *)
Fixpoint run_tagged (k : nat) (rules : list (Regex.t * jsstring)) (ts : tagged)
    : tagged * list (nat * list tagged) :=
  match rules with
  | [] => (ts, [])
  | (r, tmpl) :: rules' =>
      let om := replace_go_tagged r tmpl k 0 0 ts in
      let fl := run_tagged (S k) rules' (fst om) in
      (fst fl, (k, snd om) :: snd fl)
  end.

(** The matches of each rule on a line. *)
Definition matches_of_line (line : jsstring) : list (nat * list tagged) :=
  snd (run_tagged 0 inline_rules (original line)).

(** Rule [k] matched a character that the replacement of rule [j] wrote. *)
Definition rematched (log : list (nat * list tagged)) (j k : nat) : Prop :=
  exists ms mt ch, In (k, ms) log /\ In mt ms /\ In (ch, Some j) mt.

(** A mark below [k]: a character of the input or of a rule before [k]. *)
Definition tag_below (k : nat) (u : char * option nat) : Prop :=
  match snd u with
  | None => True
  | Some j => j < k
  end.

(** ** The breaks of the block splitter *)

(** [l] is a prefix of [s], up to the case of letters. *)
Fixpoint ci_prefix (l s : jsstring) : bool :=
  match l, s with
  | [], _ => true
  | c :: l', ch :: s' => char_matches true c ch && ci_prefix l' s'
  | _ :: _, [] => false
  end.

(** The length of the break at the head of [s]: a line feed, [<br>]
    or [&nbsp;]. *)
Definition break_len (s : jsstring) : option nat :=
  if ci_prefix LF s then Some 1
  else if ci_prefix (js "<br>") s then Some 4
  else if ci_prefix (js "&nbsp;") s then Some 6
  else None.

(** [s] without the breaks at its head; [skip] counts the characters
    of a break still to be passed over. *)
Fixpoint strip_go (skip : nat) (s : jsstring) {struct s} : jsstring :=
  match s with
  | [] => []
  | _ :: s' =>
      match skip with
      | S skip' => strip_go skip' s'
      | O =>
          match break_len s with
          | Some (S n) => strip_go n s'
          | _ => s
          end
      end
  end.

(** [s] without the breaks at its head. *)
Definition strip_breaks (s : jsstring) : jsstring := strip_go 0 s.

(** A break, as a string. *)
Definition is_break (d : jsstring) : bool :=
  match break_len d with
  | Some n => length d =? n
  | None => false
  end.

(** The state [n] characters further. *)
Definition adv (x : state) (n : nat) : state :=
  {| pos := pos x + n; rest := skipn n (rest x); caps := caps x |}.

(** No break begins anywhere in [l]. *)
Definition break_free (l : jsstring) : Prop :=
  forall a b, l = a ++ b -> break_len b = None.

(** ** The fallback of the block splitter *)

(** The text after the two substitutions of the fallback. *)
Definition fallback_text (text : jsstring) : jsstring :=
  replaceAll (replaceAll text paragraph_re (js "$1" ++ LF)) closer_re (js "$1" ++ LF).

(** ** The characters that begin a rule *)

(** The four characters with which the patterns of the inline rules
    begin: [_], [*], [~] and the opening bracket. *)
Definition is_delimiter (ch : char) : bool :=
  (N.eqb ch 95 || N.eqb ch 42 || N.eqb ch 126 || N.eqb ch 91)%N.

(** A text that holds none of them. *)
Definition plain (s : jsstring) : Prop :=
  Forall (fun ch => is_delimiter ch = false) s.

(** A text that does not hold [c]. *)
Definition no_char (c : char) (s : jsstring) : Prop :=
  Forall (fun ch => ch <> c) s.

(** A pattern character that is not a letter. *)
Definition nonletter (c : char) : Prop := (c < 65 \/ 90 < c < 97 \/ 122 < c)%N.

(** The pattern of a rule that wraps the text between two [c]. *)
Definition wrap_re (c : char) : Regex.t :=
  {| re := Seq (Char c) (Seq (Group 1 (Plus (NotChar c))) (Char c));
     ignoreCase := true |}.

(** ** The lines of a text *)

(** What a line that is not a bullet is emitted as, after the inline
    transformer: wrapped in a paragraph in a text field, unless it ends
    with a closing list tag. *)
Definition emitted (isText : bool) (pl : jsstring) : jsstring :=
  if endsWith pl (js "</ol>") || endsWith pl (js "</ul>") || endsWith pl (js "</li>")
  then pl
  else if isText then js "<p>" ++ pl ++ js "</p>"
  else pl.

(** The separator of the assembler. *)
Definition separator (isText : bool) : jsstring :=
  if isText then [] else js "<br/>".

(** A character that begins a break or a tag: a line feed, [<] or [&]. *)
Definition is_break_start (ch : char) : bool :=
  (N.eqb ch 10 || N.eqb ch 60 || N.eqb ch 38)%N.

(** A text with no character that begins a break or a tag. *)
Definition tag_free (s : jsstring) : Prop :=
  Forall (fun ch => is_break_start ch = false) s.

(** A paragraph, as a text field stores a line. *)
Definition paragraph (l : jsstring) : jsstring := js "<p>" ++ l ++ js "</p>".

(** A text with no line terminator: what the dot of a pattern matches. *)
Definition one_line (s : jsstring) : Prop :=
  Forall (fun ch => is_line_terminator ch = false) s.

(** ** The selection *)

(** A text item in markdown mode that shows the rendering of its
    stored source. *)
Definition sample_rendered_item : Item :=
  {| id := js "2"; type := js "text"; content := js "<p><b>hi</b></p>";
     title := []; metadata := {[ MARKDOWN_META_KEY := JString (js "**hi**") ]} |}.

(** ** Runs of breaks *)

(** A text as the block splitter sees it: a first line, and then runs
    of breaks, each followed by a line. *)
Definition with_breaks (l0 : jsstring) (rest : list (list jsstring * jsstring))
    : jsstring :=
  l0 ++ concat (map (fun p => concat (fst p) ++ snd p) rest).

(** One or more breaks in a row, and then a line without a break. *)
Definition run_and_line (p : list jsstring * jsstring) : Prop :=
  fst p <> [] /\ Forall (fun d => is_break d = true) (fst p) /\ break_free (snd p).

(** ** The two substitutions of the fallback, in words

    The definitions below say what the two substitutions do to a text
    without a pattern or a matcher; the properties compare them with
    the two [replaceAll] of the script. *)










(** * Properties *)

(** ** The mode toggle *)

Section ToggleFacts.

Variable sync : Item -> Item.

Lemma enable_callback_snd item : snd (enable_callback item) = false.
Proof. reflexivity. Qed.

Lemma hasMarkdownEnabled_setMetadata_string item s :
  hasMarkdownEnabled (setMetadata item MARKDOWN_META_KEY (JString s)) = true.
Proof.
  unfold hasMarkdownEnabled, getMetadata, setMetadata; simpl.
  by rewrite lookup_insert_eq.
Qed.

Lemma hasMarkdownEnabled_setMetadata_null item :
  hasMarkdownEnabled (setMetadata item MARKDOWN_META_KEY JNull) = false.
Proof.
  unfold hasMarkdownEnabled, getMetadata, setMetadata; simpl.
  by rewrite lookup_insert_eq.
Qed.

Lemma getItemContent_setMetadata item k v :
  getItemContent (setMetadata item k v) = getItemContent item.
Proof. reflexivity. Qed.

Lemma isContentItem_setMetadata item k v :
  isContentItem (setMetadata item k v) = isContentItem item.
Proof. reflexivity. Qed.

Lemma onMarkdownEnable_map items :
  onMarkdownEnable sync items = map enabled items.
Proof.
  unfold onMarkdownEnable, forEachItemWithContent.
  apply map_ext; intros item. unfold enabled, enable_callback.
  destruct (isContentItem item); simpl; [|done].
  by destruct (hasMarkdownEnabled item).
Qed.

Lemma onMarkdownDisable_map items :
  onMarkdownDisable sync items = map disabled items.
Proof.
  unfold onMarkdownDisable, forEachItemWithContent.
  apply map_ext; intros item. unfold disabled, disable_callback.
  destruct (isContentItem item); simpl; [|done].
  by destruct (hasMarkdownEnabled item).
Qed.

Lemma enabled_frame item :
  id (enabled item) = id item /\ type (enabled item) = type item /\
  content (enabled item) = content item /\ title (enabled item) = title item /\
  forall k, k <> MARKDOWN_META_KEY ->
            metadata (enabled item) !! k = metadata item !! k.
Proof.
  unfold enabled.
  destruct (isContentItem item && negb (hasMarkdownEnabled item)); simpl;
    repeat split; try done.
  intros k Hk. by rewrite lookup_insert_ne.
Qed.

Lemma disabled_frame item :
  id (disabled item) = id item /\ type (disabled item) = type item /\
  content (disabled item) = content item /\ title (disabled item) = title item /\
  forall k, k <> MARKDOWN_META_KEY ->
            metadata (disabled item) !! k = metadata item !! k.
Proof.
  unfold disabled.
  destruct (isContentItem item && hasMarkdownEnabled item); simpl;
    repeat split; try done.
  intros k Hk. by rewrite lookup_insert_ne.
Qed.

Lemma getItemContent_frame (a b : Item) :
  type a = type b -> content a = content b -> title a = title b ->
  getItemContent a = getItemContent b.
Proof. unfold getItemContent. by intros -> -> ->. Qed.

Lemma enabled_has item :
  isContentItem item = true -> hasMarkdownEnabled (enabled item) = true.
Proof.
  intros Hc. unfold enabled. rewrite Hc. simpl.
  destruct (hasMarkdownEnabled item) eqn:E; simpl; [done|].
  apply hasMarkdownEnabled_setMetadata_string.
Qed.

Lemma disabled_has item :
  isContentItem item = true -> hasMarkdownEnabled (disabled item) = false.
Proof.
  intros Hc. unfold disabled. rewrite Hc. simpl.
  destruct (hasMarkdownEnabled item) eqn:E; simpl; [|done].
  apply hasMarkdownEnabled_setMetadata_null.
Qed.

Lemma enabled_idem item : enabled (enabled item) = enabled item.
Proof.
  unfold enabled at 2 3.
  destruct (isContentItem item) eqn:Hc; simpl; [|by unfold enabled; rewrite Hc].
  destruct (hasMarkdownEnabled item) eqn:E; simpl.
  - unfold enabled. by rewrite Hc, E.
  - unfold enabled. rewrite isContentItem_setMetadata, Hc.
    by rewrite hasMarkdownEnabled_setMetadata_string.
Qed.

Lemma disabled_idem item : disabled (disabled item) = disabled item.
Proof.
  unfold disabled at 2 3.
  destruct (isContentItem item) eqn:Hc; simpl; [|by unfold disabled; rewrite Hc].
  destruct (hasMarkdownEnabled item) eqn:E; simpl.
  - unfold disabled. rewrite isContentItem_setMetadata, Hc.
    by rewrite hasMarkdownEnabled_setMetadata_null.
  - unfold disabled. by rewrite Hc, E.
Qed.

(** C1: enabling and then disabling markdown on the items of an event
    leaves the text of every item (its content, or its title for a
    card) exactly as it was, whatever that text is. *)
Theorem disable_enable_restores_content (items : list Item) :
  map getItemContent (onMarkdownDisable sync (onMarkdownEnable sync items))
  = map getItemContent items /\
  map content (onMarkdownDisable sync (onMarkdownEnable sync items))
  = map content items.
Proof.
  rewrite onMarkdownEnable_map, onMarkdownDisable_map, !map_map.
  split; apply map_ext; intros item;
    destruct (enabled_frame item) as (_ & Ht & Hc & Hti & _);
    destruct (disabled_frame (enabled item)) as (_ & Ht' & Hc' & Hti' & _).
  - apply getItemContent_frame; congruence.
  - congruence.
Qed.

(** C2: on content items, each item is in markdown mode right after
    the enable action and out of it right after the disable action; an
    item that is already in the target mode is left exactly as it is,
    its stored source included, and an item that is not gets the
    markdown key written (its text on enable, [null] on disable) and
    nothing else; so a second enable (or disable) in a row changes
    nothing. *)
Theorem toggle_mode_stable (items : list Item) :
  Forall (fun item => isContentItem item = true) items ->
  Forall2 (fun item item' =>
             hasMarkdownEnabled item' = true /\
             (hasMarkdownEnabled item = true -> item' = item) /\
             (hasMarkdownEnabled item = false ->
              item' = setMetadata item MARKDOWN_META_KEY (JString (getItemContent item))))
          items (onMarkdownEnable sync items) /\
  Forall2 (fun item item' =>
             hasMarkdownEnabled item' = false /\
             (hasMarkdownEnabled item = false -> item' = item) /\
             (hasMarkdownEnabled item = true ->
              item' = setMetadata item MARKDOWN_META_KEY JNull))
          items (onMarkdownDisable sync items) /\
  onMarkdownEnable sync (onMarkdownEnable sync items) = onMarkdownEnable sync items /\
  onMarkdownDisable sync (onMarkdownDisable sync items) = onMarkdownDisable sync items.
Proof.
  intros Hall.
  rewrite !onMarkdownEnable_map, !onMarkdownDisable_map, !map_map.
  repeat split.
  - induction Hall as [|item items Hc _ IH]; cbn [map]; constructor; [|exact IH].
    split; [by apply enabled_has|]. unfold enabled. rewrite Hc. cbn [andb].
    split; intros ->; reflexivity.
  - induction Hall as [|item items Hc _ IH]; cbn [map]; constructor; [|exact IH].
    split; [by apply disabled_has|]. unfold disabled. rewrite Hc. cbn [andb].
    split; intros ->; reflexivity.
  - apply map_ext; intros; apply enabled_idem.
  - apply map_ext; intros; apply disabled_idem.
Qed.

(** C10: the two actions leave every field of every item as it was,
    its content and its title included, and every metadata entry
    under another key than the markdown key. *)
Theorem actions_touch_only_markdown_key (items : list Item) :
  Forall2 (fun item item' =>
             id item' = id item /\ type item' = type item /\
             content item' = content item /\ title item' = title item /\
             forall k, k <> MARKDOWN_META_KEY ->
                       metadata item' !! k = metadata item !! k)
          items (onMarkdownEnable sync items) /\
  Forall2 (fun item item' =>
             id item' = id item /\ type item' = type item /\
             content item' = content item /\ title item' = title item /\
             forall k, k <> MARKDOWN_META_KEY ->
                       metadata item' !! k = metadata item !! k)
          items (onMarkdownDisable sync items).
Proof.
  rewrite onMarkdownEnable_map, onMarkdownDisable_map.
  split; induction items as [|item items IH]; simpl; constructor; auto.
  - apply enabled_frame.
  - apply disabled_frame.
Qed.

End ToggleFacts.

Lemma toggle_mode_stable_witness :
  Forall2 (fun item item' =>
             hasMarkdownEnabled item' = true /\
             (hasMarkdownEnabled item = true -> item' = item) /\
             (hasMarkdownEnabled item = false ->
              item' = setMetadata item MARKDOWN_META_KEY (JString (getItemContent item))))
          [sample_text_item; sample_rendered_item]
          (onMarkdownEnable (fun i => i) [sample_text_item; sample_rendered_item]) /\
  Forall2 (fun item item' =>
             hasMarkdownEnabled item' = false /\
             (hasMarkdownEnabled item = false -> item' = item) /\
             (hasMarkdownEnabled item = true ->
              item' = setMetadata item MARKDOWN_META_KEY JNull))
          [sample_text_item; sample_rendered_item]
          (onMarkdownDisable (fun i => i) [sample_text_item; sample_rendered_item]) /\
  onMarkdownEnable (fun i => i)
    (onMarkdownEnable (fun i => i) [sample_text_item; sample_rendered_item])
  = onMarkdownEnable (fun i => i) [sample_text_item; sample_rendered_item] /\
  onMarkdownDisable (fun i => i)
    (onMarkdownDisable (fun i => i) [sample_text_item; sample_rendered_item])
  = onMarkdownDisable (fun i => i) [sample_text_item; sample_rendered_item].
Proof.
  apply (toggle_mode_stable (fun i => i) [sample_text_item; sample_rendered_item]).
  repeat constructor.
Defined.

(** ** Facts about the matcher *)

Lemma clear_caps_nil c : clear_caps [] c = c.
Proof.
  unfold clear_caps. induction c as [|e c IH]; simpl; [done|].
  by f_equal.
Qed.

Lemma extends_refl x : extends x x.
Proof. exists []. simpl. split; [done|lia]. Qed.

Lemma extends_trans x y z : extends x y -> extends y z -> extends x z.
Proof.
  intros (w1 & H1 & P1) (w2 & H2 & P2). exists (w1 ++ w2).
  rewrite H1, H2, length_app, <- app_assoc. split; [done|lia].
Qed.

Lemma extends_length x y : extends x y -> length (rest y) <= length (rest x).
Proof. intros (w & H & _). rewrite H, length_app. lia. Qed.

Lemma char_set_matcher_sound p x k z :
  char_set_matcher p x k = Some z ->
  exists ch s', rest x = ch :: s' /\ p ch = true /\ k (advance x s') = Some z.
Proof.
  unfold char_set_matcher. destruct (rest x) as [|ch s'] eqn:E; [done|].
  destruct (p ch) eqn:Hp; [|done]. intros H. by exists ch, s'.
Qed.

Lemma extends_advance x ch s' : rest x = ch :: s' -> extends x (advance x s').
Proof. intros E. exists [ch]. simpl. split; [done|lia]. Qed.

Lemma repeat_matcher_sound mb gs greedy k :
  (forall x k' z, mb x k' = Some z -> exists y, extends x y /\ k' y = Some z) ->
  forall fuel min x z,
    repeat_matcher mb gs greedy fuel min x k = Some z ->
    exists y, extends x y /\ k y = Some z.
Proof.
  intros Hmb. induction fuel as [|fuel IH]; intros min x z; simpl; [done|].
  set (xr := {| pos := pos x; rest := rest x; caps := clear_caps gs (caps x) |}).
  assert (Hiter : forall d,
    (d = fun y => if (min =? 0) && (pos y =? pos x) then None
                  else repeat_matcher mb gs greedy fuel (Nat.pred min) y k) ->
    mb xr d = Some z -> exists y, extends x y /\ k y = Some z).
  { intros d -> H. apply Hmb in H as (y1 & E1 & H).
    destruct ((min =? 0) && (pos y1 =? pos x)); [done|].
    apply IH in H as (y & E2 & H). exists y. split; [|done].
    eapply extends_trans; [|exact E2].
    destruct E1 as (w & ? & ?). by exists w. }
  destruct (negb (min =? 0)).
  - by apply Hiter.
  - destruct greedy.
    + match goal with |- context [mb xr ?d] => destruct (mb xr d) eqn:E end.
      * intros [= ->]. by eapply Hiter.
      * intros H. exists x. split; [apply extends_refl|done].
    + destruct (k x) eqn:E.
      * intros [= ->]. exists x. split; [apply extends_refl|done].
      * by apply Hiter.
Qed.

(** Whatever a pattern matches, its continuation is entered further on
    in the same input. *)
Lemma m_sound ic r : forall x k z,
  m ic r x k = Some z -> exists y, extends x y /\ k y = Some z.
Proof.
  induction r as [|c|c| | | |r1 IH1 r2 IH2|r1 IH1 r2 IH2|n r IH|mn g r IH];
    intros x k z; cbn [m].
  - intros H. exists x. split; [apply extends_refl|done].
  - intros H. apply char_set_matcher_sound in H as (ch & s' & E & _ & H).
    exists (advance x s'). split; [by eapply extends_advance|done].
  - intros H. apply char_set_matcher_sound in H as (ch & s' & E & _ & H).
    exists (advance x s'). split; [by eapply extends_advance|done].
  - intros H. apply char_set_matcher_sound in H as (ch & s' & E & _ & H).
    exists (advance x s'). split; [by eapply extends_advance|done].
  - intros H. apply char_set_matcher_sound in H as (ch & s' & E & _ & H).
    exists (advance x s'). split; [by eapply extends_advance|done].
  - destruct (pos x =? 0); [|done]. intros H. exists x.
    split; [apply extends_refl|done].
  - intros H. apply IH1 in H as (y1 & E1 & H). apply IH2 in H as (y2 & E2 & H).
    exists y2. split; [by eapply extends_trans|done].
  - destruct (m ic r1 x k) eqn:E.
    + intros [= ->]. by apply IH1.
    + apply IH2.
  - intros H. apply IH in H as (y & E & H).
    eexists. split; [|exact H]. destruct E as (w & ? & ?). by exists w.
  - apply repeat_matcher_sound. apply IH.
Qed.

(** A match at an index stays inside the subject. *)
Lemma match_at_length r p s len c :
  match_at r p s = Some (len, c) -> len <= length s.
Proof.
  unfold match_at.
  destruct (m _ _ _ _) as [z|] eqn:E; [|done]. intros [= <- <-].
  apply m_sound in E as (y & (w & Hw & Hp) & [= ->]). simpl in *.
  rewrite Hw, length_app. lia.
Qed.

(** *** The fuel of the repeat matcher is enough *)

Lemma repeat_matcher_S mb gs greedy fuel min x k :
  repeat_matcher mb gs greedy (S fuel) min x k =
  let d : cont := fun y =>
    if (min =? 0) && (pos y =? pos x) then None
    else repeat_matcher mb gs greedy fuel (Nat.pred min) y k in
  let xr := {| pos := pos x; rest := rest x; caps := clear_caps gs (caps x) |} in
  if negb (min =? 0) then mb xr d
  else if greedy then match mb xr d with Some z => Some z | None => k x end
  else match k x with Some z => Some z | None => mb xr d end.
Proof. reflexivity. Qed.


(** A matcher reads its continuation only on states further on in the
    input. *)
Lemma char_set_matcher_cont p x (k1 k2 : cont) :
  (forall y, extends x y -> k1 y = k2 y) ->
  char_set_matcher p x k1 = char_set_matcher p x k2.
Proof.
  intros Hk. unfold char_set_matcher. destruct (rest x) as [|ch s'] eqn:E; [done|].
  destruct (p ch); [|done]. apply Hk. by eapply extends_advance.
Qed.

Lemma repeat_matcher_cont mb gs greedy :
  (forall x k1 k2, (forall y, extends x y -> k1 y = k2 y) -> mb x k1 = mb x k2) ->
  forall fuel min x (k1 k2 : cont),
    (forall y, extends x y -> k1 y = k2 y) ->
    repeat_matcher mb gs greedy fuel min x k1
    = repeat_matcher mb gs greedy fuel min x k2.
Proof.
  intros Hmb. induction fuel as [|fuel IH]; intros min x k1 k2 Hk; [done|].
  rewrite !repeat_matcher_S. cbv zeta.
  set (xr := {| pos := pos x; rest := rest x; caps := clear_caps gs (caps x) |}).
  assert (Hiter :
    mb xr (fun y => if (min =? 0) && (pos y =? pos x) then None
                    else repeat_matcher mb gs greedy fuel (Nat.pred min) y k1)
    = mb xr (fun y => if (min =? 0) && (pos y =? pos x) then None
                      else repeat_matcher mb gs greedy fuel (Nat.pred min) y k2)).
  { apply Hmb. intros y Hy. destruct ((min =? 0) && (pos y =? pos x)); [done|].
    apply IH. intros y' Hy'. apply Hk. eapply extends_trans; [|exact Hy'].
    destruct Hy as (w & ? & ?). by exists w. }
  rewrite Hiter, (Hk x (extends_refl x)). done.
Qed.

Lemma m_cont ic r : forall x (k1 k2 : cont),
  (forall y, extends x y -> k1 y = k2 y) -> m ic r x k1 = m ic r x k2.
Proof.
  induction r as [|c|c| | | |r1 IH1 r2 IH2|r1 IH1 r2 IH2|n r IH|mn g r IH];
    intros x k1 k2 Hk; cbn [m]; try by apply char_set_matcher_cont.
  - apply Hk, extends_refl.
  - by rewrite (Hk x (extends_refl x)).
  - apply IH1. intros y Hy. apply IH2. intros y' Hy'. apply Hk.
    by eapply extends_trans.
  - by rewrite (IH1 x k1 k2 Hk), (IH2 x k1 k2 Hk).
  - apply IH. intros y Hy. apply Hk. destruct Hy as (w & ? & ?). by exists w.
  - apply repeat_matcher_cont; [apply IH|done].
Qed.

(** With more fuel than [m] gives it, the repeat matcher returns the
    same: the fuel of [m] never runs out. *)
Lemma repeat_matcher_fuel ic r gs greedy (k : cont) : forall f1 f2 min x,
  min + length (rest x) < f1 -> min + length (rest x) < f2 ->
  repeat_matcher (m ic r) gs greedy f1 min x k
  = repeat_matcher (m ic r) gs greedy f2 min x k.
Proof.
  induction f1 as [|f1 IH]; intros f2 min x H1 H2; [lia|].
  destruct f2 as [|f2]; [lia|]. rewrite !repeat_matcher_S. cbv zeta.
  set (xr := {| pos := pos x; rest := rest x; caps := clear_caps gs (caps x) |}).
  assert (Hiter :
    m ic r xr (fun y => if (min =? 0) && (pos y =? pos x) then None
                        else repeat_matcher (m ic r) gs greedy f1 (Nat.pred min) y k)
    = m ic r xr (fun y => if (min =? 0) && (pos y =? pos x) then None
                          else repeat_matcher (m ic r) gs greedy f2 (Nat.pred min) y k)).
  { apply m_cont. intros y (w & Hw & Hp). subst xr. cbn [rest pos] in Hw, Hp.
    destruct (Nat.eqb_spec min 0) as [->|Hmin]; cbn [andb].
    - destruct (Nat.eqb_spec (pos y) (pos x)) as [|Hne]; [done|].
      assert (length (rest x) = length w + length (rest y))
        by (by rewrite Hw, length_app).
      apply IH; simpl in *; lia.
    - assert (length (rest x) = length w + length (rest y))
        by (by rewrite Hw, length_app).
      apply IH; lia. }
  by rewrite Hiter.
Qed.

(** *** Patterns without [^] do not see the index *)

Lemma shift_clear_caps d gs c :
  clear_caps gs (shift_caps d c) = shift_caps d (clear_caps gs c).
Proof.
  unfold clear_caps, shift_caps. induction c as [|e c IH]; simpl; [done|].
  destruct (negb (existsb (Nat.eqb (fst e)) gs)); simpl; by rewrite IH.
Qed.

Lemma shift_set_cap d n a b c :
  set_cap n (a + d, b + d) (shift_caps d c) = shift_caps d (set_cap n (a, b) c).
Proof. unfold set_cap. by rewrite shift_clear_caps. Qed.

Lemma get_cap_shift d n c :
  get_cap n (shift_caps d c) =
  option_map (fun ab => (fst ab + d, snd ab + d)) (get_cap n c).
Proof.
  unfold get_cap, shift_caps. induction c as [|e c IH]; simpl; [done|].
  destruct (fst e =? n); simpl; [done|]. exact IH.
Qed.

Lemma char_set_matcher_shift d p x k k' :
  equivariant d k k' ->
  char_set_matcher p (shift d x) k' = option_map (shift d) (char_set_matcher p x k).
Proof.
  intros Hk. unfold char_set_matcher. simpl.
  destruct (rest x) as [|ch s']; [done|]. destruct (p ch); [|done].
  apply (Hk (advance x s')).
Qed.

Lemma repeat_matcher_shift d mb gs greedy k k' :
  (forall x k1 k1', equivariant d k1 k1' ->
                    mb (shift d x) k1' = option_map (shift d) (mb x k1)) ->
  equivariant d k k' ->
  forall fuel min x,
    repeat_matcher mb gs greedy fuel min (shift d x) k'
    = option_map (shift d) (repeat_matcher mb gs greedy fuel min x k).
Proof.
  intros Hmb Hk. induction fuel as [|fuel IH]; intros min x; simpl; [done|].
  set (xr := {| pos := pos x; rest := rest x; caps := clear_caps gs (caps x) |}).
  set (dk := fun y => if (min =? 0) && (pos y =? pos x) then None
                      else repeat_matcher mb gs greedy fuel (Nat.pred min) y k).
  set (dk' := fun y => if (min =? 0) && (pos y =? pos x + d) then None
                       else repeat_matcher mb gs greedy fuel (Nat.pred min) y k').
  assert (Hd : equivariant d dk dk').
  { intros y. unfold dk, dk'. simpl.
    replace (pos y + d =? pos x + d) with (pos y =? pos x).
    - destruct ((min =? 0) && (pos y =? pos x)); [done|]. apply IH.
    - destruct (Nat.eqb_spec (pos y) (pos x)), (Nat.eqb_spec (pos y + d) (pos x + d));
        try done; lia. }
  assert (Hiter : mb {| pos := pos x + d; rest := rest x;
                        caps := clear_caps gs (shift_caps d (caps x)) |} dk'
                  = option_map (shift d) (mb xr dk)).
  { rewrite shift_clear_caps. apply (Hmb xr _ _ Hd). }
  rewrite Hiter. destruct (negb (min =? 0)); [done|].
  destruct greedy.
  - destruct (mb xr dk); simpl; [done|]. apply Hk.
  - rewrite (Hk x). destruct (k x); simpl; [done|]. done.
Qed.

Lemma m_shift ic d r :
  bol_free r = true ->
  forall x k k', equivariant d k k' ->
                 m ic r (shift d x) k' = option_map (shift d) (m ic r x k).
Proof.
  induction r as [|c|c| | | |r1 IH1 r2 IH2|r1 IH1 r2 IH2|n r IH|mn g r IH];
    intros Hb x k k' Hk; cbn [m]; simpl in Hb.
  - apply Hk.
  - by apply char_set_matcher_shift.
  - by apply char_set_matcher_shift.
  - by apply char_set_matcher_shift.
  - by apply char_set_matcher_shift.
  - done.
  - apply andb_true_iff in Hb as [Hb1 Hb2].
    apply IH1; [done|]. intros y. by apply IH2.
  - apply andb_true_iff in Hb as [Hb1 Hb2].
    rewrite (IH1 Hb1 x k k' Hk), (IH2 Hb2 x k k' Hk).
    by destruct (m ic r1 x k).
  - apply IH; [done|]. intros y. simpl.
    rewrite shift_set_cap. apply (Hk {| pos := pos y; rest := rest y;
                                        caps := set_cap n (pos x, pos y) (caps y) |}).
  - change (rest (shift d x)) with (rest x).
    apply repeat_matcher_shift; [|done]. intros; by apply IH.
Qed.

Lemma match_at_shift r p s :
  bol_free (re r) = true ->
  match_at r p s =
  option_map (fun lc => (fst lc, shift_caps p (snd lc))) (match_at r 0 s).
Proof.
  intros Hb. unfold match_at.
  pose proof (m_shift (ignoreCase r) p (re r) Hb
                {| pos := 0; rest := s; caps := [] |} Some Some) as H.
  unfold shift in H at 1. simpl in H. rewrite H by done.
  destruct (m _ _ {| pos := 0 |} _) as [z|] eqn:E; simpl; [|done].
  f_equal. f_equal. lia.
Qed.

Lemma cap_text_shift {A} d p (s : list A) c n :
  cap_text (p + d) s (shift_caps d c) n = cap_text p s c n.
Proof.
  unfold cap_text. rewrite get_cap_shift.
  destruct (get_cap n c) as [[a b]|]; simpl; [|done].
  f_equal; [lia|]. f_equal. lia.
Qed.

Lemma get_substitution_ext matched cap cap' ng tmpl :
  (forall n, cap n = cap' n) ->
  get_substitution matched cap ng tmpl = get_substitution matched cap' ng tmpl.
Proof.
  intros Hc.
  assert (H : forall n tmpl, length tmpl <= n ->
    get_substitution matched cap ng tmpl = get_substitution matched cap' ng tmpl).
  { clear tmpl. induction n as [|n IH]; intros [|c0 t1] Hn; simpl in Hn; try done; [lia|].
    cbn [get_substitution].
    rewrite (IH t1) by lia.
    destruct (N.eqb c0 36); [|done].
    destruct t1 as [|d t2]; [done|]. simpl in Hn.
    rewrite (IH t2) by lia.
    destruct (N.eqb d 36); [done|]. destruct (N.eqb d 38); [done|].
    destruct (digit_of d) as [k|]; [|done].
    by rewrite Hc. }
  by apply (H (length tmpl)).
Qed.

Section ReplaceFacts.

Variable r : Regex.t.
Variable tmpl : jsstring.
Hypothesis Hbol : bol_free (re r) = true.

Lemma replace_go_pos s : forall p q skip,
  replace_go r tmpl p skip s = replace_go r tmpl q skip s.
Proof.
  induction s as [|ch s IH]; intros p q skip.
  - destruct skip; [|done]. cbn [replace_go].
    rewrite (match_at_shift r p), (match_at_shift r q) by done.
    destruct (match_at r 0 []) as [[len c]|]; simpl; [|done].
    f_equal. apply get_substitution_ext. intros n.
    by rewrite (cap_text_shift p 0), (cap_text_shift q 0).
  - destruct skip as [|skip]; cbn [replace_go]; [|apply IH].
    rewrite (match_at_shift r p), (match_at_shift r q) by done.
    destruct (match_at r 0 (ch :: s)) as [[len c]|]; simpl.
    + f_equal.
      * apply get_substitution_ext. intros n.
        by rewrite (cap_text_shift p 0), (cap_text_shift q 0).
      * destruct len; [f_equal|]; apply IH.
    + f_equal. apply IH.
Qed.

Lemma split_go_pos s : forall p q skip cur,
  split_go r p skip cur s = split_go r q skip cur s.
Proof.
  induction s as [|ch s IH]; intros p q skip cur; [done|].
  destruct skip as [|skip]; cbn [split_go]; [|apply IH].
  rewrite (match_at_shift r p), (match_at_shift r q) by done.
  assert (Hcv : forall c, cap_values (length (groups (re r))) p (ch :: s) (shift_caps p c)
                          = cap_values (length (groups (re r))) q (ch :: s) (shift_caps q c)).
  { intros c. unfold cap_values. apply map_ext. intros n.
    by rewrite (cap_text_shift p 0), (cap_text_shift q 0). }
  destruct (match_at r 0 (ch :: s)) as [[[|len] c]|]; simpl; try apply IH.
  - destruct cur; [apply IH|]. f_equal. rewrite Hcv. f_equal. apply IH.
  - f_equal. rewrite Hcv. f_equal. apply IH.
Qed.

End ReplaceFacts.

Lemma replace_go_skip r tmpl n : forall s p,
  n <= length s ->
  replace_go r tmpl p n s = replace_go r tmpl (p + n) 0 (skipn n s).
Proof.
  induction n as [|n IH]; intros s p Hn.
  - simpl. by rewrite Nat.add_0_r.
  - destruct s as [|ch s]; simpl in Hn; [lia|].
    cbn [replace_go skipn]. rewrite IH by lia. f_equal. lia.
Qed.

Lemma replace_go_nomatch r tmpl p ch s :
  match_at r p (ch :: s) = None ->
  replace_go r tmpl p 0 (ch :: s) = ch :: replace_go r tmpl (S p) 0 s.
Proof. intros H. cbn [replace_go]. by rewrite H. Qed.

Lemma replace_go_match r tmpl p s n c :
  match_at r p s = Some (S n, c) ->
  replace_go r tmpl p 0 s
  = get_substitution (firstn (S n) s) (cap_text p s c) (length (groups (re r))) tmpl
    ++ replace_go r tmpl (p + S n) 0 (skipn (S n) s).
Proof.
  intros H. pose proof (match_at_length _ _ _ _ _ H) as Hlen.
  destruct s as [|ch s]; simpl in Hlen; [lia|].
  cbn [replace_go]. rewrite H. f_equal.
  rewrite replace_go_skip by lia. cbn [skipn]. f_equal. lia.
Qed.

Lemma m_head ic r c x k z :
  head_char r = Some c -> m ic r x k = Some z ->
  exists ch s', rest x = ch :: s' /\ char_matches ic c ch = true.
Proof.
  destruct r as [|c'|c'| | | |r1 r2|r1 r2|n r|mn g r]; try done.
  - intros [= ->] H. apply char_set_matcher_sound in H as (ch & s' & E & Hp & _).
    by exists ch, s'.
  - destruct r1; try done. intros [= ->] H. cbn [m] in H.
    apply char_set_matcher_sound in H as (ch & s' & E & Hp & _).
    by exists ch, s'.
Qed.

Lemma match_at_head r c p s :
  head_char (re r) = Some c ->
  match_at r p s <> None ->
  exists ch s', s = ch :: s' /\ char_matches (ignoreCase r) c ch = true.
Proof.
  intros Hh. unfold match_at.
  destruct (m _ _ _ _) as [z|] eqn:E; [|done]. intros _.
  by apply (m_head _ _ _ _ _ _ Hh) in E.
Qed.

(** *** A greedy star over a character class *)

Lemma take_drop_while p s : take_while p s ++ drop_while p s = s.
Proof. induction s as [|ch s IH]; simpl; [done|]. destruct (p ch); simpl; by rewrite ?IH. Qed.

Lemma take_while_Forall p s : Forall (fun ch => p ch = true) (take_while p s).
Proof.
  induction s as [|ch s IH]; simpl; [constructor|].
  destruct (p ch) eqn:E; by constructor.
Qed.

Lemma take_while_app p ws s :
  Forall (fun ch => p ch = true) ws ->
  take_while p (ws ++ s) = ws ++ take_while p s.
Proof. induction 1 as [|ch ws H _ IH]; simpl; [done|]. by rewrite H, IH. Qed.

Lemma drop_while_app p ws s :
  Forall (fun ch => p ch = true) ws ->
  drop_while p (ws ++ s) = drop_while p s.
Proof. induction 1 as [|ch ws H _ IH]; simpl; [done|]. by rewrite H, IH. Qed.

(** One iteration of a repeated character class. *)
Lemma repeat_class_iter p greedy fuel min x k :
  char_set_matcher p
    {| pos := pos x; rest := rest x; caps := clear_caps [] (caps x) |}
    (fun y => if (min =? 0) && (pos y =? pos x) then None
              else repeat_matcher (char_set_matcher p) [] greedy fuel (Nat.pred min) y k)
  = match rest x with
    | ch :: s' =>
        if p ch
        then repeat_matcher (char_set_matcher p) [] greedy fuel (Nat.pred min)
               (advance x s') k
        else None
    | [] => None
    end.
Proof.
  unfold char_set_matcher at 1. cbn [rest]. rewrite clear_caps_nil.
  destruct (rest x) as [|ch s']; [done|]. destruct (p ch); [|done].
  unfold advance at 1. cbn [pos caps].
  replace (S (pos x) =? pos x) with false by (symmetry; apply Nat.eqb_neq; lia).
  by rewrite andb_false_r.
Qed.

(** When the continuation fails wherever the class still matches, the
    star takes the longest run and there is no other choice. *)
Lemma star_class_commit p k :
  (forall y ch s', rest y = ch :: s' -> p ch = true -> k y = None) ->
  forall s x fuel, rest x = s -> length s < fuel ->
    repeat_matcher (char_set_matcher p) [] true fuel 0 x k
    = k {| pos := pos x + length (take_while p s); rest := drop_while p s;
           caps := caps x |}.
Proof.
  intros Hk. induction s as [|ch s IH]; intros x fuel Hs Hf;
    (destruct fuel as [|fuel]; [simpl in Hf; lia|]);
    rewrite repeat_matcher_S; cbv zeta; rewrite repeat_class_iter, Hs;
    cbn [Nat.eqb negb Nat.pred].
  - cbn [take_while drop_while length]. rewrite Nat.add_0_r. by rewrite <- Hs.
  - cbn [take_while drop_while]. destruct (p ch) eqn:Hp.
    + rewrite (IH (advance x s) fuel) by (simpl in *; done || lia).
      cbn [advance pos caps length].
      replace (S (pos x) + length (take_while p s))
        with (pos x + S (length (take_while p s))) by lia.
      destruct (k _) eqn:E; [done|]. by apply (Hk x ch s).
    + cbn [length]. rewrite Nat.add_0_r. by rewrite <- Hs.
Qed.

(** A required first iteration of a repeated character class. *)
Lemma plus_class_first p greedy fuel x k :
  repeat_matcher (char_set_matcher p) [] greedy (S fuel) 1 x k
  = match rest x with
    | ch :: s' =>
        if p ch
        then repeat_matcher (char_set_matcher p) [] greedy fuel 0 (advance x s') k
        else None
    | [] => None
    end.
Proof.
  rewrite repeat_matcher_S; cbv zeta. by rewrite repeat_class_iter.
Qed.

(** ** The bullet pattern *)

Lemma is_bullet_decompose pl :
  is_bullet pl = true ->
  pl = bullet_spaces pl ++ STAR :: bullet_content pl.
Proof.
  unfold is_bullet, bullet_spaces, bullet_content. intros H.
  rewrite <- (take_drop_while is_space pl) at 1. f_equal.
  destruct (drop_while is_space pl) as [|ch s]; [done|].
  apply N.eqb_eq in H as ->. done.
Qed.

Lemma bullet_forms (ws rest : jsstring) :
  Forall (fun ch => is_space ch = true) ws ->
  is_bullet (ws ++ STAR :: rest) = true /\
  bullet_spaces (ws ++ STAR :: rest) = ws /\
  bullet_content (ws ++ STAR :: rest) = rest.
Proof.
  intros Hws. unfold is_bullet, bullet_spaces, bullet_content.
  rewrite drop_while_app, take_while_app by done. simpl.
  by rewrite app_nil_r.
Qed.

Lemma star_continuation_fails (k : cont) (f : state -> state) :
  (forall y, rest (f y) = rest y) ->
  forall y ch s', rest y = ch :: s' -> is_space ch = true ->
    char_set_matcher (char_matches false STAR) (f y) k = None.
Proof.
  intros Hf y ch s' Hy Hsp. unfold char_set_matcher. rewrite Hf, Hy.
  destruct (char_matches false STAR ch) eqn:E; [|done].
  unfold char_matches, canonicalize in E. apply N.eqb_eq in E. subst ch.
  done.
Qed.

Lemma match_at_bullet_re pl :
  match_at bullet_re 0 pl =
  if is_bullet pl then Some (S (length (bullet_spaces pl)), []) else None.
Proof.
  unfold match_at, bullet_re, Star. cbn [re ignoreCase m pos Nat.eqb Nat.add].
  rewrite (star_class_commit is_space _
             (star_continuation_fails Some (fun y => y) (fun _ => eq_refl)) pl)
    by (cbn [rest]; done || lia).
  unfold is_bullet, bullet_spaces, char_set_matcher. cbn [rest pos caps Nat.add].
  destruct (drop_while is_space pl) as [|ch s]; [done|].
  unfold char_matches, canonicalize.
  destruct (N.eqb ch STAR); [|done]. cbn [advance pos caps]. by rewrite Nat.sub_0_r.
Qed.

Lemma match_at_bullet_spaces_re pl :
  match_at bullet_spaces_re 0 pl =
  if is_bullet pl
  then Some (S (length (bullet_spaces pl)), [(1, (0, length (bullet_spaces pl)))])
  else None.
Proof.
  unfold match_at, bullet_spaces_re, Star. cbn [re ignoreCase m pos Nat.eqb Nat.add].
  rewrite (star_class_commit is_space _
             (star_continuation_fails Some
                (fun y => {| pos := pos y; rest := rest y;
                             caps := set_cap 1 (0, pos y) (caps y) |})
                (fun _ => eq_refl)) pl)
    by (cbn [rest]; done || lia).
  unfold is_bullet, bullet_spaces, char_set_matcher. cbn [rest pos caps Nat.add].
  destruct (drop_while is_space pl) as [|ch s]; [done|].
  unfold char_matches, canonicalize.
  destruct (N.eqb ch STAR); [|done]. cbn [advance pos caps]. by rewrite Nat.sub_0_r.
Qed.

Lemma exec_from_bol_later r r' p s :
  re r = Seq Bol r' -> exec_from r (S p) s = None.
Proof.
  intros Hr. revert p. induction s as [|ch s IH]; intros p; cbn [exec_from];
    unfold match_at; rewrite Hr; cbn [m pos Nat.eqb]; [done|apply IH].
Qed.

Lemma match_bullet_re pl :
  match_ pl bullet_re =
  if is_bullet pl then Some (0, (S (length (bullet_spaces pl)), [])) else None.
Proof.
  unfold match_. destruct pl as [|ch s]; cbn [exec_from];
    rewrite match_at_bullet_re; destruct (is_bullet _); try done.
  by apply exec_from_bol_later with (r' := Seq (Star Space) (Char (chr "*"))).
Qed.

Lemma match_bullet_spaces_re pl :
  match_ pl bullet_spaces_re =
  if is_bullet pl
  then Some (0, (S (length (bullet_spaces pl)), [(1, (0, length (bullet_spaces pl)))]))
  else None.
Proof.
  unfold match_. destruct pl as [|ch s]; cbn [exec_from];
    rewrite match_at_bullet_spaces_re; destruct (is_bullet _); try done.
  by apply exec_from_bol_later with (r' := Seq (Group 1 (Star Space)) (Char (chr "*"))).
Qed.

Lemma startsWith_app a b : startsWith a (a ++ b) = true.
Proof.
  induction a as [|x a IH]; simpl; [done|].
  unfold char_eqb. by rewrite N.eqb_refl.
Qed.

Lemma replace_str_prefix a b : replace_str a [] (a ++ b) = b.
Proof.
  assert (H : forall s, replace_str a [] s =
    if startsWith a s then [] ++ skipn (length a) s
    else match s with [] => [] | c :: s' => c :: replace_str a [] s' end)
    by (by intros [|c s]).
  rewrite H, startsWith_app. simpl.
  by rewrite skipn_app, skipn_all, Nat.sub_diag.
Qed.

(** What [processLine] does with a line: a bullet is buffered, any
    other line flushes the buffer and is emitted. *)
Lemma processLine_bullet isText line st (ws rest : jsstring) :
  Forall (fun ch => is_space ch = true) ws ->
  convertLineToMarkdown line = ws ++ STAR :: rest ->
  processLine isText (Some line) st =
  Some {| outputLines := outputLines st;
          liLines := liLines st ++ [rest];
          liSpaces := if length (liSpaces st) =? 0 then ws else liSpaces st |}.
Proof.
  intros Hws Hpl. unfold processLine. cbn [option_map]. cbv zeta.
  rewrite Hpl, match_bullet_re, match_bullet_spaces_re.
  destruct (bullet_forms ws rest Hws) as (-> & -> & _).
  assert (Hsp : cap_text 0 (ws ++ STAR :: rest) [(1, (0, length ws))] 1 = ws).
  { unfold cap_text. cbn. rewrite Nat.sub_0_r. apply take_app_length. }
  rewrite Hsp. do 3 f_equal.
  change (js "*") with [STAR].
  rewrite <- (replace_str_prefix (ws ++ [STAR]) rest) at 2.
  by rewrite <- app_assoc.
Qed.

Lemma processLine_plain isText line st :
  is_bullet (convertLineToMarkdown line) = false ->
  processLine isText (Some line) st =
  Some (emit isText (Some (convertLineToMarkdown line))
          (if 0 <? length (liLines st) then flush st else st)).
Proof.
  intros Hb. unfold processLine. cbn [option_map]. cbv zeta.
  by rewrite match_bullet_re, Hb.
Qed.

Lemma processLine_line isText line st :
  processLine isText (Some line) st =
  let pl := convertLineToMarkdown line in
  if is_bullet pl then
    Some {| outputLines := outputLines st;
            liLines := liLines st ++ [bullet_content pl];
            liSpaces := if length (liSpaces st) =? 0 then bullet_spaces pl
                        else liSpaces st |}
  else
    Some (emit isText (Some pl) (if 0 <? length (liLines st) then flush st else st)).
Proof.
  cbv zeta. destruct (is_bullet (convertLineToMarkdown line)) eqn:Hb.
  - apply processLine_bullet; [apply take_while_Forall|by apply is_bullet_decompose].
  - by apply processLine_plain.
Qed.

Lemma processLine_null isText st :
  processLine isText None st =
  Some (if 0 <? length (liLines st) then flush st else st).
Proof. reflexivity. Qed.

(** ** Facts about one substitution pass *)

Lemma char_matches_nonletter c ch :
  (c < 65 \/ 90 < c < 97 \/ 122 < c)%N ->
  char_matches true c ch = true -> ch = c.
Proof.
  unfold char_matches, canonicalize, ascii_upper. intros Hc H.
  apply N.eqb_eq in H.
  destruct ((97 <=? ch) && (ch <=? 122))%N eqn:E1;
    destruct ((97 <=? c) && (c <=? 122))%N eqn:E2;
    rewrite ?andb_true_iff, ?andb_false_iff, ?N.leb_le, ?N.leb_gt in *; lia.
Qed.

Lemma char_matches_nonletter_false c ch :
  (c < 65 \/ 90 < c < 97 \/ 122 < c)%N ->
  ch <> c -> char_matches true c ch = false.
Proof.
  intros Hc Hne. destruct (char_matches true c ch) eqn:E; [|done].
  by apply char_matches_nonletter in E.
Qed.

Lemma cap_text_Forall {A} (P : A -> Prop) p (s : list A) c n :
  Forall P s -> Forall P (cap_text p s c n).
Proof.
  intros Hs. unfold cap_text. destruct (get_cap n c) as [[a b]|]; [|constructor].
  apply Forall_take, Forall_drop, Hs.
Qed.

Lemma get_substitution_Forall (P : char -> Prop) matched cap ng tmpl :
  Forall P matched -> (forall n, Forall P (cap n)) -> Forall P tmpl ->
  Forall P (get_substitution matched cap ng tmpl).
Proof.
  intros Hm Hc.
  assert (H : forall n tmpl, length tmpl <= n -> Forall P tmpl ->
                             Forall P (get_substitution matched cap ng tmpl)).
  { clear tmpl. induction n as [|n IH]; intros [|c0 t1] Hn Ht; simpl in Hn;
      try (constructor; fail); [lia|].
    apply Forall_cons in Ht as [H0 H1]. cbn [get_substitution].
    destruct (N.eqb c0 36) eqn:E0.
    - apply N.eqb_eq in E0 as ->.
      destruct t1 as [|d t2]; [by repeat constructor|].
      apply Forall_cons in H1 as [Hd H2]. simpl in Hn.
      assert (Forall P (get_substitution matched cap ng t2)) by (apply IH; [lia|done]).
      destruct (N.eqb d 36); [by constructor|].
      destruct (N.eqb d 38); [by apply Forall_app|].
      destruct (digit_of d).
      + destruct (_ <=? _); [by apply Forall_app|by repeat constructor].
      + constructor; [done|]. apply IH; [simpl; lia|by constructor].
    - constructor; [done|]. apply IH; [lia|done]. }
  by apply (H (length tmpl)).
Qed.

Lemma replace_go_Forall (P : char -> Prop) r tmpl :
  Forall P tmpl ->
  forall s p skip, Forall P s -> Forall P (replace_go r tmpl p skip s).
Proof.
  intros Ht. induction s as [|ch s IH]; intros p skip Hs.
  - destruct skip; cbn [replace_go]; [|constructor].
    destruct (match_at r p []) as [[len c]|]; [|constructor].
    rewrite app_nil_r. apply get_substitution_Forall; try done.
    + apply Forall_take, Hs.
    + intros n. by apply cap_text_Forall.
  - pose proof Hs as Hs'. apply Forall_cons in Hs' as [Hch Hs'].
    destruct skip; cbn [replace_go]; [|by apply IH].
    destruct (match_at r p (ch :: s)) as [[len c]|].
    + apply Forall_app. split.
      * apply get_substitution_Forall; try done.
        -- apply Forall_take, Hs.
        -- intros n. by apply cap_text_Forall.
      * destruct len; [constructor; [done|]|]; by apply IH.
    + constructor; [done|]. by apply IH.
Qed.

Lemma replaceAll_Forall (P : char -> Prop) s r tmpl :
  Forall P tmpl -> Forall P s -> Forall P (replaceAll s r tmpl).
Proof. intros. by apply replace_go_Forall. Qed.

Section HeadedRule.

(** A rule whose pattern begins with the pattern character [c]. *)
Variable r : Regex.t.
Variable tmpl : jsstring.
Variable c : char.
Hypothesis Hhead : head_char (re r) = Some c.
Hypothesis Hbol : bol_free (re r) = true.

Lemma match_at_head_mismatch p ch s :
  char_matches (ignoreCase r) c ch = false -> match_at r p (ch :: s) = None.
Proof.
  intros Hne. destruct (match_at r p (ch :: s)) eqn:E; [|done].
  destruct (match_at_head r c p (ch :: s) Hhead) as (ch' & s' & [= <- <-] & Hm);
    [by rewrite E|congruence].
Qed.

Lemma match_at_head_nil p : match_at r p [] = None.
Proof.
  destruct (match_at r p []) eqn:E; [|done].
  destruct (match_at_head r c p [] Hhead) as (ch' & s' & ? & _); [by rewrite E|done].
Qed.

(** The pass copies a prefix in which no character can begin a match. *)
Lemma replaceAll_prefix pre s :
  Forall (fun ch => char_matches (ignoreCase r) c ch = false) pre ->
  replaceAll (pre ++ s) r tmpl = pre ++ replaceAll s r tmpl.
Proof.
  unfold replaceAll. induction 1 as [|ch pre Hch _ IH]; [done|].
  rewrite <- app_comm_cons, replace_go_nomatch by (by apply match_at_head_mismatch).
  rewrite (replace_go_pos r tmpl Hbol _ 1 0), IH. done.
Qed.

(** Without a character that can begin a match, the pass is the identity. *)
Lemma replaceAll_id s :
  Forall (fun ch => char_matches (ignoreCase r) c ch = false) s ->
  replaceAll s r tmpl = s.
Proof.
  intros Hs. rewrite <- (app_nil_r s) at 1. rewrite replaceAll_prefix by done.
  unfold replaceAll. cbn [replace_go]. by rewrite match_at_head_nil, app_nil_r.
Qed.

(** A line that is not a bullet does not become one. *)
Lemma replaceAll_not_bullet (t0 : char) (tmpl' : jsstring) s :
  tmpl = t0 :: tmpl' -> t0 <> 36%N -> is_space t0 = false -> t0 <> STAR ->
  (forall ch, is_space ch = true -> char_matches (ignoreCase r) c ch = false) ->
  is_bullet s = false -> is_bullet (replaceAll s r tmpl) = false.
Proof.
  intros Ht H36 Hsp Hst Hc Hs.
  rewrite <- (take_drop_while is_space s).
  rewrite replaceAll_prefix
    by (eapply Forall_impl; [apply take_while_Forall|]; intros ch; apply Hc).
  unfold is_bullet in *. rewrite drop_while_app by apply take_while_Forall.
  assert (Hd : match drop_while is_space s with
               | ch :: _ => is_space ch = false
               | [] => True
               end).
  { clear. induction s as [|ch s IH]; simpl; [done|].
    destruct (is_space ch) eqn:E; [done|]. done. }
  destruct (drop_while is_space s) as [|ch t] eqn:E.
  - unfold replaceAll. cbn [replace_go]. by rewrite match_at_head_nil.
  - unfold replaceAll. cbn [replace_go].
    destruct (match_at r 0 (ch :: t)) as [[len cs]|].
    + rewrite Ht. cbn [get_substitution].
      replace (N.eqb t0 36) with false by (symmetry; by apply N.eqb_neq).
      simpl. rewrite Hsp. by apply N.eqb_neq.
    + simpl. by rewrite Hd.
Qed.

End HeadedRule.

(** ** The seven rules of the inline transformer *)

Lemma spaces_star_free ws :
  Forall (fun ch => is_space ch = true) ws -> star_free ws.
Proof. intros H. eapply Forall_impl; [exact H|]. by intros ch Hs ->. Qed.

Ltac headed_side :=
  match goal with
  | |- head_char _ = Some _ => reflexivity
  | |- bol_free _ = true => reflexivity
  | |- _ = _ :: _ => reflexivity
  | |- is_space _ = false => reflexivity
  | |- _ <> _ => discriminate
  | |- forall ch, is_space ch = true -> char_matches _ _ ch = false =>
      let ch := fresh "ch" in let H := fresh "H" in
      intros ch H; apply char_matches_nonletter_false;
      [vm_compute; intuition congruence | intros ->; discriminate H]
  end.

Lemma convertLineToMarkdown_not_bullet line :
  is_bullet line = false -> is_bullet (convertLineToMarkdown line) = false.
Proof.
  intros H. unfold convertLineToMarkdown. cbv zeta.
  eapply (replaceAll_not_bullet checked_re); try headed_side.
  eapply (replaceAll_not_bullet unchecked_re); try headed_side.
  eapply (replaceAll_not_bullet link_re); try headed_side.
  eapply (replaceAll_not_bullet strike_re); try headed_side.
  eapply (replaceAll_not_bullet italic_re); try headed_side.
  eapply (replaceAll_not_bullet bold_re); try headed_side.
  eapply (replaceAll_not_bullet underline_re); try headed_side.
  exact H.
Qed.

Lemma star_free_no_star_match (s : jsstring) :
  star_free s -> Forall (fun ch => char_matches true STAR ch = false) s.
Proof.
  intros H. eapply Forall_impl; [exact H|].
  intros ch Hne. apply char_matches_nonletter_false; [|done].
  vm_compute. intuition congruence.
Qed.

Lemma char_matches_star ch : char_matches true STAR ch = true -> ch = STAR.
Proof. apply char_matches_nonletter. vm_compute. intuition congruence. Qed.

(** With no second star in the line the italic pattern does not match
    at the marker. *)
Lemma italic_marker_alone p (rest : jsstring) :
  star_free rest -> match_at italic_re p (STAR :: rest) = None.
Proof.
  intros Hsf. unfold match_at.
  destruct (m _ _ _ _) as [z|] eqn:E; [|done]. exfalso.
  unfold italic_re in E. cbn [re ignoreCase m] in E.
  apply char_set_matcher_sound in E as (ch & s' & [= <- <-] & _ & E).
  apply m_sound in E as (y & (w & Hw & _) & E).
  apply char_set_matcher_sound in E as (ch2 & s2 & Hy & Hm & _).
  apply char_matches_star in Hm as ->. cbn [advance Regex.rest] in Hw, Hy.
  rewrite Hw, Hy in Hsf. apply Forall_app in Hsf as [_ Hsf].
  by apply Forall_cons in Hsf as [? _].
Qed.

Lemma bold_marker_alone p (rest : jsstring) :
  star_free rest -> match_at bold_re p (STAR :: rest) = None.
Proof.
  intros Hsf. unfold match_at.
  destruct (m _ _ _ _) as [z|] eqn:E; [|done]. exfalso.
  unfold bold_re in E. cbn [re ignoreCase m] in E.
  apply char_set_matcher_sound in E as (ch & s' & [= <- <-] & _ & E).
  apply char_set_matcher_sound in E as (ch2 & s2 & Hy & Hm & _).
  apply char_matches_star in Hm as ->. cbn [advance Regex.rest] in Hy.
  rewrite Hy in Hsf. by apply Forall_cons in Hsf as [? _].
Qed.

(** A rule whose pattern begins with another character than the star
    passes over the marker. *)
Lemma headed_rule_keeps_marker r tmpl c (ws rest : jsstring) :
  head_char (re r) = Some c -> bol_free (re r) = true ->
  (forall ch, is_space ch = true -> char_matches (ignoreCase r) c ch = false) ->
  char_matches (ignoreCase r) c STAR = false ->
  Forall (fun ch => is_space ch = true) ws ->
  replaceAll (ws ++ STAR :: rest) r tmpl = ws ++ STAR :: replaceAll rest r tmpl.
Proof.
  intros Hh Hb Hsp Hst Hws.
  change (ws ++ STAR :: rest) with (ws ++ [STAR] ++ rest).
  rewrite app_assoc, (replaceAll_prefix r tmpl c Hh Hb), <- app_assoc; [done|].
  apply Forall_app. split; [|by repeat constructor].
  eapply Forall_impl; [exact Hws|]. apply Hsp.
Qed.

(** The bold and the italic rule leave a line alone whose only star is
    the marker. *)
Lemma star_rule_keeps_marker r tmpl (ws rest : jsstring) :
  head_char (re r) = Some STAR -> bol_free (re r) = true -> ignoreCase r = true ->
  (forall p, match_at r p (STAR :: rest) = None) ->
  Forall (fun ch => is_space ch = true) ws -> star_free rest ->
  replaceAll (ws ++ STAR :: rest) r tmpl = ws ++ STAR :: rest /\
  replaceAll rest r tmpl = rest.
Proof.
  intros Hh Hb Hic Hm Hws Hsf.
  assert (Hid : replaceAll rest r tmpl = rest).
  { apply (replaceAll_id r tmpl STAR Hh Hb). rewrite Hic.
    by apply star_free_no_star_match. }
  split; [|done].
  rewrite (replaceAll_prefix r tmpl STAR Hh Hb)
    by (rewrite Hic; by apply star_free_no_star_match, spaces_star_free).
  f_equal. unfold replaceAll. rewrite replace_go_nomatch by apply Hm.
  f_equal. rewrite (replace_go_pos r tmpl Hb _ 1 0). exact Hid.
Qed.

Lemma star_free_tmpl_replaceAll s r tmpl :
  star_free tmpl -> star_free s -> star_free (replaceAll s r tmpl).
Proof. apply replaceAll_Forall. Qed.

Ltac star_free_tmpl := unfold star_free; repeat constructor; discriminate.

(** On a line made of white space, the marker and a remainder without
    a star, the inline transformer works on the remainder only. *)
Lemma convertLineToMarkdown_marker (ws rest : jsstring) :
  Forall (fun ch => is_space ch = true) ws -> star_free rest ->
  convertLineToMarkdown (ws ++ STAR :: rest) = ws ++ STAR :: convertLineToMarkdown rest.
Proof.
  intros Hws Hsf. unfold convertLineToMarkdown. cbv zeta.
  rewrite (headed_rule_keeps_marker underline_re _ (chr "_")); try done; try headed_side.
  set (t1 := replaceAll rest underline_re underline_tmpl).
  assert (H1 : star_free t1) by (apply star_free_tmpl_replaceAll; [star_free_tmpl|done]).
  destruct (star_rule_keeps_marker bold_re bold_tmpl ws t1) as [-> ->]; try done.
  { intros p. by apply bold_marker_alone. }
  destruct (star_rule_keeps_marker italic_re italic_tmpl ws t1) as [-> ->]; try done.
  { intros p. by apply italic_marker_alone. }
  rewrite (headed_rule_keeps_marker strike_re _ (chr "~")); try done; try headed_side.
  rewrite (headed_rule_keeps_marker link_re _ (chr "[")); try done; try headed_side.
  rewrite (headed_rule_keeps_marker unchecked_re _ (chr "[")); try done; try headed_side.
  rewrite (headed_rule_keeps_marker checked_re _ (chr "[")); try done; try headed_side.
Qed.

(** ** The classifier *)







(** ** The grouper *)

Lemma processLines_app isText l1 l2 st :
  processLines isText (l1 ++ l2) st =
  match processLines isText l1 st with
  | Some st' => processLines isText l2 st'
  | None => None
  end.
Proof.
  revert st. induction l1 as [|l l1 IH]; intros st; simpl; [done|].
  destruct (processLine isText (Some l) st); [apply IH|done].
Qed.

(** The loop never raises: the two bullet patterns agree. *)
Lemma processLines_total isText lines st :
  exists st', processLines isText lines st = Some st'.
Proof.
  revert st. induction lines as [|l lines IH]; intros st; simpl; [by eexists|].
  rewrite processLine_line. cbv zeta.
  destruct (is_bullet (convertLineToMarkdown l)); apply IH.
Qed.

(** A run of bullets is buffered whole, nothing is emitted. *)
Lemma processLines_bullets isText bs : forall st,
  Forall bullet_line bs ->
  processLines isText bs st =
  Some {| outputLines := outputLines st;
          liLines := liLines st ++
                     map (fun l => bullet_content (convertLineToMarkdown l)) bs;
          liSpaces := snapshot (liSpaces st) bs |}.
Proof.
  induction bs as [|l bs IH]; intros st Hbs.
  - simpl. rewrite app_nil_r. by destruct st.
  - apply Forall_cons in Hbs as [Hl Hbs]. cbn [processLines].
    rewrite processLine_line. cbv zeta. rewrite Hl, IH by done.
    cbn [outputLines liLines liSpaces map snapshot fold_left].
    by rewrite <- app_assoc.
Qed.

(** The final call flushes what is buffered. *)
Lemma processLine_null_flushes isText st :
  exists st', processLine isText None st = Some st' /\
              liLines st' = [] /\
              outputLines st' =
              outputLines st ++ map (list_entry (liSpaces st)) (liLines st).
Proof.
  rewrite processLine_null. eexists. split; [done|].
  destruct (liLines st) as [|li lis] eqn:E; simpl.
  - by rewrite E, app_nil_r.
  - by rewrite E.
Qed.

(** C5: the lines [* a], [* b], [c] of a field that is not a text
    field give two entries with the bullet glyph and then the entry
    [c]; and whatever run of bullet lines ends the input, the final call
    flushes it: the result is the join of what the lines before the run
    emitted and of one glyph entry for each buffered bullet. *)
Theorem bullet_run_is_flushed :
  (inputLines (js "* a" ++ LF ++ js "* b" ++ LF ++ js "c")
   = [js "* a"; js "* b"; js "c"] /\
   convertTextToMarkdown (js "* a" ++ LF ++ js "* b" ++ LF ++ js "c") false
   = Some (join (js "<br/>")
             [bullet_glyph ++ js "  a"; bullet_glyph ++ js "  b"; js "c"])) /\
  (forall text isText lines bs,
     inputLines text = lines ++ bs -> Forall bullet_line bs ->
     exists st1,
       processLines isText lines conv_init = Some st1 /\
       convertTextToMarkdown text isText =
       Some (join (if isText then [] else js "<br/>")
               (outputLines st1 ++
                map (list_entry (snapshot (liSpaces st1) bs))
                    (liLines st1 ++
                     map (fun l => bullet_content (convertLineToMarkdown l)) bs)))).
Proof.
  split; [split; vm_compute; reflexivity|].
  intros text isText lines bs Hin Hbs.
  destruct (processLines_total isText lines conv_init) as [st1 Hst1].
  exists st1. split; [done|].
  unfold convertTextToMarkdown.
  rewrite Hin, processLines_app, Hst1, processLines_bullets by done.
  rewrite processLine_null. cbn [liLines outputLines liSpaces].
  set (lis := liLines st1 ++ _).
  assert (Hout : outputLines
            (if 0 <? length lis
             then flush {| outputLines := outputLines st1; liLines := lis;
                           liSpaces := snapshot (liSpaces st1) bs |}
             else {| outputLines := outputLines st1; liLines := lis;
                     liSpaces := snapshot (liSpaces st1) bs |})
          = outputLines st1 ++ map (list_entry (snapshot (liSpaces st1) bs)) lis).
  { destruct lis; simpl; [by rewrite app_nil_r|done]. }
  rewrite Hout. by destruct isText.
Qed.

Lemma bullet_run_is_flushed_witness :
  exists st1,
    processLines false [js "x"] conv_init = Some st1 /\
    convertTextToMarkdown (js "x" ++ LF ++ js "* a" ++ LF ++ js " * b") false =
    Some (join (js "<br/>")
            (outputLines st1 ++
             map (list_entry (snapshot (liSpaces st1) [js "* a"; js " * b"]))
                 (liLines st1 ++
                  map (fun l => bullet_content (convertLineToMarkdown l))
                      [js "* a"; js " * b"]))).
Proof.
  apply (proj2 bullet_run_is_flushed
           (js "x" ++ LF ++ js "* a" ++ LF ++ js " * b") false
           [js "x"] [js "* a"; js " * b"]).
  - vm_compute. reflexivity.
  - repeat constructor.
Defined.

(** In a run of bullets whose first prefix is not empty, the snapshot
    is that prefix, whatever the later prefixes are. *)
Lemma snapshot_first_prefix b bs :
  bullet_spaces (convertLineToMarkdown b) <> [] ->
  snapshot [] (b :: bs) = bullet_spaces (convertLineToMarkdown b).
Proof.
  intros Hne. unfold snapshot. cbn [fold_left length Nat.eqb].
  set (sp := bullet_spaces (convertLineToMarkdown b)) in *.
  clearbody sp. induction bs as [|l bs IH]; [done|]. cbn [fold_left].
  by destruct sp.
Qed.

(** C9, evaluated where it fails: the first bullet of the run has no
    leading white space and the second has two spaces; both entries
    carry the two spaces of the second. *)
Lemma snapshot_retaken_after_empty_prefix :
  processLines false [js "* a"; js "  * b"] conv_init =
  Some {| outputLines := []; liLines := [js " a"; js " b"]; liSpaces := js "  " |} /\
  convertTextToMarkdown (js "* a" ++ LF ++ js "  * b") false =
  Some (join (js "<br/>")
          [js "  " ++ bullet_glyph ++ js "  a"; js "  " ++ bullet_glyph ++ js "  b"]).
Proof. split; vm_compute; reflexivity. Qed.

(** ** The inline transformer *)

(** C3: the inline transformer is one [replaceAll] pass for each of
    the seven rules, in the order underline, bold, italic,
    strikethrough, link, unchecked box, checked box; a pass replaces
    every match of the line; [**bold** and *italic*] becomes bold markup
    around [bold] and italic markup around [italic], which the other
    order of the two rules would not give. *)
Theorem inline_rules_once_in_order :
  (forall text, convertLineToMarkdown text = fold_left apply_rule inline_rules text) /\
  convertLineToMarkdown (js "**bold** and *italic*")
  = js "<b>bold</b> and <em>italic</em>" /\
  replaceAll (replaceAll (js "**bold**") italic_re italic_tmpl) bold_re bold_tmpl
  = js "*<em>bold</em>*" /\
  convertLineToMarkdown
    (js "_a_ _b_ **c** **d** *e* *f* ~g~ ~h~ [i](j) [k](l) [ ] [ ] [x] [X]")
  = js "<u>a</u> <u>b</u> <b>c</b> <b>d</b> <em>e</em> <em>f</em> <s>g</s> <s>h</s> "
    ++ js "<a href=" ++ dquote ++ js "j" ++ dquote ++ js ">i</a> "
    ++ js "<a href=" ++ dquote ++ js "l" ++ dquote ++ js ">k</a> "
    ++ unchecked_glyph ++ js " " ++ unchecked_glyph ++ js " "
    ++ checked_glyph ++ js " " ++ checked_glyph.
Proof.
  split; [reflexivity|]. repeat split; vm_compute; reflexivity.
Qed.

(** ** Provenance of the characters of a line *)

Lemma erase_cap_text p ts c n : erase (cap_text p ts c n) = cap_text p (erase ts) c n.
Proof.
  unfold cap_text, erase. destruct (get_cap n c) as [[a b]|]; [|done].
  by rewrite skipn_map, firstn_map.
Qed.

Lemma erase_app (a b : tagged) : erase (a ++ b) = erase a ++ erase b.
Proof. apply map_app. Qed.

Lemma erase_tag_substitution k matched cap ng tmpl :
  erase (tag_substitution k matched cap ng tmpl)
  = get_substitution (erase matched) (fun n => erase (cap n)) ng tmpl.
Proof.
  assert (H : forall n tmpl, length tmpl <= n ->
    erase (tag_substitution k matched cap ng tmpl)
    = get_substitution (erase matched) (fun n => erase (cap n)) ng tmpl).
  { clear tmpl. induction n as [|n IH]; intros [|c0 t1] Hn; simpl in Hn; try done; [lia|].
    pose proof (IH t1 ltac:(lia)) as I1.
    assert (I2 : forall d t2, t1 = d :: t2 ->
      erase (tag_substitution k matched cap ng t2)
      = get_substitution (erase matched) (fun n => erase (cap n)) ng t2).
    { intros d t2 ->. apply IH. simpl in Hn. lia. }
    remember (tag_substitution k matched cap ng t1) as X1 eqn:EX1.
    remember (get_substitution (erase matched) (fun n => erase (cap n)) ng t1)
      as Y1 eqn:EY1.
    cbn [tag_substitution get_substitution]. rewrite <- EX1, <- EY1.
    unfold erase in *.
    destruct (N.eqb c0 36); [|cbn; by rewrite I1].
    destruct t1 as [|d t2]; [done|]. specialize (I2 d t2 eq_refl).
    destruct (N.eqb d 36); [cbn; by rewrite I2|].
    destruct (N.eqb d 38); [by rewrite map_app, I2|].
    destruct (digit_of d).
    - destruct (_ <=? _); [by rewrite map_app, I2|cbn; by rewrite I2].
    - cbn. by rewrite I1. }
  by apply (H (length tmpl)).
Qed.

Lemma erase_sub k p (ts : tagged) len c ng tmpl :
  erase (tag_substitution k (firstn len ts) (cap_text p ts c) ng tmpl)
  = get_substitution (firstn len (erase ts)) (cap_text p (erase ts) c) ng tmpl.
Proof.
  rewrite erase_tag_substitution. unfold erase at 1. rewrite <- firstn_map.
  apply get_substitution_ext. intros n. apply erase_cap_text.
Qed.

(** Without the marks, a marked pass is the pass of the script. *)
Lemma erase_replace_go_tagged r tmpl k ts : forall p skip,
  erase (fst (replace_go_tagged r tmpl k p skip ts))
  = replace_go r tmpl p skip (erase ts).
Proof.
  induction ts as [|u ts IH]; intros p skip.
  - change (erase []) with (@nil N).
    destruct skip; cbn [replace_go_tagged replace_go]; [|done].
    change (erase []) with (@nil N).
    destruct (match_at r p []) as [[len c]|]; [|done].
    cbn [fst]. rewrite erase_app, erase_sub. done.
  - change (erase (u :: ts)) with (fst u :: erase ts).
    destruct skip; cbn [replace_go_tagged replace_go]; [|apply IH].
    change (erase (u :: ts)) with (fst u :: erase ts).
    destruct (match_at r p (fst u :: erase ts)) as [[len c]|].
    + cbn [fst]. rewrite erase_app, erase_sub. f_equal.
      destruct len; cbn [fst erase map]; [f_equal|]; apply IH.
    + cbn [fst erase map]. f_equal. apply IH.
Qed.

Lemma erase_original s : erase (original s) = s.
Proof. unfold erase, original. rewrite map_map. apply map_id. Qed.

Lemma erase_run_tagged rules : forall k ts,
  erase (fst (run_tagged k rules ts)) = fold_left apply_rule rules (erase ts).
Proof.
  induction rules as [|[r tmpl] rules IH]; intros k ts; [done|].
  cbn [run_tagged fold_left fst]. rewrite IH, erase_replace_go_tagged. done.
Qed.

Lemma tag_below_mono j k u : j <= k -> tag_below j u -> tag_below k u.
Proof. unfold tag_below. destruct (snd u); [lia|done]. Qed.

Lemma tag_substitution_Forall (P : char * option nat -> Prop) k matched cap ng tmpl :
  Forall P matched -> (forall n, Forall P (cap n)) -> (forall ch, P (ch, Some k)) ->
  Forall P (tag_substitution k matched cap ng tmpl).
Proof.
  intros Hm Hc Hk.
  assert (H : forall n tmpl, length tmpl <= n ->
                             Forall P (tag_substitution k matched cap ng tmpl)).
  { clear tmpl. induction n as [|n IH]; intros [|c0 t1] Hn; simpl in Hn;
      try (constructor; fail); [lia|].
    pose proof (IH t1 ltac:(lia)) as I1.
    assert (I2 : forall d t2, t1 = d :: t2 ->
                              Forall P (tag_substitution k matched cap ng t2)).
    { intros d t2 ->. apply IH. simpl in Hn. lia. }
    remember (tag_substitution k matched cap ng t1) as X1 eqn:EX1.
    cbn [tag_substitution]. rewrite <- EX1.
    destruct (N.eqb c0 36); [|by constructor].
    destruct t1 as [|d t2]; [by repeat constructor|]. specialize (I2 d t2 eq_refl).
    destruct (N.eqb d 36); [by constructor|].
    destruct (N.eqb d 38); [by apply Forall_app|].
    destruct (digit_of d).
    - destruct (_ <=? _); [by apply Forall_app|by repeat constructor].
    - by constructor. }
  by apply (H (length tmpl)).
Qed.

(** The matches of a pass are pieces of its input; its output is made
    of its input and of the characters it writes. *)
Lemma replace_go_tagged_Forall (P Q : char * option nat -> Prop) r tmpl k :
  (forall u, P u -> Q u) -> (forall ch, Q (ch, Some k)) ->
  forall ts p skip, Forall P ts ->
    Forall Q (fst (replace_go_tagged r tmpl k p skip ts)) /\
    Forall (Forall P) (snd (replace_go_tagged r tmpl k p skip ts)).
Proof.
  intros HPQ HQ.
  assert (Hsub : forall ts p len c, Forall P ts ->
    Forall Q (tag_substitution k (firstn len ts) (cap_text p ts c)
                (length (groups (re r))) tmpl)).
  { intros ts p len c Hts. apply tag_substitution_Forall; [| |done].
    - apply Forall_take. eapply Forall_impl; [exact Hts|done].
    - intros n. apply cap_text_Forall. eapply Forall_impl; [exact Hts|done]. }
  induction ts as [|u ts IH]; intros p skip Hts.
  - destruct skip; cbn [replace_go_tagged]; [|by split; constructor].
    destruct (match_at r p (erase [])) as [[len c]|]; cbn [fst snd];
      [|by split; constructor].
    split.
    + rewrite app_nil_r. by apply Hsub.
    + repeat constructor. by apply Forall_take.
  - pose proof Hts as Hts'. apply Forall_cons in Hts' as [Hu Hts'].
    destruct skip; cbn [replace_go_tagged]; [|by apply IH].
    destruct (match_at r p (erase (u :: ts))) as [[len c]|]; cbn [fst snd].
    + destruct len; cbn [fst snd].
      * destruct (IH (S p) 0 Hts') as [I1 I2]. split.
        -- apply Forall_app. split; [by apply Hsub|]. constructor; [by apply HPQ|done].
        -- constructor; [constructor|done].
      * destruct (IH (S p) len Hts') as [I1 I2]. split.
        -- apply Forall_app. split; [by apply Hsub|done].
        -- constructor; [by apply Forall_take|done].
    + destruct (IH (S p) 0 Hts') as [I1 I2]. split; [|done].
      constructor; [by apply HPQ|done].
Qed.

Lemma run_tagged_matches rules : forall k ts,
  Forall (tag_below k) ts ->
  Forall (fun e => Forall (Forall (tag_below (fst e))) (snd e))
         (snd (run_tagged k rules ts)).
Proof.
  induction rules as [|[r tmpl] rules IH]; intros k ts Hts; [constructor|].
  cbn [run_tagged snd].
  destruct (replace_go_tagged_Forall (tag_below k) (tag_below (S k)) r tmpl k
              ltac:(intros u; apply tag_below_mono; lia)
              ltac:(intros ch; unfold tag_below; simpl; lia)
              ts 0 0 Hts) as [Hout Hms].
  constructor; [exact Hms|]. by apply IH.
Qed.

Lemma original_tag_below s : Forall (tag_below 0) (original s).
Proof. unfold original. apply Forall_map, Forall_forall. by intros. Qed.

(** Where the pattern matches at the head of the subject, the pass
    writes the replacement and goes on in the subject after the match. *)
Lemma replaceAll_at_match r tmpl (s : jsstring) n c :
  bol_free (re r) = true ->
  match_at r 0 s = Some (S n, c) ->
  replaceAll s r tmpl
  = get_substitution (firstn (S n) s) (cap_text 0 s c) (length (groups (re r))) tmpl
    ++ replaceAll (skipn (S n) s) r tmpl.
Proof.
  intros Hb Hm. unfold replaceAll.
  rewrite (replace_go_match _ _ _ _ _ _ Hm). f_equal.
  apply replace_go_pos. exact Hb.
Qed.

(** C4 (amended): no rule matches a character that its own replacement
    wrote (a rule matches only characters of the input line and of the
    rules before it), the marked passes being the passes of the
    script; and where a rule matches at the head of its subject, it
    writes the replacement and goes on after the match in the subject,
    not in what it wrote. *)
Theorem rule_never_rematches_its_own_markup :
  (forall line,
     erase (fst (run_tagged 0 inline_rules (original line)))
     = convertLineToMarkdown line) /\
  (forall line j k, rematched (matches_of_line line) j k -> j < k) /\
  (forall r tmpl (s : jsstring) n c,
     In (r, tmpl) inline_rules ->
     match_at r 0 s = Some (S n, c) ->
     replaceAll s r tmpl
     = get_substitution (firstn (S n) s) (cap_text 0 s c)
                        (length (groups (re r))) tmpl
       ++ replaceAll (skipn (S n) s) r tmpl).
Proof.
  split; [|split].
  - intros line. by rewrite erase_run_tagged, erase_original.
  - intros line j k (ms & mt & ch & Hlog & Hms & Hmt).
    pose proof (run_tagged_matches inline_rules 0 (original line)
                  (original_tag_below line)) as H.
    apply list_elem_of_In in Hlog, Hms, Hmt.
    rewrite Forall_forall in H. specialize (H _ Hlog). cbn [fst snd] in H.
    rewrite Forall_forall in H. specialize (H _ Hms).
    rewrite Forall_forall in H. apply (H _ Hmt).
  - intros r tmpl s n c Hin Hm. apply replaceAll_at_match; [|done].
    simpl in Hin. by repeat (destruct Hin as [[= <- <-]|Hin]; [done|]).
Qed.

Lemma rule_never_rematches_its_own_markup_witness :
  (rematched (matches_of_line (js "**a_b_**")) 0 1 /\ 0 < 1) /\
  replaceAll (js "_a_b") underline_re underline_tmpl
  = get_substitution (js "_a_") (cap_text 0 (js "_a_b") [(1, (1, 2))]) 1 underline_tmpl
    ++ replaceAll (js "b") underline_re underline_tmpl.
Proof.
  destruct rule_never_rematches_its_own_markup as (_ & H2 & H3).
  assert (Hr : rematched (matches_of_line (js "**a_b_**")) 0 1).
  { exists [original (js "**a") ++ map (fun ch => (ch, Some 0)) (js "<u>")
            ++ original (js "b")
            ++ map (fun ch => (ch, Some 0)) (js "</u>") ++ original (js "**")].
    eexists. exists (chr "<").
    split; [|split]; [vm_compute; tauto|left; reflexivity|vm_compute; tauto]. }
  split.
  - split; [exact Hr|]. exact (H2 (js "**a_b_**") 0 1 Hr).
  - apply (H3 underline_re underline_tmpl (js "_a_b") 2 [(1, (1, 2))]).
    + left. reflexivity.
    + vm_compute. reflexivity.
Defined.

(** C4 as stated fails: on the line [**a_b_**] the bold rule (rule 1)
    matches the markup that the underline rule (rule 0) wrote, and
    wraps it. *)
Lemma later_rule_matches_inserted_markup :
  convertLineToMarkdown (js "**a_b_**") = js "<b>a<u>b</u></b>" /\
  rematched (matches_of_line (js "**a_b_**")) 0 1 /\
  ~ (forall line j k, ~ rematched (matches_of_line line) j k).
Proof.
  assert (H : rematched (matches_of_line (js "**a_b_**")) 0 1).
  { exists [original (js "**a") ++ map (fun ch => (ch, Some 0)) (js "<u>")
            ++ original (js "b")
            ++ map (fun ch => (ch, Some 0)) (js "</u>") ++ original (js "**")].
    eexists. exists (chr "<").
    split; [|split]; [vm_compute; tauto|left; reflexivity|vm_compute; tauto]. }
  split; [vm_compute; reflexivity|]. split; [exact H|].
  intros Hall. exact (Hall _ _ _ H).
Qed.

(** ** The breaks of the block splitter *)

Lemma adv_0 x : adv x 0 = x.
Proof. unfold adv. cbn [skipn]. by rewrite Nat.add_0_r. Qed.

Lemma adv_advance x ch s' n :
  rest x = ch :: s' -> adv (advance x s') n = adv x (S n).
Proof.
  intros E. unfold adv, advance. cbn [pos rest caps]. rewrite E. cbn [skipn].
  f_equal. lia.
Qed.

Lemma m_lit l : forall x k,
  m true (lit l) x k =
  if ci_prefix l (rest x) then k (adv x (length l)) else None.
Proof.
  induction l as [|c l IH]; intros x k.
  - cbn [lit m ci_prefix length]. by rewrite adv_0.
  - assert (Hc : forall k', char_set_matcher (char_matches true c) x k' =
                  match rest x with
                  | ch :: s' => if char_matches true c ch then k' (advance x s') else None
                  | [] => None
                  end) by done.
    destruct l as [|c' l].
    + cbn [lit m]. rewrite Hc. cbn [ci_prefix length].
      destruct (rest x) as [|ch s'] eqn:E; [done|].
      destruct (char_matches true c ch); [|done]. cbn [andb].
      destruct s'; by rewrite <- (adv_advance x ch _ 0 E), adv_0.
    + change (lit (c :: c' :: l)) with (Seq (Char c) (lit (c' :: l))).
      cbn [m]. rewrite Hc.
      destruct (rest x) as [|ch s'] eqn:E; [done|].
      change (ci_prefix (c :: c' :: l) (ch :: s'))
        with (char_matches true c ch && ci_prefix (c' :: l) s').
      destruct (char_matches true c ch); [|done]. cbn [andb].
      rewrite IH. cbn [advance rest].
      destruct (ci_prefix (c' :: l) s'); [|done].
      by rewrite (adv_advance x ch s' _ E).
Qed.

Lemma char_matches_lf ch : char_matches true 10 ch = true -> ch = 10%N.
Proof. apply char_matches_nonletter. lia. Qed.

Lemma char_matches_lt ch : char_matches true (chr "<") ch = true -> ch = chr "<".
Proof. apply char_matches_nonletter. vm_compute. intuition congruence. Qed.

Lemma char_matches_amp ch : char_matches true (chr "&") ch = true -> ch = chr "&".
Proof. apply char_matches_nonletter. vm_compute. intuition congruence. Qed.

Lemma break_len_cases s n :
  break_len s = Some n ->
  (n = 1 /\ ci_prefix LF s = true) \/
  (n = 4 /\ ci_prefix (js "<br>") s = true /\ ci_prefix LF s = false) \/
  (n = 6 /\ ci_prefix (js "&nbsp;") s = true /\ ci_prefix LF s = false /\
   ci_prefix (js "<br>") s = false).
Proof.
  unfold break_len.
  destruct (ci_prefix LF s); [intros [= <-]; by left|].
  destruct (ci_prefix (js "<br>") s); [intros [= <-]; right; by left|].
  destruct (ci_prefix (js "&nbsp;") s); [intros [= <-]; right; by right|done].
Qed.

Lemma ci_prefix_length l s : ci_prefix l s = true -> length l <= length s.
Proof.
  revert s. induction l as [|c l IH]; intros [|ch s]; simpl; try done; [lia|].
  intros H. apply andb_true_iff in H as [_ H]. apply IH in H. lia.
Qed.

Lemma break_len_bounds s n : break_len s = Some n -> 1 <= n <= length s.
Proof.
  intros H. apply break_len_cases in H as [(-> & H)|[(-> & H & _)|(-> & H & _)]];
    apply ci_prefix_length in H; simpl in H; lia.
Qed.

(** The three alternatives exclude one another: one iteration of the
    break pattern has one way to match. *)
Lemma m_break_body x (d : cont) :
  m true (Alt (Char 10%N) (Alt (lit (js "<br>")) (lit (js "&nbsp;")))) x d
  = match break_len (rest x) with
    | Some n => d (adv x n)
    | None => None
    end.
Proof.
  change (m true (Alt (Char 10%N) (Alt (lit (js "<br>")) (lit (js "&nbsp;")))) x d)
    with (match m true (lit LF) x d with
          | Some z => Some z
          | None => match m true (lit (js "<br>")) x d with
                    | Some z => Some z
                    | None => m true (lit (js "&nbsp;")) x d
                    end
          end).
  rewrite !m_lit. unfold break_len.
  destruct (rest x) as [|ch s] eqn:E; [done|].
  destruct (ci_prefix LF (ch :: s)) eqn:E1.
  - cbn [length LF]. destruct (d (adv x 1)); [done|].
    cbn in E1. rewrite andb_true_r in E1. apply char_matches_lf in E1 as ->.
    by vm_compute.
  - destruct (ci_prefix (js "<br>") (ch :: s)) eqn:E2;
      [|by destruct (ci_prefix (js "&nbsp;") (ch :: s))].
    cbn [length js]. destruct (d (adv x 4)); [done|].
    change (js "<br>") with (chr "<" :: js "br>") in E2. cbn [ci_prefix] in E2.
    apply andb_true_iff in E2 as [E2 _]. apply char_matches_lt in E2 as ->.
    by vm_compute.
Qed.

Lemma break_len_nil : break_len [] = None.
Proof. reflexivity. Qed.

Lemma strip_go_skip n : forall s,
  n <= length s -> strip_go n s = strip_breaks (skipn n s).
Proof.
  induction n as [|n IH]; intros s Hn; [done|].
  destruct s as [|ch s]; simpl in Hn; [lia|]. cbn [strip_go skipn]. apply IH. lia.
Qed.

Lemma strip_breaks_unfold s :
  strip_breaks s = match break_len s with
                   | Some n => strip_breaks (skipn n s)
                   | None => s
                   end.
Proof.
  destruct s as [|ch s]; [done|]. unfold strip_breaks at 1. cbn [strip_go].
  destruct (break_len (ch :: s)) as [n|] eqn:E; [|done].
  pose proof (break_len_bounds _ _ E) as Hn. destruct n as [|n]; [lia|].
  cbn [skipn]. apply strip_go_skip. simpl in Hn. lia.
Qed.

(** What [strip_breaks] removes is a prefix. *)
Lemma strip_breaks_suffix s :
  skipn (length s - length (strip_breaks s)) s = strip_breaks s /\
  length (strip_breaks s) <= length s.
Proof.
  remember (length s) as len eqn:Hlen. revert s Hlen.
  induction len as [len IH] using lt_wf_ind. intros s ->.
  rewrite (strip_breaks_unfold s).
  destruct (break_len s) as [n|] eqn:E.
  - pose proof (break_len_bounds _ _ E) as Hn.
    destruct (IH (length (skipn n s)) ltac:(rewrite length_skipn; lia)
                 (skipn n s) eq_refl) as [I1 I2].
    rewrite length_skipn in I1, I2. split; [|lia].
    rewrite <- I1 at 2. rewrite skipn_skipn. f_equal. lia.
  - by rewrite Nat.sub_diag.
Qed.

(** After the breaks there is no break. *)
Lemma break_len_strip_breaks s : break_len (strip_breaks s) = None.
Proof.
  remember (length s) as len eqn:Hlen. revert s Hlen.
  induction len as [len IH] using lt_wf_ind. intros s ->.
  rewrite (strip_breaks_unfold s).
  destruct (break_len s) as [n|] eqn:E; [|done].
  pose proof (break_len_bounds _ _ E) as Hn.
  apply (IH (length (skipn n s))); [rewrite length_skipn; lia|done].
Qed.

Lemma adv_adv x a b : adv (adv x a) b = adv x (a + b).
Proof.
  unfold adv. cbn [pos rest caps]. rewrite skipn_skipn.
  f_equal; [lia|f_equal; lia].
Qed.

(** The greedy repetition of the break takes all the breaks. *)
Lemma repeat_break_star : forall fuel x,
  length (rest x) < fuel ->
  repeat_matcher
    (m true (Alt (Char 10%N) (Alt (lit (js "<br>")) (lit (js "&nbsp;")))))
    [] true fuel 0 x Some
  = Some (adv x (length (rest x) - length (strip_breaks (rest x)))).
Proof.
  induction fuel as [|fuel IH]; intros x Hf; [lia|].
  rewrite repeat_matcher_S. cbv zeta. rewrite m_break_body. cbn [rest pos].
  change (negb (0 =? 0)) with false. cbv iota.
  rewrite (strip_breaks_unfold (rest x)).
  destruct (break_len (rest x)) as [n|] eqn:E.
  - pose proof (break_len_bounds _ _ E) as Hn.
    unfold adv at 1. cbn [pos rest caps]. rewrite clear_caps_nil.
    replace (pos x + n =? pos x) with false by (symmetry; apply Nat.eqb_neq; lia).
    cbn [andb Nat.pred].
    change {| pos := pos x + n; rest := skipn n (rest x); caps := caps x |}
      with (adv x n).
    rewrite IH by (cbn [adv rest]; rewrite length_skipn; lia).
    rewrite adv_adv. cbn [adv rest].
    destruct (strip_breaks_suffix (skipn n (rest x))) as [_ Hle].
    rewrite length_skipn in *. do 2 f_equal. lia.
  - by rewrite Nat.sub_diag, adv_0.
Qed.

(** The break pattern at an index: all the breaks that begin there. *)
Lemma match_at_break_re p s :
  match_at break_re p s =
  match break_len s with
  | Some _ => Some (length s - length (strip_breaks s), [])
  | None => None
  end.
Proof.
  unfold match_at. set (x := {| pos := p; rest := s; caps := [] |}).
  change (m (ignoreCase break_re) (re break_re) x Some)
    with (repeat_matcher
            (m true (Alt (Char 10%N) (Alt (lit (js "<br>")) (lit (js "&nbsp;")))))
            [] true (S (1 + length s)) 1 x Some).
  rewrite repeat_matcher_S. cbv zeta. rewrite m_break_body. subst x. cbn [rest pos caps].
  change (negb (1 =? 0)) with true. cbv iota.
  rewrite (strip_breaks_unfold s).
  destruct (break_len s) as [n|] eqn:E; [|done].
  pose proof (break_len_bounds _ _ E) as Hn.
  change (1 =? 0) with false. cbn [andb Nat.pred].
  rewrite repeat_break_star by (cbn [adv rest]; rewrite length_skipn; lia).
  rewrite adv_adv. cbn [adv pos rest caps clear_caps List.filter].
  destruct (strip_breaks_suffix (skipn n s)) as [_ Hle].
  rewrite length_skipn in *. do 2 f_equal. lia.
Qed.

Lemma match_at_break_re_positive p s len c :
  match_at break_re p s = Some (len, c) ->
  1 <= len /\ c = [] /\ skipn len s = strip_breaks s.
Proof.
  rewrite match_at_break_re.
  destruct (break_len s) as [n|] eqn:E; [|done]. intros [= <- <-].
  pose proof (break_len_bounds _ _ E) as Hn.
  destruct (strip_breaks_suffix s) as [Hs Hle].
  split; [|done].
  rewrite (strip_breaks_unfold s), E in Hle |- *.
  destruct (strip_breaks_suffix (skipn n s)) as [_ Hle'].
  rewrite length_skipn in Hle'. lia.
Qed.

(** ** Facts about [split] *)

Lemma split_go_skip r n : forall s p cur,
  n <= length s ->
  split_go r p n cur s = split_go r (p + n) 0 cur (skipn n s).
Proof.
  induction n as [|n IH]; intros s p cur Hn.
  - cbn [skipn]. by rewrite Nat.add_0_r.
  - destruct s as [|ch s]; simpl in Hn; [lia|].
    cbn [split_go skipn]. rewrite IH by lia. f_equal. lia.
Qed.

Lemma split_go_nonempty r s : forall p skip cur, split_go r p skip cur s <> [].
Proof.
  induction s as [|ch s IH]; intros p skip cur; [done|].
  destruct skip; cbn [split_go]; [|apply IH].
  destruct (match_at r p (ch :: s)) as [[[|len] c]|]; try apply IH; [|done].
  destruct cur; [apply IH|done].
Qed.

(** The walk of the splitter over a text, for the break pattern. *)
Lemma split_go_break_cons cur ch s :
  split_go break_re 0 0 cur (ch :: s) =
  match break_len (ch :: s) with
  | Some _ => cur :: split_go break_re 0 0 [] (strip_breaks (ch :: s))
  | None => split_go break_re 0 0 (cur ++ [ch]) s
  end.
Proof.
  cbn [split_go].
  destruct (match_at break_re 0 (ch :: s)) as [[len c]|] eqn:E.
  - destruct (match_at_break_re_positive _ _ _ _ E) as (Hlen & -> & Hs).
    pose proof (match_at_length _ _ _ _ _ E) as Hl. simpl in Hl.
    rewrite match_at_break_re in E.
    destruct (break_len (ch :: s)); [|done].
    destruct len as [|len]; [lia|].
    cbn [re break_re groups length cap_values seq map app].
    f_equal. rewrite <- Hs. cbn [skipn].
    rewrite split_go_skip by lia.
    apply split_go_pos. reflexivity.
  - rewrite match_at_break_re in E. destruct (break_len (ch :: s)); [done|].
    apply split_go_pos. reflexivity.
Qed.

Lemma split_nonempty_text r (s : jsstring) :
  s <> [] -> split s r = split_go r 0 0 [] s.
Proof. by destruct s. Qed.

Lemma removelast_cons {A} (x : A) l : l <> [] -> removelast (x :: l) = x :: removelast l.
Proof. by destruct l. Qed.

(** Every line that the walk closes before the last one is not empty,
    once the current line is not empty or no break begins the text. *)
Lemma split_go_break_closed s : forall cur,
  cur <> [] \/ break_len s = None ->
  Forall (fun l => l <> []) (removelast (split_go break_re 0 0 cur s)).
Proof.
  remember (length s) as len eqn:Hlen. revert s Hlen.
  induction len as [len IH] using lt_wf_ind. intros s -> cur Hcur.
  destruct s as [|ch s]; [constructor|].
  rewrite split_go_break_cons.
  destruct (break_len (ch :: s)) as [n|] eqn:E.
  - destruct Hcur as [Hcur|Hcur]; [|done].
    rewrite removelast_cons by apply split_go_nonempty.
    constructor; [done|].
    destruct (strip_breaks_suffix (ch :: s)) as [_ Hle].
    pose proof (break_len_bounds _ _ E) as Hn.
    assert (Hlt : length (strip_breaks (ch :: s)) < length (ch :: s)).
    { rewrite (strip_breaks_unfold (ch :: s)), E.
      destruct (strip_breaks_suffix (skipn n (ch :: s))) as [_ Hle'].
      rewrite length_skipn in Hle'. lia. }
    apply (IH _ Hlt _ eq_refl). right. apply break_len_strip_breaks.
  - apply (IH (length s) ltac:(simpl; lia) s eq_refl). left. by destruct cur.
Qed.

Lemma ci_prefix_app_true l : forall d s,
  ci_prefix l d = true -> ci_prefix l (d ++ s) = true.
Proof.
  induction l as [|c l IH]; intros [|ch d] s; simpl; try done.
  intros H. apply andb_true_iff in H as [-> H]. by apply IH.
Qed.

Lemma ci_prefix_app_false l : forall d s,
  length l <= length d -> ci_prefix l d = false -> ci_prefix l (d ++ s) = false.
Proof.
  induction l as [|c l IH]; intros [|ch d] s; simpl; try done; [lia|].
  intros Hlen H. destruct (char_matches true c ch); [|done]. simpl in *.
  apply IH; [lia|done].
Qed.

(** A pattern does not begin inside [a] and end in what follows when
    what follows begins with a character that is in the pattern only as
    its first character. *)
Lemma ci_prefix_app_head l : forall a h z,
  a <> [] ->
  Forall (fun c => char_matches true c h = false) (tl l) ->
  ci_prefix l (a ++ h :: z) = ci_prefix l a.
Proof.
  induction l as [|c l IH]; intros a h z Ha Hl; [done|].
  destruct a as [|x a]; [done|]. cbn [app ci_prefix]. f_equal.
  cbn [tl] in Hl. destruct a as [|x' a].
  - destruct l as [|c' l]; [done|]. cbn [app ci_prefix].
    apply Forall_cons in Hl as [-> _]. done.
  - apply IH; [done|]. destruct l; [constructor|]. by apply Forall_cons in Hl as [_ ?].
Qed.

Lemma break_len_head z n :
  break_len z = Some n ->
  exists h z', z = h :: z' /\ (h = 10%N \/ h = chr "<" \/ h = chr "&").
Proof.
  intros H. apply break_len_cases in H.
  destruct z as [|h z']; [by destruct H as [(_ & H)|[(_ & H & _)|(_ & H & _)]]|].
  exists h, z'. split; [done|].
  destruct H as [(_ & H)|[(_ & H & _)|(_ & H & _)]];
    cbn [LF js ci_prefix] in H; apply andb_true_iff in H as [H _].
  - left. by apply char_matches_lf.
  - right. left. by apply char_matches_lt.
  - right. right. by apply char_matches_amp.
Qed.

(** A break does not begin inside [a] and end in a break that follows. *)
Lemma break_len_app a z n :
  a <> [] -> break_len z = Some n -> break_len (a ++ z) = break_len a.
Proof.
  intros Ha Hz. apply break_len_head in Hz as (h & z' & -> & Hh).
  unfold break_len.
  rewrite !(ci_prefix_app_head _ a h z' Ha); [done| | |];
    destruct Hh as [-> | [-> | ->]]; repeat constructor.
Qed.

Lemma is_break_len d : is_break d = true -> break_len d = Some (length d).
Proof.
  unfold is_break. destruct (break_len d) as [n|]; [|done].
  intros H. apply Nat.eqb_eq in H. by rewrite H.
Qed.

Lemma break_len_is_break_app d s :
  is_break d = true -> break_len (d ++ s) = Some (length d).
Proof.
  intros Hd. apply is_break_len in Hd.
  destruct (break_len_cases _ _ Hd) as [(Hn & H1)|[(Hn & H1 & H2)|(Hn & H1 & H2 & H3)]];
    unfold break_len; rewrite Hn.
  - by rewrite ci_prefix_app_true.
  - rewrite ci_prefix_app_false by (simpl; lia || done).
    by rewrite ci_prefix_app_true.
  - rewrite !ci_prefix_app_false by (simpl; lia || done).
    by rewrite ci_prefix_app_true.
Qed.

Lemma strip_breaks_is_break_app d s :
  is_break d = true -> strip_breaks (d ++ s) = strip_breaks s.
Proof.
  intros Hd. rewrite (strip_breaks_unfold (d ++ s)), break_len_is_break_app by done.
  by rewrite skipn_app, skipn_all, Nat.sub_diag.
Qed.

Lemma strip_breaks_app x : forall z n,
  break_len z = Some n ->
  strip_breaks (x ++ z) =
  match strip_breaks x with
  | [] => strip_breaks z
  | _ => strip_breaks x ++ z
  end.
Proof.
  remember (length x) as len eqn:Hlen. revert x Hlen.
  induction len as [len IH] using lt_wf_ind. intros x -> z n Hz.
  destruct x as [|ch x]; [done|].
  rewrite (strip_breaks_unfold ((ch :: x) ++ z)), (strip_breaks_unfold (ch :: x)).
  rewrite (break_len_app (ch :: x) z n) by done.
  destruct (break_len (ch :: x)) as [k|] eqn:E; [|done].
  pose proof (break_len_bounds _ _ E) as Hk.
  rewrite skipn_app. replace (k - length (ch :: x)) with 0 by lia. cbn [skipn].
  apply (IH (length (skipn k (ch :: x))) ltac:(rewrite length_skipn; lia) _ eq_refl z n Hz).
Qed.

Lemma strip_breaks_shorter s n :
  break_len s = Some n -> length (strip_breaks s) < length s.
Proof.
  intros E. pose proof (break_len_bounds _ _ E) as Hn.
  rewrite (strip_breaks_unfold s), E.
  destruct (strip_breaks_suffix (skipn n s)) as [_ Hle].
  rewrite length_skipn in Hle. lia.
Qed.

(** A second break after a break changes nothing in the walk. *)
Lemma split_go_break_collapse (d1 d2 y : jsstring) :
  is_break d1 = true -> is_break d2 = true ->
  forall x cur,
    split_go break_re 0 0 cur (x ++ d1 ++ d2 ++ y)
    = split_go break_re 0 0 cur (x ++ d1 ++ y).
Proof.
  intros H1 H2.
  assert (Hz : break_len (d1 ++ d2 ++ y) = Some (length d1))
    by by apply break_len_is_break_app.
  assert (Hz' : break_len (d1 ++ y) = Some (length d1))
    by by apply break_len_is_break_app.
  assert (Hs : strip_breaks (d1 ++ d2 ++ y) = strip_breaks (d1 ++ y))
    by by rewrite !strip_breaks_is_break_app.
  assert (Hne : forall s, exists h t, d1 ++ s = h :: t).
  { intros s. apply is_break_len in H1. apply break_len_bounds in H1.
    destruct d1 as [|h t]; [simpl in H1; lia|]. by exists h, (t ++ s). }
  intros x. remember (length x) as len eqn:Hlen. revert x Hlen.
  induction len as [len IH] using lt_wf_ind. intros x -> cur.
  destruct x as [|ch x].
  - cbn [app]. destruct (Hne (d2 ++ y)) as (h & t & E), (Hne y) as (h' & t' & E').
    rewrite E, E', !split_go_break_cons, <- E, <- E', Hz, Hz', Hs. reflexivity.
  - rewrite <- !app_comm_cons, !split_go_break_cons, !app_comm_cons.
    rewrite (break_len_app (ch :: x) _ _ ltac:(done) Hz),
            (break_len_app (ch :: x) _ _ ltac:(done) Hz').
    destruct (break_len (ch :: x)) as [k|] eqn:E.
    + f_equal. rewrite (strip_breaks_app _ _ _ Hz), (strip_breaks_app _ _ _ Hz').
      destruct (strip_breaks (ch :: x)) as [|h t] eqn:Es; [by rewrite Hs|].
      rewrite <- Es. apply (IH (length (strip_breaks (ch :: x)))); [|done].
      by eapply strip_breaks_shorter.
    + apply (IH (length x)); [simpl; lia|done].
Qed.

(** The lines of the walk hold no break, once no break begins in the
    current line, read with the text that follows it. *)
Lemma split_go_break_free s : forall cur,
  (forall a b, cur = a ++ b -> b <> [] -> break_len (b ++ s) = None) ->
  Forall break_free (split_go break_re 0 0 cur s).
Proof.
  remember (length s) as len eqn:Hlen. revert s Hlen.
  induction len as [len IH] using lt_wf_ind. intros s -> cur Hcur.
  destruct s as [|ch s].
  - repeat constructor. intros a b -> . destruct b as [|h b]; [done|].
    rewrite <- (app_nil_r (h :: b)). by apply (Hcur a).
  - rewrite split_go_break_cons.
    destruct (break_len (ch :: s)) as [n|] eqn:E.
    + constructor.
      * intros a b ->. destruct b as [|h b]; [done|].
        rewrite <- (break_len_app (h :: b) (ch :: s) n) by done. by apply (Hcur a).
      * apply (IH _ (strip_breaks_shorter _ _ E) _ eq_refl).
        intros a b Hab Hb. by destruct a, b.
    + apply (IH (length s) ltac:(simpl; lia) s eq_refl).
      intros a b Hab Hb.
      destruct (decide (b = [ch])) as [->|Hne]; [done|].
      assert (exists b', b = b' ++ [ch] /\ b' <> [] /\ cur = a ++ b')
        as (b' & -> & Hb' & ->).
      { destruct (exists_last Hb) as (b' & x & ->).
        rewrite app_assoc in Hab. apply app_inj_tail in Hab as [-> ->].
        exists b'. split; [done|]. split; [|done]. intros ->. by apply Hne. }
      rewrite <- app_assoc. by apply (Hcur a).
Qed.

Lemma break_len_start (s : jsstring) :
  match s with [] => True | h :: _ => is_break_start h = false end ->
  break_len s = None.
Proof.
  intros Hs. destruct (break_len s) as [n|] eqn:E; [|done].
  apply break_len_head in E as (h & z & -> & [-> | [-> | ->]]); done.
Qed.

Lemma tag_free_break_free (s : jsstring) : tag_free s -> break_free s.
Proof.
  intros Hs a b ->. apply Forall_app in Hs as [_ Hb]. apply break_len_start.
  destruct b as [|h b]; [done|]. by apply Forall_cons in Hb as [? _].
Qed.

(** With no break in it, a text is one line of the primary split. *)
Lemma split_go_break_none s : forall cur,
  break_free s -> split_go break_re 0 0 cur s = [cur ++ s].
Proof.
  induction s as [|ch s IH]; intros cur Hs; [by rewrite app_nil_r|].
  rewrite split_go_break_cons, (Hs [] (ch :: s) eq_refl).
  rewrite IH; [by rewrite <- app_assoc|].
  intros a b ->. by apply (Hs (ch :: a) b).
Qed.

(** With a break in it, a text has two lines or more. *)
Lemma split_go_break_some (d b : jsstring) : is_break d = true ->
  forall a cur, 2 <= length (split_go break_re 0 0 cur (a ++ d ++ b)).
Proof.
  intros Hd.
  assert (Hcons : forall cur l, l <> [] -> 2 <= length (cur :: l : list jsstring)).
  { intros cur [|??] ?; [done|simpl; lia]. }
  induction a as [|ch a IH]; intros cur.
  - cbn [app]. pose proof (break_len_is_break_app d b Hd) as Hb.
    destruct (d ++ b) as [|h t] eqn:E; [by rewrite break_len_nil in Hb|].
    rewrite split_go_break_cons, Hb. apply Hcons, split_go_nonempty.
  - rewrite <- app_comm_cons, split_go_break_cons.
    destruct (break_len _); [apply Hcons, split_go_nonempty|apply IH].
Qed.

(** The walk takes a line without a break into the current piece when
    a break follows it, or nothing. *)
Lemma split_go_break_line (l : jsstring) : forall cur s,
  break_free l -> s = [] \/ break_len s <> None ->
  split_go break_re 0 0 cur (l ++ s) = split_go break_re 0 0 (cur ++ l) s.
Proof.
  induction l as [|ch l IH]; intros cur s Hl Hs; [by rewrite app_nil_r|].
  assert (Hl' : break_free l) by (intros a b ->; by apply (Hl (ch :: a) b)).
  rewrite <- app_comm_cons, split_go_break_cons.
  assert (E : break_len (ch :: l ++ s) = None).
  { destruct Hs as [->|Hs]; [rewrite app_nil_r; by apply (Hl [] (ch :: l))|].
    destruct (break_len s) as [n|] eqn:Es; [|done].
    rewrite app_comm_cons, (break_len_app (ch :: l) s n) by done.
    by apply (Hl [] (ch :: l)). }
  rewrite E, IH by done. by rewrite <- app_assoc.
Qed.

Lemma strip_breaks_run (ds : list jsstring) (s : jsstring) :
  Forall (fun d => is_break d = true) ds ->
  strip_breaks (concat ds ++ s) = strip_breaks s.
Proof.
  induction 1 as [|d ds Hd _ IH]; [done|].
  cbn [concat]. by rewrite <- app_assoc, strip_breaks_is_break_app.
Qed.

Lemma strip_breaks_none (s : jsstring) : break_len s = None -> strip_breaks s = s.
Proof. intros H. by rewrite strip_breaks_unfold, H. Qed.

Lemma break_len_run (ds : list jsstring) (s : jsstring) :
  ds <> [] -> Forall (fun d => is_break d = true) ds ->
  break_len (concat ds ++ s) <> None.
Proof.
  intros Hne Hds. destruct ds as [|d ds]; [done|].
  apply Forall_cons in Hds as [Hd _]. cbn [concat].
  by rewrite <- app_assoc, break_len_is_break_app.
Qed.

(** The head of the lines after a run of breaks: no break begins there. *)
Lemma break_len_with_breaks (l : jsstring) rest :
  break_free l -> Forall run_and_line rest ->
  rest = [] \/ l <> [] ->
  break_len (with_breaks l rest) = None.
Proof.
  intros Hl Hrest Hne. unfold with_breaks. destruct rest as [|[ds l1] rest].
  - cbn [map concat]. rewrite app_nil_r. by apply (Hl [] l).
  - destruct Hne as [|Hne]; [done|].
    apply Forall_cons in Hrest as [(Hds & Hbr & _) _]. cbn [fst snd] in *.
    cbn [map concat fst snd]. rewrite <- app_assoc.
    pose proof (break_len_run ds (l1 ++ concat (map (fun p => concat (fst p) ++ snd p) rest))
                  Hds Hbr) as Hrun.
    destruct (break_len (concat ds ++ _)) as [n|] eqn:E; [|done].
    rewrite (break_len_app l _ n) by done. by apply (Hl [] l).
Qed.

(** The walk of the primary split over lines and runs of breaks. *)
Lemma split_go_with_breaks rest : forall l0 cur,
  break_free l0 -> Forall run_and_line rest ->
  Forall (fun p => snd p <> []) (removelast rest) ->
  split_go break_re 0 0 cur (with_breaks l0 rest) = (cur ++ l0) :: map snd rest.
Proof.
  induction rest as [|[ds l] rest IH]; intros l0 cur Hl0 Hrest Hmid.
  - unfold with_breaks. cbn [map concat]. rewrite app_nil_r.
    apply split_go_break_none. exact Hl0.
  - pose proof Hrest as Hrest'.
    apply Forall_cons in Hrest' as [(Hds & Hbr & Hl) Hrest'].
    cbn [fst snd] in Hds, Hbr, Hl.
    assert (Htail : with_breaks l0 ((ds, l) :: rest)
                    = l0 ++ concat ds ++ with_breaks l rest).
    { unfold with_breaks. cbn [map concat fst snd]. by rewrite <- !app_assoc. }
    rewrite Htail.
    pose proof (break_len_run ds (with_breaks l rest) Hds Hbr) as Hrun.
    rewrite split_go_break_line by (done || by right).
    destruct (concat ds ++ with_breaks l rest) as [|h t] eqn:E;
      [by rewrite break_len_nil in Hrun|].
    rewrite split_go_break_cons.
    destruct (break_len (h :: t)) as [n|]; [|done].
    rewrite <- E, strip_breaks_run by done.
    assert (Hmid' : Forall (fun p => snd p <> []) (removelast rest)
                    /\ (rest = [] \/ l <> [])).
    { destruct rest as [|p rest]; [split; [constructor|by left]|].
      change (removelast ((ds, l) :: p :: rest))
        with ((ds, l) :: removelast (p :: rest)) in Hmid.
      apply Forall_cons in Hmid as [Hne Hmid]. split; [done|by right]. }
    destruct Hmid' as [Hmid' Hne].
    rewrite strip_breaks_none by by apply break_len_with_breaks.
    cbn [map snd]. f_equal. by rewrite (IH l [] Hl Hrest' Hmid').
Qed.

(** With a break in it, a text is split by the primary split alone. *)
Lemma inputLines_primary (x d y : jsstring) :
  is_break d = true -> inputLines (x ++ d ++ y) = split (x ++ d ++ y) break_re.
Proof.
  intros Hd. unfold inputLines. cbv zeta.
  assert (Hne : x ++ d ++ y <> []).
  { apply is_break_len, break_len_bounds in Hd. destruct x; [|done].
    destruct d; [simpl in Hd; lia|done]. }
  pose proof (split_go_break_some d y Hd x []) as Hlen.
  rewrite <- split_nonempty_text in Hlen by done.
  destruct (split (x ++ d ++ y) break_re) as [|l0 [|l1 ls]]; simpl in Hlen; try lia; done.
Qed.

(** C6: the lines of a text that holds breaks are the texts between
    its runs of breaks: a first line, then after every run of one or
    more breaks (line feeds, break tags and entities, in any mix and
    case) one line, so that a run is one boundary however long it is;
    a break that follows a break changes nothing; no line holds a
    break; and no line but the first and the last is empty (an empty
    first or last line comes from a break at the very start or end of
    the text).  The same holds of the primary split of any text. *)
Theorem breaks_collapse_into_one_boundary :
  (forall (l0 : jsstring) (rest : list (list jsstring * jsstring)),
     rest <> [] -> break_free l0 -> Forall run_and_line rest ->
     Forall (fun p => snd p <> []) (removelast rest) ->
     inputLines (with_breaks l0 rest) = l0 :: map snd rest) /\
  (forall x d1 d2 y : jsstring,
     is_break d1 = true -> is_break d2 = true ->
     inputLines (x ++ d1 ++ d2 ++ y) = inputLines (x ++ d1 ++ y)) /\
  (forall x d y : jsstring,
     is_break d = true ->
     Forall break_free (inputLines (x ++ d ++ y)) /\
     Forall (fun l => l <> []) (removelast (tl (inputLines (x ++ d ++ y))))) /\
  (forall x d1 d2 y : jsstring,
     is_break d1 = true -> is_break d2 = true ->
     split (x ++ d1 ++ d2 ++ y) break_re = split (x ++ d1 ++ y) break_re) /\
  (forall text, Forall break_free (split text break_re)) /\
  (forall text,
     Forall (fun l => l <> []) (removelast (tl (split text break_re)))).
Proof.
  assert (Hcollapse : forall x d1 d2 y : jsstring,
     is_break d1 = true -> is_break d2 = true ->
     split (x ++ d1 ++ d2 ++ y) break_re = split (x ++ d1 ++ y) break_re).
  { intros x d1 d2 y H1 H2.
    assert (Hne : forall s : jsstring, x ++ d1 ++ s <> []).
    { intros s. apply is_break_len, break_len_bounds in H1.
      destruct x; [|done]. destruct d1; [simpl in H1; lia|done]. }
    rewrite !split_nonempty_text by apply Hne.
    by apply split_go_break_collapse. }
  assert (Hfree : forall text, Forall break_free (split text break_re)).
  { intros [|ch s]; [repeat constructor; by intros [|??] [|??]|].
    rewrite split_nonempty_text by done. apply split_go_break_free.
    intros a b Hab Hb. by destruct a, b. }
  assert (Hclosed : forall text,
     Forall (fun l => l <> []) (removelast (tl (split text break_re)))).
  { intros [|ch s]; [constructor|].
    rewrite split_nonempty_text by done. rewrite split_go_break_cons.
    destruct (break_len (ch :: s)) as [n|] eqn:E.
    + cbn [tl]. apply split_go_break_closed. right. apply break_len_strip_breaks.
    + pose proof (split_go_break_closed s ([] ++ [ch]) ltac:(by left)) as H.
      destruct (split_go break_re 0 0 ([] ++ [ch]) s) as [|l0 ls]; [constructor|].
      destruct ls as [|l1 ls]; [constructor|].
      change (removelast (l0 :: l1 :: ls)) with (l0 :: removelast (l1 :: ls)) in H.
      by apply Forall_cons in H as [_ H]. }
  split; [|split; [|split; [|split; [|split]]]]; try done.
  - intros l0 rest Hne Hl0 Hrest Hmid.
    assert (Hs : split (with_breaks l0 rest) break_re = l0 :: map snd rest).
    { rewrite split_nonempty_text.
      - by apply (split_go_with_breaks rest l0 []).
      - destruct rest as [|[ds l] rest]; [done|].
        apply Forall_cons in Hrest as [(Hds & Hbr & _) _]. cbn [fst snd] in *.
        pose proof (break_len_run ds [] Hds Hbr) as Hrun.
        unfold with_breaks. cbn [map concat fst snd].
        destruct (concat ds) as [|h t]; [exfalso; apply Hrun; reflexivity|].
        by destruct l0. }
    unfold inputLines. cbv zeta. rewrite Hs.
    destruct rest as [|p rest]; [done|]. reflexivity.
  - intros x d1 d2 y H1 H2.
    rewrite (inputLines_primary x d1 (d2 ++ y)), (inputLines_primary x d1 y) by done.
    by apply Hcollapse.
  - intros x d y Hd. rewrite inputLines_primary by done. split; [apply Hfree|apply Hclosed].
Qed.

Lemma breaks_collapse_into_one_boundary_witness :
  inputLines (with_breaks (js "a")
                [([js "<BR>"; js "&nbsp;"; LF], js "b"); ([LF; LF], [])])
  = [js "a"; js "b"; []] /\
  inputLines (js "a" ++ js "<BR>" ++ js "&nbsp;" ++ js "b")
  = inputLines (js "a" ++ js "<BR>" ++ js "b") /\
  Forall break_free (inputLines (js "a" ++ LF ++ js "b")) /\
  split (js "a" ++ LF ++ LF ++ js "b") break_re = [js "a"; js "b"].
Proof.
  destruct breaks_collapse_into_one_boundary as (H1 & H2 & H3 & H4 & _).
  split; [|split; [|split]].
  - apply (H1 (js "a") [([js "<BR>"; js "&nbsp;"; LF], js "b"); ([LF; LF], [])]).
    + discriminate.
    + apply tag_free_break_free. repeat constructor.
    + repeat constructor; try discriminate; cbn [snd];
        apply tag_free_break_free; repeat constructor.
    + repeat constructor. discriminate.
  - apply (H2 (js "a") (js "<BR>") (js "&nbsp;") (js "b")); reflexivity.
  - apply (H3 (js "a") LF (js "b")). reflexivity.
  - rewrite (H4 (js "a") LF LF (js "b")); reflexivity.
Defined.

(** A break at the start or at the end of the text leaves an empty
    first or last line. *)
Example split_break_at_both_ends :
  split (LF ++ js "a<br>" ++ LF ++ js "b" ++ LF) break_re = [[]; js "a"; js "b"; []].
Proof. vm_compute. reflexivity. Qed.

(** ** The fallback of the block splitter *)



Lemma match_at_lf_re p ch s :
  match_at lf_re p (ch :: s) = if N.eqb ch 10 then Some (1, []) else None.
Proof.
  unfold match_at, lf_re. cbn [re ignoreCase m]. unfold char_set_matcher.
  cbn [rest]. unfold char_matches, canonicalize.
  destruct (N.eqb ch 10); [|done]. cbn [advance pos caps]. do 2 f_equal. lia.
Qed.

Lemma split_go_lf_cons p cur ch s :
  split_go lf_re p 0 cur (ch :: s) =
  if N.eqb ch 10 then cur :: split_go lf_re (S p) 0 [] s
  else split_go lf_re (S p) 0 (cur ++ [ch]) s.
Proof. cbn [split_go]. rewrite match_at_lf_re. by destruct (N.eqb ch 10). Qed.

Lemma join_cons sep l ls :
  ls <> [] -> join sep (l :: ls) = l ++ sep ++ join sep ls.
Proof. by destruct ls. Qed.




Lemma subst_body (mt : jsstring) (cap : nat -> jsstring) :
  get_substitution mt cap 1 (js "$1" ++ LF) = cap 1 ++ LF.
Proof. reflexivity. Qed.

(** *** The paragraph pattern *)







(** *** The pattern of the closing list tags *)





(** *** The equations of the two substitutions *)








(** *** A paragraph in the text *)







(** The lines of the fallback on a text of two paragraphs and a list:
    the last line is empty, and it is kept. *)
Example fallback_lines :
  inputLines (js "<p>a</p><P>b</P><ul><li>c</li></ul>")
  = [js "a"; js "b"; js "<ul><li>c</li>"; js "</ul>"; []] /\
  convertTextToMarkdown (js "<p>a</p><p>b</p>") true = Some (js "<p>a</p><p>b</p><p></p>").
Proof. split; vm_compute; reflexivity. Qed.

(** ** The converter returns *)

(** The destructuring of the second bullet match never raises: the
    converter returns a string on every text. *)
Lemma convertTextToMarkdown_total text isText :
  exists out, convertTextToMarkdown text isText = Some out.
Proof.
  unfold convertTextToMarkdown.
  destruct (processLines_total isText (inputLines text) conv_init) as [st ->].
  rewrite processLine_null. by eexists.
Qed.

(** ** The primitives on small subjects *)

Example split_empty_pattern :
  split (js "ab") {| re := Empty; ignoreCase := false |} = [js "a"; js "b"].
Proof. reflexivity. Qed.

Example split_with_capture :
  split (js "a-b") {| re := Group 1 (Char (chr "-")); ignoreCase := false |}
  = [js "a"; js "-"; js "b"].
Proof. reflexivity. Qed.

Example replaceAll_single_pass :
  replaceAll (js "__a_b_") underline_re underline_tmpl = js "_<u>a</u>b_".
Proof. vm_compute. reflexivity. Qed.

Example replaceAll_lazy_paragraph :
  replaceAll (js "<p>a</p><P>b</p>") paragraph_re (js "[$1]") = js "[a][b]".
Proof. vm_compute. reflexivity. Qed.

(** * Further properties of the code *)

(** ** The inline rules on plain text *)

Lemma plain_no_char c (s : jsstring) :
  is_delimiter c = true -> plain s -> no_char c s.
Proof.
  intros Hc Hs. eapply Forall_impl; [exact Hs|]. intros ch Hch ->. congruence.
Qed.

Lemma no_char_app c (a b : jsstring) : no_char c a -> no_char c b -> no_char c (a ++ b).
Proof. intros. by apply Forall_app. Qed.

Lemma no_char_cons c h (s : jsstring) : h <> c -> no_char c s -> no_char c (h :: s).
Proof. intros. by constructor. Qed.

Lemma no_char_no_match c (s : jsstring) :
  nonletter c -> no_char c s ->
  Forall (fun ch => char_matches true c ch = false) s.
Proof.
  intros Hc Hs. eapply Forall_impl; [exact Hs|]. intros ch Hne.
  by apply char_matches_nonletter_false.
Qed.

Lemma char_matches_refl ic c : char_matches ic c c = true.
Proof. unfold char_matches. apply N.eqb_refl. Qed.

Lemma csm_hit p x (k : cont) ch s' :
  rest x = ch :: s' -> p ch = true -> char_set_matcher p x k = k (advance x s').
Proof. intros E Hp. unfold char_set_matcher. by rewrite E, Hp. Qed.

Lemma csm_miss p x (k : cont) ch s' :
  rest x = ch :: s' -> p ch = false -> char_set_matcher p x k = None.
Proof. intros E Hp. unfold char_set_matcher. by rewrite E, Hp. Qed.

Lemma csm_nil p x (k : cont) : rest x = [] -> char_set_matcher p x k = None.
Proof. intros E. unfold char_set_matcher. by rewrite E. Qed.

(** The class [[^c]+] before a continuation that needs [c]: it takes
    the whole run of characters that are not [c], nothing less. *)
Lemma plus_notchar_commit c (k : cont) x (body tl : jsstring) fuel :
  nonletter c -> body <> [] -> no_char c body ->
  rest x = body ++ tl ->
  match tl with [] => True | h :: _ => h = c end ->
  (forall y ch s', rest y = ch :: s' -> ch <> c -> k y = None) ->
  length (rest x) < fuel ->
  repeat_matcher (char_set_matcher (fun ch => negb (char_matches true c ch)))
                 [] true (S fuel) 1 x k
  = k (adv x (length body)).
Proof.
  intros Hc Hne Hbody Hrest Htl Hk Hfuel.
  set (p := fun ch => negb (char_matches true c ch)).
  assert (Hp : forall ch, ch <> c -> p ch = true).
  { intros ch H. unfold p. by rewrite char_matches_nonletter_false. }
  assert (Hpc : p c = false) by (unfold p; by rewrite char_matches_refl).
  assert (Hall : Forall (fun ch => p ch = true) body).
  { eapply Forall_impl; [exact Hbody|]. exact Hp. }
  destruct body as [|b0 body]; [done|].
  apply Forall_cons in Hall as [Hb0 Hall].
  rewrite plus_class_first, Hrest. cbn [app]. rewrite Hb0.
  rewrite (star_class_commit p k) with (s := body ++ tl).
  - rewrite take_while_app, drop_while_app by done.
    assert (Ht : take_while p tl = [] /\ drop_while p tl = tl).
    { destruct tl as [|h tl]; [done|]. subst h. simpl. by rewrite Hpc. }
    destruct Ht as [-> ->]. rewrite app_nil_r.
    unfold adv. rewrite Hrest. cbn [advance pos caps skipn length app].
    rewrite skipn_app, skipn_all, Nat.sub_diag. cbn [skipn app].
    f_equal. f_equal. lia.
  - intros y ch s' Hy Hpch. apply (Hk y ch s' Hy). intros ->. congruence.
  - done.
  - rewrite Hrest in Hfuel. simpl in Hfuel. lia.
Qed.

(** The pattern [c([^c]+)c] on [c body c ...]. *)
Lemma match_at_wrap c p (body post : jsstring) :
  nonletter c -> body <> [] -> no_char c body ->
  match_at (wrap_re c) p (c :: body ++ c :: post)
  = Some (S (S (length body)), [(1, (S p, S p + length body))]).
Proof.
  intros Hc Hne Hbody. unfold match_at, wrap_re. cbn [re ignoreCase m groups].
  rewrite (csm_hit _ _ _ c (body ++ c :: post)) by (done || apply char_matches_refl).
  unfold Plus. cbn [m groups].
  rewrite (plus_notchar_commit c _ _ body (c :: post)); try done.
  - cbn [adv advance pos rest caps].
    rewrite skipn_app, skipn_all, Nat.sub_diag. cbn [skipn app].
    rewrite (csm_hit _ _ _ c post) by (done || apply char_matches_refl).
    cbn [advance pos caps set_cap clear_caps List.filter]. f_equal. f_equal. lia.
  - intros y ch s' Hy Hch. eapply csm_miss; [exact Hy|].
    by apply char_matches_nonletter_false.
  - cbn [advance rest]. lia.
Qed.

(** One match after a prefix in which no match begins. *)
Lemma replaceAll_one_match r tmpl c (pre mtext post : jsstring) n caps :
  head_char (re r) = Some c -> bol_free (re r) = true ->
  Forall (fun ch => char_matches (ignoreCase r) c ch = false) pre ->
  length mtext = S n ->
  match_at r 0 (mtext ++ post) = Some (S n, caps) ->
  replaceAll (pre ++ mtext ++ post) r tmpl
  = pre ++ get_substitution mtext (cap_text 0 (mtext ++ post) caps)
                            (length (groups (re r))) tmpl
        ++ replaceAll post r tmpl.
Proof.
  intros Hh Hb Hpre Hlen Hm.
  rewrite (replaceAll_prefix r tmpl c Hh Hb) by done. f_equal.
  rewrite (replaceAll_at_match r tmpl _ n caps Hb Hm).
  by rewrite <- Hlen, take_app_length, drop_app_length.
Qed.

Lemma subst_underline (mt : jsstring) (cap : nat -> jsstring) :
  get_substitution mt cap 1 underline_tmpl = js "<u>" ++ cap 1 ++ js "</u>".
Proof. reflexivity. Qed.

Lemma subst_bold (mt : jsstring) (cap : nat -> jsstring) :
  get_substitution mt cap 1 bold_tmpl = js "<b>" ++ cap 1 ++ js "</b>".
Proof. reflexivity. Qed.

Lemma subst_italic (mt : jsstring) (cap : nat -> jsstring) :
  get_substitution mt cap 1 italic_tmpl = js "<em>" ++ cap 1 ++ js "</em>".
Proof. reflexivity. Qed.

Lemma subst_strike (mt : jsstring) (cap : nat -> jsstring) :
  get_substitution mt cap 1 strike_tmpl = js "<s>" ++ cap 1 ++ js "</s>".
Proof. reflexivity. Qed.

Lemma subst_link (mt : jsstring) (cap : nat -> jsstring) :
  get_substitution mt cap 2 link_tmpl
  = js "<a href=" ++ dquote ++ cap 2 ++ dquote ++ js ">" ++ cap 1 ++ js "</a>".
Proof. reflexivity. Qed.

Lemma subst_glyph (mt : jsstring) (cap : nat -> jsstring) :
  get_substitution mt cap 0 unchecked_glyph = unchecked_glyph /\
  get_substitution mt cap 0 checked_glyph = checked_glyph.
Proof. split; reflexivity. Qed.

(** The pass of a wrapping rule over [pre c body c post]. *)
Lemma replaceAll_wrap c tmpl (pre body post : jsstring) :
  nonletter c -> no_char c pre -> body <> [] -> no_char c body ->
  replaceAll (pre ++ c :: body ++ c :: post) (wrap_re c) tmpl
  = pre ++ get_substitution (c :: body ++ [c]) (fun n => if n =? 1 then body else [])
                            1 tmpl
        ++ replaceAll post (wrap_re c) tmpl.
Proof.
  intros Hc Hpre Hne Hbody.
  pose proof (match_at_wrap c 0 body post Hc Hne Hbody) as Hm.
  replace ((c :: body ++ c :: post)) with ((c :: body ++ [c]) ++ post)
    by (cbn [app]; by rewrite <- app_assoc).
  replace ((c :: body ++ c :: post)) with ((c :: body ++ [c]) ++ post) in Hm
    by (cbn [app]; by rewrite <- app_assoc).
  rewrite (replaceAll_one_match (wrap_re c) tmpl c pre (c :: body ++ [c]) post
             (S (length body)) [(1, (1, 1 + length body))] eq_refl eq_refl);
    try done.
  - do 2 f_equal. apply get_substitution_ext. intros n.
    unfold cap_text, get_cap. cbn [List.find fst snd].
    destruct (Nat.eqb_spec 1 n) as [<-|Hn].
    + cbn [Nat.eqb snd Nat.sub skipn app].
      replace (1 + length body - 1) with (length body) by lia.
      rewrite <- app_assoc. apply take_app_length.
    + destruct n as [|[|n]]; try done.
  - by apply no_char_no_match.
  - cbn [length]. rewrite length_app. simpl. lia.
Qed.

Lemma pass_id r tmpl c (s : jsstring) :
  head_char (re r) = Some c -> bol_free (re r) = true -> ignoreCase r = true ->
  nonletter c -> no_char c s -> replaceAll s r tmpl = s.
Proof.
  intros Hh Hb Hic Hc Hs. apply (replaceAll_id r tmpl c Hh Hb).
  rewrite Hic. by apply no_char_no_match.
Qed.

(** A pass over a text whose only [c] begins no match. *)
Lemma replaceAll_lonely r tmpl c (pre post : jsstring) :
  head_char (re r) = Some c -> bol_free (re r) = true -> ignoreCase r = true ->
  nonletter c -> no_char c pre -> no_char c post ->
  (forall p, match_at r p (c :: post) = None) ->
  replaceAll (pre ++ c :: post) r tmpl = pre ++ c :: post.
Proof.
  intros Hh Hb Hic Hc Hpre Hpost Hm.
  rewrite (replaceAll_prefix r tmpl c Hh Hb)
    by (rewrite Hic; by apply no_char_no_match).
  f_equal. unfold replaceAll. rewrite replace_go_nomatch by apply Hm.
  f_equal. rewrite (replace_go_pos r tmpl Hb _ 1 0).
  by apply (pass_id r tmpl c).
Qed.

(** An opening [c] with no closing [c] after it matches nothing. *)
Lemma match_at_wrap_unclosed c p (post : jsstring) :
  nonletter c -> no_char c post -> match_at (wrap_re c) p (c :: post) = None.
Proof.
  intros Hc Hpost. unfold match_at.
  destruct (m _ _ _ _) as [z|] eqn:E; [|done]. exfalso.
  unfold wrap_re in E. cbn [re ignoreCase m] in E.
  apply char_set_matcher_sound in E as (ch & s' & [= <- <-] & _ & E).
  apply m_sound in E as (y & (w & Hw & _) & E).
  apply char_set_matcher_sound in E as (ch2 & s2 & Hy & Hm & _).
  apply char_matches_nonletter in Hm as ->; [|done].
  cbn [advance Regex.rest] in Hw, Hy.
  rewrite Hw, Hy in Hpost. apply Forall_app in Hpost as [_ Hpost].
  by apply Forall_cons in Hpost as [? _].
Qed.

(** The bold pattern needs two stars in a row. *)
Lemma match_at_bold_single p (s : jsstring) :
  match s with [] => True | h :: _ => h <> STAR end ->
  match_at bold_re p (STAR :: s) = None.
Proof.
  intros Hs. unfold match_at, bold_re. cbn [re ignoreCase m].
  rewrite (csm_hit _ _ _ STAR s) by done.
  destruct s as [|h s].
  - by rewrite csm_nil.
  - rewrite (csm_miss _ _ _ h s); [done|done|].
    apply char_matches_nonletter_false; [|done]. vm_compute. intuition congruence.
Qed.

Ltac nonletter_tac := unfold nonletter; vm_compute; intuition congruence.

Ltac no_char_tac :=
  repeat match goal with
         | |- no_char _ (_ ++ _) => apply no_char_app
         | |- no_char _ (_ :: _) => apply no_char_cons; [discriminate|]
         | |- no_char _ [] => apply Forall_nil_2
         end;
  try first [ assumption
            | apply plain_no_char; [reflexivity|assumption]
            | unfold no_char; repeat constructor; discriminate ].

(** A line that holds none of the four characters [_], [*], [~] and
    the opening bracket is left as it is. *)
Lemma convertLineToMarkdown_plain (line : jsstring) :
  plain line -> convertLineToMarkdown line = line.
Proof.
  intros H. unfold convertLineToMarkdown. cbv zeta.
  rewrite (pass_id underline_re _ (chr "_")); try reflexivity; try nonletter_tac;
    try (by apply plain_no_char).
  rewrite (pass_id bold_re _ STAR); try reflexivity; try nonletter_tac;
    try (by apply plain_no_char).
  rewrite (pass_id italic_re _ STAR); try reflexivity; try nonletter_tac;
    try (by apply plain_no_char).
  rewrite (pass_id strike_re _ (chr "~")); try reflexivity; try nonletter_tac;
    try (by apply plain_no_char).
  rewrite (pass_id link_re _ (chr "[")); try reflexivity; try nonletter_tac;
    try (by apply plain_no_char).
  rewrite (pass_id unchecked_re _ (chr "[")); try reflexivity; try nonletter_tac;
    try (by apply plain_no_char).
  rewrite (pass_id checked_re _ (chr "[")); try reflexivity; try nonletter_tac;
    try (by apply plain_no_char).
Qed.

Ltac idp R C :=
  rewrite (pass_id R _ C);
  [ | reflexivity | reflexivity | reflexivity | nonletter_tac | no_char_tac ].

(** X1: [_body_] between plain texts becomes underline markup around
    [body]. *)
Theorem underline_rule (pre body post : jsstring) :
  plain pre -> plain body -> plain post -> body <> [] ->
  convertLineToMarkdown (pre ++ js "_" ++ body ++ js "_" ++ post)
  = pre ++ js "<u>" ++ body ++ js "</u>" ++ post.
Proof.
  intros Hpre Hbody Hpost Hne. unfold convertLineToMarkdown. cbv zeta.
  change (js "_" ++ body ++ js "_" ++ post) with (chr "_" :: body ++ chr "_" :: post).
  change underline_re with (wrap_re (chr "_")).
  rewrite replaceAll_wrap; [|nonletter_tac|no_char_tac|done|no_char_tac].
  rewrite subst_underline. cbn [Nat.eqb].
  change (wrap_re (chr "_")) with underline_re.
  idp underline_re (chr "_").
  idp bold_re STAR. idp italic_re STAR. idp strike_re (chr "~").
  idp link_re (chr "["). idp unchecked_re (chr "["). idp checked_re (chr "[").
  by rewrite <- !app_assoc.
Qed.

Lemma underline_rule_witness :
  convertLineToMarkdown (js "an " ++ js "_" ++ js "old oak" ++ js "_" ++ js "!")
  = js "an " ++ js "<u>" ++ js "old oak" ++ js "</u>" ++ js "!".
Proof.
  apply (underline_rule (js "an ") (js "old oak") (js "!"));
    [repeat constructor | repeat constructor | repeat constructor | discriminate].
Defined.

(** X2: [~body~] between plain texts becomes strike markup around
    [body]. *)
Theorem strike_rule (pre body post : jsstring) :
  plain pre -> plain body -> plain post -> body <> [] ->
  convertLineToMarkdown (pre ++ js "~" ++ body ++ js "~" ++ post)
  = pre ++ js "<s>" ++ body ++ js "</s>" ++ post.
Proof.
  intros Hpre Hbody Hpost Hne. unfold convertLineToMarkdown. cbv zeta.
  change (js "~" ++ body ++ js "~" ++ post) with (chr "~" :: body ++ chr "~" :: post).
  idp underline_re (chr "_"). idp bold_re STAR. idp italic_re STAR.
  change strike_re with (wrap_re (chr "~")).
  rewrite replaceAll_wrap; [|nonletter_tac|no_char_tac|done|no_char_tac].
  rewrite subst_strike. cbn [Nat.eqb].
  change (wrap_re (chr "~")) with strike_re.
  idp strike_re (chr "~").
  idp link_re (chr "["). idp unchecked_re (chr "["). idp checked_re (chr "[").
  by rewrite <- !app_assoc.
Qed.

Lemma strike_rule_witness :
  convertLineToMarkdown (js "an " ++ js "~" ++ js "old oak" ++ js "~" ++ js "!")
  = js "an " ++ js "<s>" ++ js "old oak" ++ js "</s>" ++ js "!".
Proof.
  apply (strike_rule (js "an ") (js "old oak") (js "!"));
    [repeat constructor | repeat constructor | repeat constructor | discriminate].
Defined.

(** The bold pass leaves a text alone whose two stars are apart. *)
Lemma bold_pass_two_single_stars (pre body post : jsstring) :
  no_char STAR pre -> no_char STAR body -> no_char STAR post -> body <> [] ->
  replaceAll (pre ++ STAR :: body ++ STAR :: post) bold_re bold_tmpl
  = pre ++ STAR :: body ++ STAR :: post.
Proof.
  intros Hpre Hbody Hpost Hne.
  rewrite (replaceAll_prefix bold_re bold_tmpl STAR eq_refl eq_refl)
    by (apply no_char_no_match; [nonletter_tac|done]).
  f_equal. unfold replaceAll. rewrite replace_go_nomatch.
  - f_equal. rewrite (replace_go_pos bold_re bold_tmpl eq_refl _ 1 0).
    apply (replaceAll_lonely bold_re bold_tmpl STAR); try done; try nonletter_tac.
    intros p. apply match_at_bold_single.
    destruct post as [|h post]; [done|]. by apply Forall_cons in Hpost as [? _].
  - apply match_at_bold_single. destruct body as [|h body]; [done|].
    by apply Forall_cons in Hbody as [? _].
Qed.

(** X3: [*body*] between plain texts becomes italic markup around
    [body]. *)
Theorem italic_rule (pre body post : jsstring) :
  plain pre -> plain body -> plain post -> body <> [] ->
  convertLineToMarkdown (pre ++ js "*" ++ body ++ js "*" ++ post)
  = pre ++ js "<em>" ++ body ++ js "</em>" ++ post.
Proof.
  intros Hpre Hbody Hpost Hne. unfold convertLineToMarkdown. cbv zeta.
  change (js "*" ++ body ++ js "*" ++ post) with (STAR :: body ++ STAR :: post).
  idp underline_re (chr "_").
  rewrite bold_pass_two_single_stars; [|no_char_tac|no_char_tac|no_char_tac|done].
  change italic_re with (wrap_re STAR).
  rewrite replaceAll_wrap; [|nonletter_tac|no_char_tac|done|no_char_tac].
  rewrite subst_italic. cbn [Nat.eqb].
  change (wrap_re STAR) with italic_re.
  idp italic_re STAR. idp strike_re (chr "~").
  idp link_re (chr "["). idp unchecked_re (chr "["). idp checked_re (chr "[").
  by rewrite <- !app_assoc.
Qed.

Lemma italic_rule_witness :
  convertLineToMarkdown (js "an " ++ js "*" ++ js "old oak" ++ js "*" ++ js "!")
  = js "an " ++ js "<em>" ++ js "old oak" ++ js "</em>" ++ js "!".
Proof.
  apply (italic_rule (js "an ") (js "old oak") (js "!"));
    [repeat constructor | repeat constructor | repeat constructor | discriminate].
Defined.

(** The bold pattern on [**body**...]. *)
Lemma match_at_bold p (body post : jsstring) :
  body <> [] -> no_char STAR body ->
  match_at bold_re p (STAR :: STAR :: body ++ STAR :: STAR :: post)
  = Some (4 + length body, [(1, (2 + p, 2 + p + length body))]).
Proof.
  intros Hne Hbody. unfold match_at, bold_re. cbn [re ignoreCase m groups].
  rewrite (csm_hit _ _ _ STAR (STAR :: body ++ STAR :: STAR :: post)) by done.
  rewrite (csm_hit _ _ _ STAR (body ++ STAR :: STAR :: post)) by done.
  unfold Plus. cbn [m groups].
  rewrite (plus_notchar_commit STAR _ _ body (STAR :: STAR :: post)); try done.
  - cbn [adv advance pos rest caps].
    rewrite skipn_app, skipn_all, Nat.sub_diag. cbn [skipn app].
    rewrite (csm_hit _ _ _ STAR (STAR :: post)) by done.
    rewrite (csm_hit _ _ _ STAR post) by done.
    cbn [advance pos caps set_cap clear_caps List.filter]. f_equal. f_equal. lia.
  - nonletter_tac.
  - intros y ch s' Hy Hch. eapply csm_miss; [exact Hy|].
    apply char_matches_nonletter_false; [nonletter_tac|done].
  - cbn [advance rest]. lia.
Qed.

(** X4: [**body**] between plain texts becomes bold markup around
    [body]. *)
Theorem bold_rule (pre body post : jsstring) :
  plain pre -> plain body -> plain post -> body <> [] ->
  convertLineToMarkdown (pre ++ js "**" ++ body ++ js "**" ++ post)
  = pre ++ js "<b>" ++ body ++ js "</b>" ++ post.
Proof.
  intros Hpre Hbody Hpost Hne. unfold convertLineToMarkdown. cbv zeta.
  change (js "**" ++ body ++ js "**" ++ post)
    with (STAR :: STAR :: body ++ STAR :: STAR :: post).
  idp underline_re (chr "_").
  assert (Hb : no_char STAR body) by no_char_tac.
  pose proof (match_at_bold 0 body post Hne Hb) as Hm.
  replace (STAR :: STAR :: body ++ STAR :: STAR :: post)
    with ((STAR :: STAR :: body ++ [STAR; STAR]) ++ post) in Hm |- *
    by (cbn [app]; by rewrite <- app_assoc).
  rewrite (replaceAll_one_match bold_re bold_tmpl STAR pre
             (STAR :: STAR :: body ++ [STAR; STAR]) post (3 + length body)
             [(1, (2, 2 + length body))] eq_refl eq_refl);
    [| apply no_char_no_match; [nonletter_tac|no_char_tac]
     | cbn [length]; rewrite length_app; simpl; lia
     | exact Hm].
  rewrite subst_bold.
  assert (Hcap : cap_text 0 ((STAR :: STAR :: body ++ [STAR; STAR]) ++ post)
                   [(1, (2, 2 + length body))] 1 = body).
  { unfold cap_text, get_cap. cbn [List.find fst snd Nat.eqb Nat.sub skipn app].
    replace (2 + length body - 2) with (length body) by lia.
    rewrite <- app_assoc. apply take_app_length. }
  rewrite Hcap.
  idp bold_re STAR. idp italic_re STAR. idp strike_re (chr "~").
  idp link_re (chr "["). idp unchecked_re (chr "["). idp checked_re (chr "[").
  by rewrite <- !app_assoc.
Qed.

Lemma bold_rule_witness :
  convertLineToMarkdown (js "an " ++ js "**" ++ js "old oak" ++ js "**" ++ js "!")
  = js "an " ++ js "<b>" ++ js "old oak" ++ js "</b>" ++ js "!".
Proof.
  apply (bold_rule (js "an ") (js "old oak") (js "!"));
    [repeat constructor | repeat constructor | repeat constructor | discriminate].
Defined.

(** X5: a single [_], [*] or [~] in a line that holds no other of the
    four characters stays in the line as it is: no rule fires without
    its closing character. *)
Theorem lone_delimiter_unchanged (c : char) (pre post : jsstring) :
  c = chr "_" \/ c = STAR \/ c = chr "~" ->
  plain pre -> plain post ->
  convertLineToMarkdown (pre ++ c :: post) = pre ++ c :: post.
Proof.
  intros Hc Hpre Hpost. unfold convertLineToMarkdown. cbv zeta.
  destruct Hc as [-> | [-> | ->]].
  - change underline_re with (wrap_re (chr "_")).
    rewrite (replaceAll_lonely (wrap_re (chr "_")) _ (chr "_")); try reflexivity;
      try nonletter_tac; try no_char_tac;
      [|intros p; apply match_at_wrap_unclosed; [nonletter_tac|no_char_tac]].
    idp bold_re STAR. idp italic_re STAR. idp strike_re (chr "~").
    idp link_re (chr "["). idp unchecked_re (chr "["). idp checked_re (chr "[").
    done.
  - idp underline_re (chr "_").
    rewrite (replaceAll_lonely bold_re _ STAR); try reflexivity;
      try nonletter_tac; try no_char_tac;
      [|intros p; apply match_at_bold_single; destruct post as [|h post]; [done|];
        by apply Forall_cons in Hpost as [? _]; intros ->].
    change italic_re with (wrap_re STAR).
    rewrite (replaceAll_lonely (wrap_re STAR) _ STAR); try reflexivity;
      try nonletter_tac; try no_char_tac;
      [|intros p; apply match_at_wrap_unclosed; [nonletter_tac|no_char_tac]].
    idp strike_re (chr "~").
    idp link_re (chr "["). idp unchecked_re (chr "["). idp checked_re (chr "[").
    done.
  - idp underline_re (chr "_"). idp bold_re STAR. idp italic_re STAR.
    change strike_re with (wrap_re (chr "~")).
    rewrite (replaceAll_lonely (wrap_re (chr "~")) _ (chr "~")); try reflexivity;
      try nonletter_tac; try no_char_tac;
      [|intros p; apply match_at_wrap_unclosed; [nonletter_tac|no_char_tac]].
    idp link_re (chr "["). idp unchecked_re (chr "["). idp checked_re (chr "[").
    done.
Qed.

Lemma lone_delimiter_unchanged_witness :
  convertLineToMarkdown (js "2 " ++ STAR :: js " 3") = js "2 " ++ STAR :: js " 3".
Proof.
  apply (lone_delimiter_unchanged STAR (js "2 ") (js " 3"));
    [right; left; reflexivity | repeat constructor | repeat constructor].
Defined.

(** The link pattern on [[label](url)...]. *)
Lemma match_at_link p (label url post : jsstring) :
  label <> [] -> no_char (chr "]") label -> url <> [] -> no_char (chr ")") url ->
  match_at link_re p (chr "[" :: label ++ chr "]" :: chr "(" :: url ++ chr ")" :: post)
  = Some (4 + length label + length url,
          [(2, (3 + p + length label, 3 + p + length label + length url));
           (1, (1 + p, 1 + p + length label))]).
Proof.
  intros Hl1 Hl2 Hu1 Hu2. unfold match_at, link_re. cbn [re ignoreCase m groups].
  rewrite (csm_hit _ _ _ (chr "[") (label ++ chr "]" :: chr "(" :: url ++ chr ")" :: post))
    by done.
  unfold Plus. cbn [m groups].
  rewrite (plus_notchar_commit (chr "]") _ _ label
             (chr "]" :: chr "(" :: url ++ chr ")" :: post)); try done.
  - cbn [adv advance pos rest caps].
    rewrite skipn_app, skipn_all, Nat.sub_diag. cbn [skipn app].
    rewrite (csm_hit _ _ _ (chr "]") (chr "(" :: url ++ chr ")" :: post)) by done.
    rewrite (csm_hit _ _ _ (chr "(") (url ++ chr ")" :: post)) by done.
    rewrite (plus_notchar_commit (chr ")") _ _ url (chr ")" :: post)); try done.
    + cbn [adv advance pos rest caps].
      rewrite skipn_app, skipn_all, Nat.sub_diag. cbn [skipn app].
      rewrite (csm_hit _ _ _ (chr ")") post) by done.
      cbn [advance pos caps].
      cbv [set_cap clear_caps List.filter existsb negb orb fst Nat.eqb].
      repeat first [ lia | progress f_equal ].
    + nonletter_tac.
    + intros y ch s' Hy Hch. eapply csm_miss; [exact Hy|].
      apply char_matches_nonletter_false; [nonletter_tac|done].
    + cbn [advance rest length]. rewrite !length_app. cbn [length]. lia.
  - nonletter_tac.
  - intros y ch s' Hy Hch. eapply csm_miss; [exact Hy|].
    apply char_matches_nonletter_false; [nonletter_tac|done].
  - cbn [advance rest]. lia.
Qed.

Lemma slice_app {A} (x y z : list A) k n :
  k = length x -> n = length y -> firstn n (skipn k (x ++ y ++ z)) = y.
Proof.
  intros -> ->. rewrite skipn_app, skipn_all, Nat.sub_diag. cbn [skipn app].
  apply take_app_length.
Qed.

(** X6: [[label](url)] between plain texts becomes an anchor with the
    url as its [href] and the label as its text. *)
Theorem link_rule (pre label url post : jsstring) :
  plain pre -> plain label -> plain url -> plain post ->
  label <> [] -> no_char (chr "]") label -> url <> [] -> no_char (chr ")") url ->
  convertLineToMarkdown (pre ++ js "[" ++ label ++ js "](" ++ url ++ js ")" ++ post)
  = pre ++ js "<a href=" ++ dquote ++ url ++ dquote ++ js ">" ++ label ++ js "</a>"
        ++ post.
Proof.
  intros Hpre Hlabel Hurl Hpost Hl1 Hl2 Hu1 Hu2.
  unfold convertLineToMarkdown. cbv zeta.
  change (js "[" ++ label ++ js "](" ++ url ++ js ")" ++ post)
    with (chr "[" :: label ++ chr "]" :: chr "(" :: url ++ chr ")" :: post).
  idp underline_re (chr "_"). idp bold_re STAR. idp italic_re STAR.
  idp strike_re (chr "~").
  pose proof (match_at_link 0 label url post Hl1 Hl2 Hu1 Hu2) as Hm.
  assert (Hre : chr "[" :: label ++ chr "]" :: chr "(" :: url ++ chr ")" :: post
                = (chr "[" :: label ++ chr "]" :: chr "(" :: url ++ [chr ")"]) ++ post).
  { cbn [app]. f_equal. rewrite <- app_assoc. cbn [app]. do 3 f_equal.
    by rewrite <- app_assoc. }
  rewrite Hre in Hm |- *.
  rewrite (replaceAll_one_match link_re link_tmpl (chr "[") pre
             (chr "[" :: label ++ chr "]" :: chr "(" :: url ++ [chr ")"]) post
             (3 + length label + length url)
             [(2, (3 + 0 + length label, 3 + 0 + length label + length url));
              (1, (1 + 0, 1 + 0 + length label))] eq_refl eq_refl);
    [| apply no_char_no_match; [nonletter_tac|no_char_tac]
     | cbn [length]; rewrite !length_app; cbn [length]; rewrite length_app;
       cbn [length]; lia
     | exact Hm].
  rewrite subst_link, <- Hre.
  assert (Hc1 : cap_text 0
                  (chr "[" :: label ++ chr "]" :: chr "(" :: url ++ chr ")" :: post)
                  [(2, (3 + 0 + length label, 3 + 0 + length label + length url));
                   (1, (1 + 0, 1 + 0 + length label))] 1 = label).
  { unfold cap_text, get_cap. cbn [List.find fst snd Nat.eqb].
    apply (slice_app [chr "["] label); simpl; lia. }
  assert (Hc2 : cap_text 0
                  (chr "[" :: label ++ chr "]" :: chr "(" :: url ++ chr ")" :: post)
                  [(2, (3 + 0 + length label, 3 + 0 + length label + length url));
                   (1, (1 + 0, 1 + 0 + length label))] 2 = url).
  { unfold cap_text, get_cap. cbn [List.find fst snd Nat.eqb].
    replace (chr "[" :: label ++ chr "]" :: chr "(" :: url ++ chr ")" :: post)
      with ((chr "[" :: label ++ js "](") ++ url ++ chr ")" :: post)
      by (cbn [app]; by rewrite <- app_assoc).
    apply slice_app; [|lia]. cbn [length]. rewrite length_app. simpl. lia. }
  rewrite Hc1, Hc2.
  idp link_re (chr "["). idp unchecked_re (chr "["). idp checked_re (chr "[").
  by rewrite <- !app_assoc.
Qed.

Lemma link_rule_witness :
  convertLineToMarkdown
    (js "see " ++ js "[" ++ js "the board" ++ js "](" ++ js "https://miro.com" ++ js ")"
       ++ js ".")
  = js "see " ++ js "<a href=" ++ dquote ++ js "https://miro.com" ++ dquote ++ js ">"
      ++ js "the board" ++ js "</a>" ++ js ".".
Proof.
  apply (link_rule (js "see ") (js "the board") (js "https://miro.com") (js "."));
    try discriminate; unfold no_char; repeat constructor; discriminate.
Defined.

(** With no parenthesis after the closing bracket the link pattern
    does not match. *)
Lemma match_at_link_no_paren p (label post : jsstring) :
  label <> [] -> no_char (chr "]") label ->
  match post with [] => True | h :: _ => h <> chr "(" end ->
  match_at link_re p (chr "[" :: label ++ chr "]" :: post) = None.
Proof.
  intros Hl1 Hl2 Hpost. unfold match_at, link_re. cbn [re ignoreCase m groups].
  rewrite (csm_hit _ _ _ (chr "[") (label ++ chr "]" :: post)) by done.
  unfold Plus. cbn [m groups].
  rewrite (plus_notchar_commit (chr "]") _ _ label (chr "]" :: post)); try done.
  - cbn [adv advance pos rest caps].
    rewrite skipn_app, skipn_all, Nat.sub_diag. cbn [skipn app].
    rewrite (csm_hit _ _ _ (chr "]") post) by done.
    destruct post as [|h post]; [by rewrite csm_nil|].
    rewrite (csm_miss _ _ _ h post); [done|done|].
    apply char_matches_nonletter_false; [nonletter_tac|done].
  - nonletter_tac.
  - intros y ch s' Hy Hch. eapply csm_miss; [exact Hy|].
    apply char_matches_nonletter_false; [nonletter_tac|done].
  - cbn [advance rest]. lia.
Qed.

Lemma match_at_lit r l p (s : jsstring) :
  re r = lit l -> ignoreCase r = true ->
  match_at r p s = if ci_prefix l s then Some (length l, []) else None.
Proof.
  intros Hr Hic. unfold match_at. rewrite Hr, Hic, m_lit. cbn [rest].
  destruct (ci_prefix l s); [|done]. cbn [adv pos caps]. do 2 f_equal. lia.
Qed.

(** X7: [[ ]] between plain texts, with no parenthesis right after it,
    becomes the unchecked glyph. *)
Theorem unchecked_rule (pre post : jsstring) :
  plain pre -> plain post ->
  match post with [] => True | h :: _ => h <> chr "(" end ->
  convertLineToMarkdown (pre ++ js "[ ]" ++ post) = pre ++ unchecked_glyph ++ post.
Proof.
  intros Hpre Hpost Hparen. unfold convertLineToMarkdown. cbv zeta.
  change (js "[ ]" ++ post) with (chr "[" :: js " ]" ++ post).
  idp underline_re (chr "_"). idp bold_re STAR. idp italic_re STAR.
  idp strike_re (chr "~").
  rewrite (replaceAll_lonely link_re _ (chr "[")); try reflexivity;
    try nonletter_tac; try no_char_tac;
    [|intros p; apply (match_at_link_no_paren p (js " ") post); try done;
      no_char_tac].
  change (chr "[" :: js " ]" ++ post) with (js "[ ]" ++ post).
  rewrite (replaceAll_one_match unchecked_re unchecked_glyph (chr "[") pre
             (js "[ ]") post 2 [] eq_refl eq_refl);
    [| apply no_char_no_match; [nonletter_tac|no_char_tac]
     | reflexivity
     | by rewrite (match_at_lit unchecked_re (js "[ ]")), ci_prefix_app_true ].
  rewrite (proj1 (subst_glyph _ _)).
  idp unchecked_re (chr "["). idp checked_re (chr "[").
  done.
Qed.

Lemma unchecked_rule_witness :
  convertLineToMarkdown (js "- " ++ js "[ ]" ++ js " milk")
  = js "- " ++ unchecked_glyph ++ js " milk".
Proof.
  apply (unchecked_rule (js "- ") (js " milk"));
    [repeat constructor | repeat constructor | discriminate].
Defined.

(** X8: [[x]] and [[X]] between plain texts, with no parenthesis right
    after, become the checked glyph. *)
Theorem checked_rule (x : char) (pre post : jsstring) :
  x = chr "x" \/ x = chr "X" ->
  plain pre -> plain post ->
  match post with [] => True | h :: _ => h <> chr "(" end ->
  convertLineToMarkdown (pre ++ js "[" ++ [x] ++ js "]" ++ post)
  = pre ++ checked_glyph ++ post.
Proof.
  intros Hx Hpre Hpost Hparen. unfold convertLineToMarkdown. cbv zeta.
  change (js "[" ++ [x] ++ js "]" ++ post) with (chr "[" :: [x] ++ chr "]" :: post).
  assert (Hxd : is_delimiter x = false) by (by destruct Hx as [-> | ->]).
  assert (Hxp : plain [x]) by (by repeat constructor).
  assert (Hxb : no_char (chr "]") [x])
    by (destruct Hx as [-> | ->]; repeat constructor; discriminate).
  idp underline_re (chr "_"). idp bold_re STAR. idp italic_re STAR.
  idp strike_re (chr "~").
  rewrite (replaceAll_lonely link_re _ (chr "[")); try reflexivity;
    try nonletter_tac; try no_char_tac;
    [|intros p; by apply (match_at_link_no_paren p [x] post)].
  rewrite (replaceAll_lonely unchecked_re _ (chr "[")); try reflexivity;
    try nonletter_tac; try no_char_tac;
    [|intros p; rewrite (match_at_lit unchecked_re (js "[ ]")) by done;
      by destruct Hx as [-> | ->]].
  change (chr "[" :: [x] ++ chr "]" :: post) with ((chr "[" :: [x] ++ js "]") ++ post).
  rewrite (replaceAll_one_match checked_re checked_glyph (chr "[") pre
             (chr "[" :: [x] ++ js "]") post 2 [] eq_refl eq_refl);
    [| apply no_char_no_match; [nonletter_tac|no_char_tac]
     | reflexivity
     | rewrite (match_at_lit checked_re (js "[x]")) by done;
       by destruct Hx as [-> | ->] ].
  rewrite (proj2 (subst_glyph _ _)).
  idp checked_re (chr "[").
  done.
Qed.

Lemma checked_rule_witness :
  convertLineToMarkdown (js "- " ++ js "[" ++ [chr "X"] ++ js "]" ++ js " milk")
  = js "- " ++ checked_glyph ++ js " milk".
Proof.
  apply (checked_rule (chr "X") (js "- ") (js " milk"));
    [right; reflexivity | repeat constructor | repeat constructor | discriminate].
Defined.

(** ** Texts without bullets *)

Lemma emit_line isText pl st :
  emit isText (Some pl) st =
  {| outputLines := outputLines st ++ [emitted isText pl];
     liLines := liLines st; liSpaces := liSpaces st |}.
Proof. reflexivity. Qed.

Lemma not_bullet_line l :
  match_ l bullet_re = None -> is_bullet (convertLineToMarkdown l) = false.
Proof.
  rewrite match_bullet_re. destruct (is_bullet l) eqn:E; [done|]. intros _.
  by apply convertLineToMarkdown_not_bullet.
Qed.

(** Lines that are no bullets are emitted one by one, in order. *)
Lemma processLines_plain isText lines : forall st,
  liLines st = [] ->
  Forall (fun l => match_ l bullet_re = None) lines ->
  processLines isText lines st =
  Some {| outputLines :=
            outputLines st ++ map (fun l => emitted isText (convertLineToMarkdown l)) lines;
          liLines := []; liSpaces := liSpaces st |}.
Proof.
  induction lines as [|l lines IH]; intros st Hli Hall.
  - simpl. rewrite app_nil_r. destruct st. simpl in Hli. by subst.
  - apply Forall_cons in Hall as [Hl Hall]. cbn [processLines].
    rewrite processLine_plain by by apply not_bullet_line.
    rewrite Hli. cbn [length Nat.ltb Nat.leb]. rewrite emit_line, IH by done.
    cbn [outputLines liLines liSpaces map]. by rewrite <- app_assoc.
Qed.

(** The rendering of a text from its lines, when none is a bullet. *)
Lemma convertTextToMarkdown_lines (text : jsstring) (isText : bool) lines :
  inputLines text = lines ->
  Forall (fun l => match_ l bullet_re = None) lines ->
  convertTextToMarkdown text isText =
  Some (join (separator isText)
          (map (fun l => emitted isText (convertLineToMarkdown l)) lines)).
Proof.
  intros <- Hall. unfold convertTextToMarkdown.
  rewrite processLines_plain by done. rewrite processLine_null.
  cbn [liLines outputLines length Nat.ltb Nat.leb app]. by destruct isText.
Qed.

(** X9: a text none of whose lines begins with white space and a star
    is rendered line by line: every line is transformed, wrapped in a
    paragraph in a text field (a line that ends with a closing list tag
    is not), and the lines are joined in order, with nothing between
    them in a text field and a break between them elsewhere. *)
Theorem text_without_bullets (text : jsstring) (isText : bool) :
  Forall (fun l => match_ l bullet_re = None) (inputLines text) ->
  convertTextToMarkdown text isText =
  Some (join (separator isText)
          (map (fun l => emitted isText (convertLineToMarkdown l)) (inputLines text))).
Proof.
  intros Hall. by apply convertTextToMarkdown_lines.
Qed.

Lemma text_without_bullets_witness :
  convertTextToMarkdown (js "a_b_<br>c") false =
  Some (join (separator false)
          (map (fun l => emitted false (convertLineToMarkdown l))
               (inputLines (js "a_b_<br>c")))).
Proof.
  apply (text_without_bullets (js "a_b_<br>c") false).
  vm_compute. repeat constructor.
Defined.

(** ** The two branches of the block splitter *)

Lemma split_break_free (text : jsstring) :
  break_free text -> split text break_re = [text].
Proof.
  intros H. destruct text as [|ch s]; [done|].
  rewrite split_nonempty_text by done. by apply split_go_break_none.
Qed.

(** X10: the fallback is taken when the text holds no break, and only
    then: a text with no break in it is re-split after the two
    substitutions, a text with a break in it gives the lines of the
    primary split, two at least. *)
Theorem fallback_iff_no_break :
  (forall text : jsstring,
     break_free text -> inputLines text = split (fallback_text text) lf_re) /\
  (forall a d b : jsstring,
     is_break d = true ->
     inputLines (a ++ d ++ b) = split (a ++ d ++ b) break_re /\
     2 <= length (inputLines (a ++ d ++ b))).
Proof.
  split.
  - intros text H. unfold inputLines. by rewrite split_break_free.
  - intros a d b Hd.
    assert (Hne : a ++ d ++ b <> []).
    { apply is_break_len, break_len_bounds in Hd. destruct a; [|done].
      destruct d; [simpl in Hd; lia|done]. }
    pose proof (split_go_break_some d b Hd a []) as Hlen.
    rewrite <- split_nonempty_text in Hlen by done.
    assert (E : inputLines (a ++ d ++ b) = split (a ++ d ++ b) break_re).
    { unfold inputLines.
      destruct (split (a ++ d ++ b) break_re) as [|l0 [|l1 ls]]; simpl in Hlen;
        [lia|lia|done]. }
    by rewrite E.
Qed.

Lemma fallback_iff_no_break_witness :
  inputLines (js "ab") = split (fallback_text (js "ab")) lf_re /\
  inputLines (js "a" ++ js "&nbsp;" ++ js "b") = split (js "a" ++ js "&nbsp;" ++ js "b") break_re /\
  2 <= length (inputLines (js "a" ++ js "&nbsp;" ++ js "b")).
Proof.
  split.
  - apply (proj1 fallback_iff_no_break (js "ab")).
    apply tag_free_break_free. repeat constructor.
  - apply (proj2 fallback_iff_no_break (js "a") (js "&nbsp;") (js "b")). reflexivity.
Defined.

(** ** Texts without markup *)

(** A pass finds nothing where its pattern matches at no index. *)
Lemma replaceAll_no_match r tmpl (s : jsstring) :
  bol_free (re r) = true ->
  (forall a b, s = a ++ b -> match_at r 0 b = None) ->
  replaceAll s r tmpl = s.
Proof.
  intros Hb. unfold replaceAll. induction s as [|ch s IH]; intros Hs.
  - cbn [replace_go]. by rewrite (Hs [] [] eq_refl).
  - rewrite replace_go_nomatch by apply (Hs [] (ch :: s) eq_refl).
    f_equal. rewrite (replace_go_pos r tmpl Hb _ 1 0). apply IH.
    intros a b ->. by apply (Hs (ch :: a) b).
Qed.

Lemma ci_prefix_tag l (s : jsstring) :
  match s with [] => True | h :: _ => h <> chr "<" end ->
  ci_prefix (chr "<" :: l) s = false.
Proof.
  intros Hs. destruct s as [|h s]; [done|]. cbn [ci_prefix].
  rewrite char_matches_nonletter_false; [done|nonletter_tac|done].
Qed.

Lemma match_at_paragraph_no_tag p (s : jsstring) :
  match s with [] => True | h :: _ => h <> chr "<" end ->
  match_at paragraph_re p s = None.
Proof.
  intros Hs. unfold match_at, paragraph_re. cbn [re ignoreCase].
  change (m true (Seq (lit (js "<p>")) ?r) ?x ?k)
    with (m true (lit (js "<p>")) x (fun y => m true r y k)).
  rewrite m_lit. cbn [rest]. change (js "<p>") with (chr "<" :: js "p>").
  by rewrite ci_prefix_tag.
Qed.

Lemma match_at_closer_no_tag p (s : jsstring) :
  match s with [] => True | h :: _ => h <> chr "<" end ->
  match_at closer_re p s = None.
Proof.
  intros Hs. unfold match_at, closer_re. cbn [re ignoreCase].
  set (x := {| pos := p; rest := s; caps := [] |}).
  change (m true (Group 1 (Alt (lit (js "</ol>")) (Alt (lit (js "</ul>")) (lit (js "</li>")))))
            x Some)
    with (let k := fun y => Some {| pos := pos y; rest := rest y;
                                    caps := set_cap 1 (pos x, pos y) (caps y) |} in
          match m true (lit (js "</ol>")) x k with
          | Some z => Some z
          | None => match m true (lit (js "</ul>")) x k with
                    | Some z => Some z
                    | None => m true (lit (js "</li>")) x k
                    end
          end).
  cbv zeta. rewrite !m_lit. subst x. cbn [rest].
  change (js "</ol>") with (chr "<" :: js "/ol>").
  change (js "</ul>") with (chr "<" :: js "/ul>").
  change (js "</li>") with (chr "<" :: js "/li>").
  by rewrite !ci_prefix_tag.
Qed.

Lemma tag_free_suffix_head (s a b : jsstring) :
  tag_free s -> s = a ++ b ->
  match b with [] => True | h :: _ => h <> chr "<" end.
Proof.
  intros Hs ->. apply Forall_app in Hs as [_ Hb]. destruct b as [|h b]; [done|].
  apply Forall_cons in Hb as [Hh _]. by intros ->.
Qed.

Lemma fallback_text_tag_free (text : jsstring) : tag_free text -> fallback_text text = text.
Proof.
  intros H. unfold fallback_text.
  rewrite (replaceAll_no_match paragraph_re) by
    (done || (intros a b E; apply match_at_paragraph_no_tag;
              by eapply tag_free_suffix_head)).
  apply replaceAll_no_match; [done|].
  intros a b E. apply match_at_closer_no_tag. by eapply tag_free_suffix_head.
Qed.

Lemma split_go_lf_none s : forall p cur,
  no_char 10%N s -> split_go lf_re p 0 cur s = [cur ++ s].
Proof.
  induction s as [|ch s IH]; intros p cur Hs; [by rewrite app_nil_r|].
  apply Forall_cons in Hs as [Hch Hs]. rewrite split_go_lf_cons.
  destruct (N.eqb_spec ch 10); [done|]. rewrite IH by done. by rewrite <- app_assoc.
Qed.

Lemma split_lf_none (s : jsstring) : no_char 10%N s -> split s lf_re = [s].
Proof.
  intros H. destruct s as [|ch s]; [done|].
  rewrite split_nonempty_text by done. by apply split_go_lf_none.
Qed.

Lemma tag_free_no_lf (s : jsstring) : tag_free s -> no_char 10%N s.
Proof. intros H. eapply Forall_impl; [exact H|]. by intros ch Hch ->. Qed.

(** A text with no break and no tag is its own single line. *)
Lemma inputLines_tag_free (text : jsstring) : tag_free text -> inputLines text = [text].
Proof.
  intros H. unfold inputLines.
  rewrite split_break_free by by apply tag_free_break_free.
  fold (fallback_text text). rewrite fallback_text_tag_free by done.
  by apply split_lf_none, tag_free_no_lf.
Qed.

Lemma str_eqb_eq (a b : jsstring) : str_eqb a b = true -> a = b.
Proof.
  revert b. induction a as [|x a IH]; intros [|y b]; simpl; try done.
  intros H. apply andb_true_iff in H as [Hx H]. apply N.eqb_eq in Hx as ->.
  f_equal. by apply IH.
Qed.

Lemma endsWith_suffix (s p : jsstring) : endsWith s p = true -> exists a, s = a ++ p.
Proof.
  unfold endsWith. intros H. apply andb_true_iff in H as [_ H].
  apply str_eqb_eq in H. exists (firstn (length s - length p) s).
  rewrite <- H at 2. by rewrite take_drop.
Qed.

Lemma emitted_no_closer isText (pl : jsstring) :
  no_char (chr "<") pl ->
  emitted isText pl = if isText then js "<p>" ++ pl ++ js "</p>" else pl.
Proof.
  intros H. unfold emitted.
  assert (Hno : forall t, In (chr "<") t -> endsWith pl t = false).
  { intros t Ht. destruct (endsWith pl t) eqn:E; [|done].
    apply endsWith_suffix in E as (a & ->). apply Forall_app in H as [_ H].
    rewrite Forall_forall in H. apply list_elem_of_In in Ht. by destruct (H _ Ht). }
  rewrite !Hno; [done| | |]; simpl; tauto.
Qed.

Lemma tag_free_no_lt (s : jsstring) : tag_free s -> no_char (chr "<") s.
Proof. intros H. eapply Forall_impl; [exact H|]. by intros ch Hch ->. Qed.

Lemma no_star_not_bullet (s : jsstring) : no_char STAR s -> match_ s bullet_re = None.
Proof.
  intros H. rewrite match_bullet_re. unfold is_bullet.
  rewrite <- (take_drop_while is_space s) in H. apply Forall_app in H as [_ H].
  destruct (drop_while is_space s) as [|h t]; [done|].
  apply Forall_cons in H as [Hh _]. by apply N.eqb_neq in Hh as ->.
Qed.

(** X11: a text with none of [_], [*], [~], the opening bracket, [<],
    [&] and the line feed is rendered as itself, inside one paragraph in
    a text field. *)
Theorem plain_text_rendering (text : jsstring) (isText : bool) :
  plain text -> tag_free text ->
  convertTextToMarkdown text isText =
  Some (if isText then js "<p>" ++ text ++ js "</p>" else text).
Proof.
  intros Hp Ht.
  rewrite (convertTextToMarkdown_lines text isText [text]).
  - cbn [map join]. rewrite convertLineToMarkdown_plain by done.
    by rewrite emitted_no_closer by by apply tag_free_no_lt.
  - by apply inputLines_tag_free.
  - repeat constructor. apply no_star_not_bullet. by apply plain_no_char.
Qed.

Lemma plain_text_rendering_witness :
  convertTextToMarkdown (js "hello") true = Some (js "<p>" ++ js "hello" ++ js "</p>").
Proof.
  apply (plain_text_rendering (js "hello") true); repeat constructor.
Defined.

(** ** Lines joined by a break *)

Lemma join_nil_concat (ls : list jsstring) : join [] ls = concat ls.
Proof.
  induction ls as [|l [|l2 ls] IH]; [done|by cbn; rewrite app_nil_r|].
  rewrite join_cons by done. cbn [app concat] in *. by rewrite IH.
Qed.

Lemma split_go_break_prefix (l : jsstring) : forall cur s,
  tag_free l ->
  split_go break_re 0 0 cur (l ++ s) = split_go break_re 0 0 (cur ++ l) s.
Proof.
  induction l as [|ch l IH]; intros cur s Hl; [by rewrite app_nil_r|].
  apply Forall_cons in Hl as [Hch Hl]. rewrite <- app_comm_cons, split_go_break_cons.
  rewrite break_len_start by done. rewrite IH by done. by rewrite <- app_assoc.
Qed.

Lemma join_two sep (l l2 : jsstring) ls :
  join sep (l :: l2 :: ls) = l ++ sep ++ join sep (l2 :: ls).
Proof. reflexivity. Qed.

Lemma join_head_tag_free sep (l : jsstring) ls :
  tag_free l -> l <> [] ->
  match join sep (l :: ls) with [] => True | h :: _ => is_break_start h = false end.
Proof.
  intros Hl Hne. destruct l as [|h l]; [done|]. apply Forall_cons in Hl as [Hh _].
  destruct ls; done.
Qed.

Lemma split_go_break_join (d : jsstring) : is_break d = true ->
  forall lines l cur,
    Forall (fun l => tag_free l /\ l <> []) (l :: lines) ->
    split_go break_re 0 0 cur (join d (l :: lines)) = (cur ++ l) :: lines.
Proof.
  intros Hd. induction lines as [|l2 lines IH]; intros l cur Hall.
  - apply Forall_cons in Hall as [[Hl _] _]. cbn [join].
    by apply split_go_break_none, tag_free_break_free.
  - apply Forall_cons in Hall as [[Hl Hne] Hall]. rewrite join_two.
    rewrite split_go_break_prefix by done.
    pose proof (break_len_is_break_app d (join d (l2 :: lines)) Hd) as Hb.
    destruct (d ++ join d (l2 :: lines)) as [|h t] eqn:E;
      [by rewrite break_len_nil in Hb|].
    rewrite split_go_break_cons, Hb, <- E, strip_breaks_is_break_app by done.
    pose proof Hall as Hall'. apply Forall_cons in Hall' as [[Hl2 Hne2] _].
    rewrite (strip_breaks_unfold (join d (l2 :: lines))).
    rewrite break_len_start by by apply join_head_tag_free.
    by rewrite IH.
Qed.

Lemma inputLines_join_cons (d l : jsstring) (lines : list jsstring) :
  is_break d = true ->
  Forall (fun l => tag_free l /\ l <> []) (l :: lines) ->
  inputLines (join d (l :: lines)) = l :: lines.
Proof.
  intros Hd Hall. destruct lines as [|l2 lines].
  - apply Forall_cons in Hall as [[Hl _] _]. by apply inputLines_tag_free.
  - assert (Hj : join d (l :: l2 :: lines) <> []).
    { apply Forall_cons in Hall as [[_ H] _]. by destruct l. }
    unfold inputLines. rewrite split_nonempty_text by done.
    by rewrite split_go_break_join.
Qed.

(** X12: lines that are not empty and hold no [<], [&] or line feed,
    joined by any one break, are split into the same lines again. *)
Theorem inputLines_join (d : jsstring) (lines : list jsstring) :
  is_break d = true -> lines <> [] ->
  Forall (fun l => tag_free l /\ l <> []) lines ->
  inputLines (join d lines) = lines.
Proof.
  intros Hd Hne Hall. destruct lines as [|l lines]; [done|].
  by apply inputLines_join_cons.
Qed.

Lemma inputLines_join_witness :
  inputLines (join (js "<br>") [js "a"; js "b"; js "c"]) = [js "a"; js "b"; js "c"].
Proof.
  apply (inputLines_join (js "<br>") [js "a"; js "b"; js "c"]);
    [reflexivity | discriminate | repeat constructor; discriminate].
Defined.

(** X13: lines with none of [_], [*], [~], the opening bracket, [<], [&]
    and the line feed, joined by any one break: in a text field each
    becomes a paragraph, elsewhere the break between them becomes the
    closed break tag. *)
Theorem plain_lines_rendering (d : jsstring) (lines : list jsstring) (isText : bool) :
  is_break d = true -> lines <> [] ->
  Forall (fun l => plain l /\ tag_free l /\ l <> []) lines ->
  convertTextToMarkdown (join d lines) isText =
  Some (if isText then concat (map (fun l => js "<p>" ++ l ++ js "</p>") lines)
        else join (js "<br/>") lines).
Proof.
  intros Hd Hne Hall. destruct lines as [|l0 lines0]; [done|].
  set (lines := l0 :: lines0) in *.
  rewrite (convertTextToMarkdown_lines _ isText lines).
  - assert (Hmap : map (fun l => emitted isText (convertLineToMarkdown l)) lines
                   = map (fun l => if isText then js "<p>" ++ l ++ js "</p>" else l) lines).
    { clearbody lines. clear Hne.
      induction Hall as [|l ls (Hp & Ht & _) _ IH]; [done|]. cbn [map].
      rewrite IH, convertLineToMarkdown_plain by done.
      by rewrite emitted_no_closer by by apply tag_free_no_lt. }
    rewrite Hmap. f_equal. destruct isText; cbn [separator].
    + apply join_nil_concat.
    + by rewrite map_id.
  - apply inputLines_join_cons; [done|].
    eapply Forall_impl; [exact Hall|]. by intros l (_ & ? & ?).
  - eapply Forall_impl; [exact Hall|]. intros l (Hp & _ & _).
    by apply no_star_not_bullet, plain_no_char.
Qed.

Lemma plain_lines_rendering_witness :
  convertTextToMarkdown (join LF [js "a"; js "b"]) false
  = Some (join (js "<br/>") [js "a"; js "b"]).
Proof.
  apply (plain_lines_rendering LF [js "a"; js "b"] false);
    [reflexivity | discriminate | repeat constructor; discriminate].
Defined.

(** ** A list of bullets *)

Lemma bullet_of_body (b : jsstring) :
  plain b -> convertLineToMarkdown (js "* " ++ b) = STAR :: js " " ++ b.
Proof.
  intros Hb.
  assert (Hp : plain (js " " ++ b)) by (by constructor).
  change (js "* " ++ b) with ([] ++ STAR :: js " " ++ b).
  rewrite convertLineToMarkdown_marker; [|constructor|by apply plain_no_char].
  by rewrite convertLineToMarkdown_plain.
Qed.

Lemma snapshot_no_prefix (bs : list jsstring) :
  Forall (fun l => bullet_spaces (convertLineToMarkdown l) = []) bs ->
  snapshot [] bs = [].
Proof.
  unfold snapshot. induction 1 as [|l bs Hl _ IH]; [done|].
  cbn [fold_left length Nat.eqb]. by rewrite Hl.
Qed.

(** X14: bullets [* body] with plain bodies, joined by any one break, are
    rendered as one entry for each, the bullet glyph and the body, and
    the entries are joined in order; an entry is not wrapped in a
    paragraph, in a text field either. *)
Theorem bullet_list_rendering (d : jsstring) (bodies : list jsstring) (isText : bool) :
  is_break d = true -> bodies <> [] ->
  Forall (fun b => plain b /\ tag_free b) bodies ->
  convertTextToMarkdown (join d (map (fun b => js "* " ++ b) bodies)) isText =
  Some (join (separator isText) (map (fun b => bullet_glyph ++ js "  " ++ b) bodies)).
Proof.
  intros Hd Hne Hall.
  set (lines := map (fun b => js "* " ++ b) bodies).
  assert (Hconv : Forall (fun l => exists b, l = js "* " ++ b /\ plain b) lines).
  { apply Forall_map. eapply Forall_impl; [exact Hall|]. intros b [Hb _]. by exists b. }
  assert (Hin : inputLines (join d lines) = lines).
  { destruct bodies as [|b0 bodies0]; [done|]. unfold lines.
    apply inputLines_join_cons; [done|]. fold (map (fun b => js "* " ++ b) (b0 :: bodies0)).
    apply Forall_map. eapply Forall_impl; [exact Hall|]. intros b [_ Hb].
    split; [|done]. by repeat constructor. }
  unfold convertTextToMarkdown. rewrite Hin.
  rewrite processLines_bullets.
  2:{ eapply Forall_impl; [exact Hconv|]. intros l (b & -> & Hb).
      unfold bullet_line. by rewrite bullet_of_body. }
  rewrite processLine_null. cbn [liLines outputLines liSpaces app].
  rewrite snapshot_no_prefix.
  2:{ eapply Forall_impl; [exact Hconv|]. intros l (b & -> & Hb).
      by rewrite bullet_of_body. }
  assert (Hc : map (fun l => bullet_content (convertLineToMarkdown l)) lines
               = map (fun b => js " " ++ b) bodies).
  { unfold lines. rewrite map_map. clear -Hall.
    induction Hall as [|b bodies [Hb _] _ IH]; [done|].
    cbn [map]. by rewrite bullet_of_body, IH. }
  rewrite Hc. destruct bodies as [|b0 bodies]; [done|].
  unfold conv_init.
  cbn [map length Nat.ltb Nat.leb flush outputLines liLines liSpaces app].
  f_equal. rewrite map_map. by destruct isText.
Qed.

Lemma bullet_list_rendering_witness :
  convertTextToMarkdown (join LF (map (fun b => js "* " ++ b) [js "a"; js "b"])) true
  = Some (join (separator true)
            (map (fun b => bullet_glyph ++ js "  " ++ b) [js "a"; js "b"])).
Proof.
  apply (bullet_list_rendering LF [js "a"; js "b"] true);
    [reflexivity | discriminate | repeat constructor].
Defined.

(** ** Paragraphs *)

(** When the continuation fails before every character of [body], a
    lazy repetition of a class takes [body] and no more. *)
Lemma lazy_class_commit p c (k : cont) z (tl : jsstring) :
  (forall y ch s', rest y = ch :: s' -> ch <> c -> k y = None) ->
  forall body x fuel,
    rest x = body ++ tl ->
    Forall (fun ch => p ch = true /\ ch <> c) body ->
    k (adv x (length body)) = Some z ->
    length (rest x) < fuel ->
    repeat_matcher (char_set_matcher p) [] false fuel 0 x k = Some z.
Proof.
  intros Hk. induction body as [|b body IH]; intros x fuel Hrest Hall Hz Hf;
    (destruct fuel as [|fuel]; [lia|]);
    rewrite repeat_matcher_S; cbv zeta; rewrite repeat_class_iter, Hrest;
    cbn [Nat.eqb negb Nat.pred].
  - cbn [length] in Hz. rewrite adv_0 in Hz. by rewrite Hz.
  - apply Forall_cons in Hall as [[Hb Hbc] Hall].
    rewrite (Hk x b (body ++ tl)) by done.
    cbn [app]. rewrite Hb.
    apply IH; try done.
    + rewrite <- Hz. f_equal. by apply (adv_advance x b).
    + rewrite Hrest in Hf. cbn [advance rest length app] in *. lia.
Qed.

Lemma match_at_paragraph p (body post : jsstring) :
  body <> [] -> one_line body -> no_char (chr "<") body ->
  match_at paragraph_re p (paragraph body ++ post)
  = Some (7 + length body, [(1, (p + 3, p + 3 + length body))]).
Proof.
  intros Hne Hol Hlt. unfold match_at, paragraph_re, paragraph. cbn [re ignoreCase].
  change (m true (Seq (lit (js "<p>")) ?r) ?x ?k)
    with (m true (lit (js "<p>")) x (fun y => m true r y k)).
  rewrite m_lit. cbn [rest].
  rewrite <- app_assoc, ci_prefix_app_true by reflexivity.
  change (length (js "<p>")) with 3.
  set (x := adv _ 3).
  assert (Hx : rest x = body ++ js "</p>" ++ post).
  { subst x. unfold adv. cbn [rest skipn js app]. by rewrite <- app_assoc. }
  assert (Hpx : pos x = p + 3) by done.
  assert (Hcx : caps x = []) by done.
  clearbody x.
  change (m true (Seq (Group 1 (PlusLazy Dot)) (lit (js "</p>"))) x Some)
    with (repeat_matcher (char_set_matcher (fun ch => negb (is_line_terminator ch)))
            [] false (S (1 + length (rest x))) 1 x
            (fun y => m true (lit (js "</p>"))
                        {| pos := pos y; rest := rest y;
                           caps := set_cap 1 (pos x, pos y) (caps y) |} Some)).
  destruct body as [|b body]; [done|].
  apply Forall_cons in Hol as [Hb Hol]. apply Forall_cons in Hlt as [_ Hlt].
  rewrite plus_class_first, Hx. cbn [app]. rewrite Hb. cbn [negb].
  set (z := {| pos := p + 3 + S (length body) + 4; rest := post;
               caps := [(1, (p + 3, p + 3 + S (length body)))] |}).
  rewrite (lazy_class_commit _ (chr "<") _ z (js "</p>" ++ post)) with (body := body).
  - subst z. cbn [pos caps length]. f_equal. f_equal. lia.
  - intros y ch s' Hy Hch. rewrite m_lit. cbn [rest]. rewrite Hy.
    change (js "</p>") with (chr "<" :: js "/p>"). by rewrite ci_prefix_tag.
  - done.
  - apply Forall_forall. intros ch Hin.
    rewrite Forall_forall in Hol. rewrite Forall_forall in Hlt.
    split; [by rewrite (Hol ch Hin)|by apply Hlt].
  - rewrite m_lit. cbn [rest adv advance pos caps].
    rewrite skipn_app, skipn_all, Nat.sub_diag. cbn [skipn app].
    rewrite !skipn_O, ci_prefix_app_true by reflexivity.
    cbn [adv pos rest caps]. rewrite Hpx, Hcx.
    cbv [set_cap clear_caps List.filter]. cbn [length skipn]. subst z.
    unfold adv. cbn [pos rest caps length skipn].
    repeat first [ lia | progress f_equal ].
  - cbn [advance rest length app]. lia.
Qed.

(** The first substitution of the fallback unwraps every paragraph. *)
Lemma replaceAll_paragraphs (lines : list jsstring) :
  Forall (fun l => l <> [] /\ one_line l /\ no_char (chr "<") l) lines ->
  replaceAll (concat (map paragraph lines)) paragraph_re (js "$1" ++ LF)
  = concat (map (fun l => l ++ LF) lines).
Proof.
  induction 1 as [|l lines (Hne & Hol & Hlt) _ IH]; [done|].
  cbn [map concat].
  pose proof (match_at_paragraph 0 l (concat (map paragraph lines)) Hne Hol Hlt) as Hm.
  rewrite (replaceAll_at_match paragraph_re _ _ (6 + length l) _ eq_refl Hm).
  assert (Hlen : 7 + length l = length (paragraph l)).
  { unfold paragraph. rewrite !length_app. simpl. lia. }
  change (S (6 + length l)) with (7 + length l). rewrite Hlen.
  rewrite take_app_length, drop_app_length, IH, subst_body. f_equal.
  unfold cap_text. cbn [get_cap List.find fst snd Nat.eqb].
  unfold paragraph. rewrite <- !app_assoc. cbn [Nat.add Nat.sub skipn js app].
  by rewrite Nat.sub_0_r, skipn_O, take_app_length.
Qed.

Lemma no_char_concat c (lines : list jsstring) :
  Forall (no_char c) lines -> no_char c (concat lines).
Proof. induction 1; [constructor|]. by apply no_char_app. Qed.

Lemma no_lt_suffix_head (s a b : jsstring) :
  no_char (chr "<") s -> s = a ++ b ->
  match b with [] => True | h :: _ => h <> chr "<" end.
Proof.
  intros Hs ->. apply Forall_app in Hs as [_ Hb]. destruct b as [|h b]; [done|].
  by apply Forall_cons in Hb as [Hh _].
Qed.

(** The fallback on paragraphs: each one becomes its body and a line
    feed. *)
Lemma fallback_text_paragraphs (lines : list jsstring) :
  Forall (fun l => l <> [] /\ one_line l /\ no_char (chr "<") l) lines ->
  fallback_text (concat (map paragraph lines)) = concat (map (fun l => l ++ LF) lines).
Proof.
  intros H. unfold fallback_text. rewrite replaceAll_paragraphs by done.
  apply replaceAll_no_match; [done|]. intros a b E. apply match_at_closer_no_tag.
  eapply no_lt_suffix_head; [|exact E]. apply no_char_concat, Forall_map.
  eapply Forall_impl; [exact H|]. intros l (_ & _ & Hl). cbn beta.
  apply no_char_app; [done|]. repeat constructor. discriminate.
Qed.

Lemma break_free_cons ch (s : jsstring) :
  break_len (ch :: s) = None -> break_free s -> break_free (ch :: s).
Proof.
  intros Hch Hs [|h a] b E.
  - cbn [app] in E. by subst b.
  - injection E as -> ->. by apply (Hs a b).
Qed.

Lemma break_free_app (l s : jsstring) :
  tag_free l -> break_free s -> break_free (l ++ s).
Proof.
  induction 1 as [|ch l Hch _ IH]; intros Hs; [done|].
  cbn [app]. apply break_free_cons; [|by apply IH]. by apply break_len_start.
Qed.

Lemma break_free_nil : break_free [].
Proof. intros a b E. symmetry in E. apply app_eq_nil in E as [_ ->]. reflexivity. Qed.

(** Paragraphs of lines without a break hold no break: neither tag of
    a paragraph begins one. *)
Lemma break_free_paragraphs (lines : list jsstring) :
  Forall tag_free lines -> break_free (concat (map paragraph lines)).
Proof.
  induction 1 as [|l lines Hl _ IH]; [apply break_free_nil|].
  cbn [map concat]. unfold paragraph. rewrite <- !app_assoc.
  change (js "<p>" ++ ?s) with (chr "<" :: chr "p" :: chr ">" :: s).
  repeat (apply break_free_cons; [reflexivity|]).
  apply break_free_app; [done|].
  change (js "</p>" ++ ?s) with (chr "<" :: chr "/" :: chr "p" :: chr ">" :: s).
  by repeat (apply break_free_cons; [reflexivity|]).
Qed.

Lemma split_go_lf_line (l : jsstring) : forall p cur s,
  no_char 10%N l ->
  exists q, split_go lf_re p 0 cur (l ++ LF ++ s) = (cur ++ l) :: split_go lf_re q 0 [] s.
Proof.
  induction l as [|ch l IH]; intros p cur s Hl.
  - exists (S p). change ([] ++ LF ++ s) with (10%N :: s).
    rewrite split_go_lf_cons. cbn [N.eqb Pos.eqb]. by rewrite app_nil_r.
  - apply Forall_cons in Hl as [Hch Hl]. cbn [app]. rewrite split_go_lf_cons.
    destruct (N.eqb_spec ch 10); [done|].
    destruct (IH (S p) (cur ++ [ch]) s Hl) as [q ->]. exists q.
    by rewrite <- app_assoc.
Qed.

Lemma split_go_lf_lines (lines : list jsstring) : forall p,
  Forall (no_char 10%N) lines ->
  split_go lf_re p 0 [] (concat (map (fun l => l ++ LF) lines)) = lines ++ [[]].
Proof.
  induction lines as [|l lines IH]; intros p Hall; [done|].
  apply Forall_cons in Hall as [Hl Hall]. cbn [map concat]. rewrite <- app_assoc.
  destruct (split_go_lf_line l p [] (concat (map (fun l => l ++ LF) lines)) Hl) as [q ->].
  by rewrite IH.
Qed.

Lemma split_fallback_paragraphs (lines : list jsstring) :
  Forall (fun l => l <> [] /\ one_line l /\ tag_free l) lines ->
  split (fallback_text (concat (map paragraph lines))) lf_re = lines ++ [[]].
Proof.
  intros H. rewrite fallback_text_paragraphs.
  2:{ eapply Forall_impl; [exact H|]. intros l (? & ? & ?).
      repeat split; try done. by apply tag_free_no_lt. }
  destruct lines as [|l lines]; [done|].
  rewrite split_nonempty_text.
  2:{ apply Forall_cons in H as [(Hne & _) _]. cbn [map concat]. by destruct l. }
  apply split_go_lf_lines. eapply Forall_impl; [exact H|].
  intros l' (_ & _ & ?). by apply tag_free_no_lf.
Qed.

(** X15: the fallback unwraps paragraphs: a text made of paragraphs
    whose bodies are not empty and hold no tag, entity or line
    terminator has those bodies as its lines, and one empty line after
    them. *)
Theorem paragraphs_unwrapped (lines : list jsstring) :
  Forall (fun l => l <> [] /\ one_line l /\ tag_free l) lines ->
  inputLines (concat (map paragraph lines)) = lines ++ [[]].
Proof.
  intros H. unfold inputLines. rewrite split_break_free.
  - by apply split_fallback_paragraphs.
  - apply break_free_paragraphs. eapply Forall_impl; [exact H|]. by intros l (_ & _ & ?).
Qed.

Lemma paragraphs_unwrapped_witness :
  inputLines (concat (map paragraph [js "a"; js "b"])) = [js "a"; js "b"] ++ [[]].
Proof.
  apply (paragraphs_unwrapped [js "a"; js "b"]).
  repeat constructor; discriminate.
Defined.

(** X16: rendering is not idempotent on a text field: the rendering of
    paragraphs with plain bodies is the same paragraphs and one empty
    paragraph more; outside a text field it is the bodies with a break
    after each. *)
Theorem paragraphs_rendering (lines : list jsstring) (isText : bool) :
  Forall (fun l => l <> [] /\ one_line l /\ tag_free l /\ plain l) lines ->
  convertTextToMarkdown (concat (map paragraph lines)) isText =
  Some (if isText then concat (map paragraph lines) ++ paragraph []
        else concat (map (fun l => l ++ js "<br/>") lines)).
Proof.
  intros H.
  rewrite (convertTextToMarkdown_lines _ isText (lines ++ [[]])).
  - assert (Hmap : map (fun l => emitted isText (convertLineToMarkdown l)) (lines ++ [[]])
                   = map (fun l => if isText then paragraph l else l) (lines ++ [[]])).
    { rewrite !map_app. cbn [map].
      rewrite (convertLineToMarkdown_plain []) by constructor.
      rewrite (emitted_no_closer isText []) by constructor. f_equal.
      induction H as [|l ls (_ & _ & Ht & Hp) _ IH]; [done|]. cbn [map].
      rewrite IH, convertLineToMarkdown_plain by done.
      by rewrite emitted_no_closer by by apply tag_free_no_lt. }
    rewrite Hmap. clear Hmap H. f_equal. unfold paragraph.
    destruct isText; cbn [separator].
    + rewrite join_nil_concat, map_app, concat_app. cbn [map concat].
      by rewrite app_nil_r.
    + rewrite map_id. induction lines as [|l ls IH]; [done|].
      cbn [app map concat]. rewrite join_cons by by destruct ls.
      rewrite IH. by rewrite <- app_assoc.
  - assert (H' : Forall (fun l => l <> [] /\ one_line l /\ tag_free l) lines)
      by (eapply Forall_impl; [exact H|]; by intros l (? & ? & ? & _)).
    unfold inputLines. rewrite split_break_free.
    + by apply split_fallback_paragraphs.
    + apply break_free_paragraphs. eapply Forall_impl; [exact H'|]. by intros l (_ & _ & ?).
  - apply Forall_app. split; [|by repeat constructor].
    eapply Forall_impl; [exact H|]. intros l (_ & _ & _ & Hp).
    by apply no_star_not_bullet, plain_no_char.
Qed.

Lemma paragraphs_rendering_witness :
  convertTextToMarkdown (concat (map paragraph [js "a"; js "b"])) true =
  Some (concat (map paragraph [js "a"; js "b"]) ++ paragraph []).
Proof.
  apply (paragraphs_rendering [js "a"; js "b"] true).
  repeat constructor; discriminate.
Defined.

(** ** The content accessors *)

(** X17: the text that [setItemContent] writes is the text that
    [getItemContent] reads, on a card (its title) as on any other item
    (its content); writing leaves the identifier, the type and the
    metadata as they were, and a second write replaces the first. *)
Theorem content_accessors (item : Item) (c c' : jsstring) :
  getItemContent (setItemContent item c) = c /\
  id (setItemContent item c) = id item /\
  type (setItemContent item c) = type item /\
  metadata (setItemContent item c) = metadata item /\
  setItemContent (setItemContent item c) c' = setItemContent item c' /\
  setItemContent item (getItemContent item) = item.
Proof.
  unfold getItemContent, setItemContent.
  destruct (str_eqb (type item) (js "card")) eqn:E; cbn [type id metadata title content];
    rewrite ?E; cbn [type id metadata title content]; repeat split; by destruct item.
Qed.

(** ** The selection handler *)

Lemma str_eqb_refl (a : jsstring) : str_eqb a a = true.
Proof. induction a as [|x a IH]; simpl; [done|]. by rewrite N.eqb_refl. Qed.

Lemma setItemContent_twice item c c' :
  setItemContent (setItemContent item c) c' = setItemContent item c'.
Proof.
  unfold setItemContent.
  destruct (str_eqb (type item) (js "card")) eqn:E; cbn [type]; by rewrite E.
Qed.

Lemma setItemContent_get item : setItemContent item (getItemContent item) = item.
Proof.
  unfold setItemContent, getItemContent.
  destruct (str_eqb (type item) (js "card")); by destruct item.
Qed.

Lemma getItemContent_set item c : getItemContent (setItemContent item c) = c.
Proof.
  unfold setItemContent, getItemContent.
  destruct (str_eqb (type item) (js "card")) eqn:E; cbn [type]; by rewrite E.
Qed.

Lemma setItemContent_frame item c :
  id (setItemContent item c) = id item /\ type (setItemContent item c) = type item /\
  metadata (setItemContent item c) = metadata item.
Proof. unfold setItemContent. by destruct (str_eqb (type item) (js "card")). Qed.

Lemma isContentItem_setItemContent item c :
  isContentItem (setItemContent item c) = isContentItem item.
Proof. unfold isContentItem. by rewrite (proj1 (proj2 (setItemContent_frame item c))). Qed.

Lemma hasMarkdownEnabled_setItemContent item c :
  hasMarkdownEnabled (setItemContent item c) = hasMarkdownEnabled item.
Proof.
  unfold hasMarkdownEnabled, getMetadata.
  by rewrite (proj2 (proj2 (setItemContent_frame item c))).
Qed.

Lemma setMetadata_setItemContent item k v c :
  setMetadata (setItemContent item c) k v = setItemContent (setMetadata item k v) c.
Proof. unfold setItemContent, setMetadata; cbn [type]. by destruct (str_eqb _ _). Qed.

Lemma setMetadata_same item k v :
  getMetadata item k = Some v -> setMetadata item k v = item.
Proof.
  unfold getMetadata, setMetadata. intros H. rewrite insert_id; [|done]. by destruct item.
Qed.

Lemma not_in_event (event_items : list Item) (item : Item) :
  Forall (fun e => id e <> id item) event_items ->
  existsb (fun oldItem => str_eqb (id oldItem) (id item)) event_items = false.
Proof.
  induction 1 as [|e l He _ IH]; [done|]. cbn [existsb]. rewrite IH, orb_false_r.
  destruct (str_eqb (id e) (id item)) eqn:E; [|done]. by apply str_eqb_eq in E.
Qed.

Lemma in_event (event_items : list Item) (item e : Item) :
  In e event_items -> id e = id item ->
  existsb (fun oldItem => str_eqb (id oldItem) (id item)) event_items = true.
Proof.
  intros Hin He. apply existsb_exists. exists e. split; [done|].
  rewrite He. apply str_eqb_refl.
Qed.

Section SelectionFacts.

Variable sync : Item -> Item.
Variable getById : jsstring -> option Item.

Lemma unselect_callback_lost event_items item :
  isContentItem item = true -> hasMarkdownEnabled item = true ->
  Forall (fun e => id e <> id item) event_items ->
  exists md,
    convertTextToMarkdown (getItemContent item) (str_eqb (type item) (js "text")) = Some md /\
    unselect_callback sync event_items item =
    sync (setItemContent
            (setMetadata item MARKDOWN_META_KEY (JString (getItemContent item))) md).
Proof.
  intros Hc He Hev.
  destruct (convertTextToMarkdown_total (getItemContent item)
              (str_eqb (type item) (js "text"))) as [md Hmd].
  exists md. split; [done|].
  unfold unselect_callback. rewrite Hc, He, (not_in_event _ _ Hev).
  cbn [negb andb]. rewrite getItemContent_setMetadata.
  change (type (setMetadata item MARKDOWN_META_KEY (JString (getItemContent item))))
    with (type item).
  by rewrite Hmd.
Qed.

Lemma unselect_callback_disabled event_items item :
  hasMarkdownEnabled item = false -> unselect_callback sync event_items item = item.
Proof.
  intros He. unfold unselect_callback. rewrite He, andb_false_r.
  by destruct (isContentItem item).
Qed.

Lemma select_callback_disabled item :
  hasMarkdownEnabled item = false -> select_callback item = (item, false).
Proof. intros He. unfold select_callback. by rewrite He. Qed.

Lemma select_callback_source item source :
  getMetadata item MARKDOWN_META_KEY = Some (JString source) ->
  select_callback item = (setItemContent item source, true).
Proof.
  intros H. unfold select_callback, hasMarkdownEnabled. by rewrite H.
Qed.

Lemma forEach_select_disabled items :
  Forall (fun item => hasMarkdownEnabled item = false) items ->
  forEachItemWithContent sync items select_callback = items.
Proof.
  unfold forEachItemWithContent.
  induction 1 as [|item l He _ IH]; [done|]. cbn [map]. rewrite IH. f_equal.
  rewrite (select_callback_disabled _ He). by destruct (isContentItem item).
Qed.

(** X18: when a markdown-enabled content item loses the selection (the
    event does not hold its identifier), the handler stores the item's
    current text under the markdown key and replaces the text by its
    rendering, in paragraph mode exactly for an item of type text;
    identifier, type and every other metadata key stay as they were. *)
Theorem focus_loss_renders (event_items : list Item) (item : Item) :
  (forall i, sync i = i) ->
  isContentItem item = true -> hasMarkdownEnabled item = true ->
  Forall (fun e => id e <> id item) event_items ->
  exists md,
    convertTextToMarkdown (getItemContent item) (str_eqb (type item) (js "text")) = Some md /\
    getItemContent (unselect_callback sync event_items item) = md /\
    getMetadata (unselect_callback sync event_items item) MARKDOWN_META_KEY
      = Some (JString (getItemContent item)) /\
    (forall k, k <> MARKDOWN_META_KEY ->
       getMetadata (unselect_callback sync event_items item) k = getMetadata item k) /\
    id (unselect_callback sync event_items item) = id item /\
    type (unselect_callback sync event_items item) = type item.
Proof.
  intros Hs Hc He Hev.
  destruct (unselect_callback_lost event_items item Hc He Hev) as (md & Hmd & ->).
  exists md. rewrite Hs. split; [done|]. rewrite getItemContent_set.
  destruct (setItemContent_frame
              (setMetadata item MARKDOWN_META_KEY (JString (getItemContent item))) md)
    as (Hid & Hty & Hm).
  unfold getMetadata. rewrite Hm, Hid, Hty. cbn [setMetadata metadata id type].
  repeat split; try done.
  - by rewrite lookup_insert_eq.
  - intros k Hk. by rewrite lookup_insert_ne.
Qed.

(** X19: losing the selection and getting it back is a round trip on the
    text: the item shows again the text it had when it lost the
    selection, which is now also the stored source, and it is synced. *)
Theorem focus_round_trip (event_items : list Item) (item : Item) :
  (forall i, sync i = i) ->
  isContentItem item = true -> hasMarkdownEnabled item = true ->
  Forall (fun e => id e <> id item) event_items ->
  select_callback (unselect_callback sync event_items item) =
    (setMetadata item MARKDOWN_META_KEY (JString (getItemContent item)), true).
Proof.
  intros Hs Hc He Hev.
  destruct (unselect_callback_lost event_items item Hc He Hev) as (md & Hmd & ->).
  rewrite Hs. erewrite select_callback_source.
  2:{ unfold getMetadata.
      rewrite (proj2 (proj2 (setItemContent_frame _ _))). cbn [setMetadata metadata].
      by rewrite lookup_insert_eq. }
  rewrite setItemContent_twice. f_equal.
  rewrite <- (getItemContent_setMetadata item MARKDOWN_META_KEY
                (JString (getItemContent item))) at 2.
  apply setItemContent_get.
Qed.

(** X20: the other round trip: an item that shows the rendering of its
    stored source is, after being selected and losing the selection
    without an edit, exactly what it was. *)
Theorem select_unselect_identity (event_items : list Item) (item : Item) (source : jsstring) :
  (forall i, sync i = i) ->
  isContentItem item = true ->
  getMetadata item MARKDOWN_META_KEY = Some (JString source) ->
  convertTextToMarkdown source (str_eqb (type item) (js "text"))
    = Some (getItemContent item) ->
  Forall (fun e => id e <> id item) event_items ->
  unselect_callback sync event_items (fst (select_callback item)) = item.
Proof.
  intros Hs Hc Hm Hmd Hev.
  rewrite (select_callback_source _ _ Hm). cbn [fst].
  destruct (setItemContent_frame item source) as (Hid & Hty & Hmeta).
  destruct (unselect_callback_lost event_items (setItemContent item source))
    as (md & Hmd' & ->).
  - by rewrite isContentItem_setItemContent.
  - rewrite hasMarkdownEnabled_setItemContent. unfold hasMarkdownEnabled. by rewrite Hm.
  - by rewrite Hid.
  - rewrite getItemContent_set, Hty, Hmd in Hmd'. injection Hmd' as <-.
    rewrite Hs, getItemContent_set, setMetadata_setItemContent, setItemContent_twice.
    rewrite (setMetadata_same _ _ _ Hm). apply setItemContent_get.
Qed.

(** X21: the handler renders nothing when every previously selected
    item is deleted from the board or still selected: the items that
    still exist are left as the board holds them. *)
Theorem still_selected_not_rendered (selectedTextItems event_items : list Item) :
  Forall (fun item => match getById (id item) with
                      | None => True
                      | Some b => exists e, In e event_items /\ id e = id b
                      end) selectedTextItems ->
  fst (fst (onSelectionUpdate sync getById selectedTextItems event_items))
    = refreshSelected getById selectedTextItems.
Proof.
  intros H. unfold onSelectionUpdate. cbn [fst].
  unfold refreshSelected. induction H as [|item l Hi _ IH]; [done|].
  cbn [omap list_omap]. destruct (getById (id item)) as [b|]; [|exact IH].
  cbn [map]. rewrite IH. f_equal.
  destruct Hi as (e & Hin & He). unfold unselect_callback.
  rewrite (in_event _ _ _ Hin He). by destruct (isContentItem b).
Qed.

(** X22: an event whose items, and whose previously selected items, all
    have markdown disabled changes nothing: the handler only replaces
    the remembered selection by the content items of the event. *)
Theorem handler_ignores_disabled (selectedTextItems event_items : list Item) :
  Forall (fun item => hasMarkdownEnabled item = false)
         (refreshSelected getById selectedTextItems) ->
  Forall (fun item => hasMarkdownEnabled item = false) event_items ->
  onSelectionUpdate sync getById selectedTextItems event_items =
    (refreshSelected getById selectedTextItems, event_items,
     List.filter isContentItem event_items).
Proof.
  intros Hsel Hev. unfold onSelectionUpdate. f_equal; [f_equal|].
  - induction Hsel as [|item l He _ IH]; [done|]. cbn [map]. rewrite IH.
    by rewrite (unselect_callback_disabled _ _ He).
  - by apply forEach_select_disabled.
  - apply forEach_select_disabled.
    apply Forall_forall. intros x Hx. apply list_elem_of_In, filter_In in Hx as [Hx _].
    rewrite Forall_forall in Hev. by apply Hev, list_elem_of_In.
Qed.

Lemma select_frame item :
  id (fst (select_callback item)) = id item /\
  type (fst (select_callback item)) = type item /\
  metadata (fst (select_callback item)) = metadata item.
Proof.
  unfold select_callback. destruct (hasMarkdownEnabled item); [|done].
  destruct (getMetadata item MARKDOWN_META_KEY) as [[]|]; try done.
  apply setItemContent_frame.
Qed.

(** X23: selecting never writes metadata: the handler leaves the
    identifier, the type and the metadata of every item of the event
    as they were, and the selection it remembers for the next event is
    made of the content items of the event, as it leaves them. *)
Theorem selection_tracks_event (selectedTextItems event_items : list Item) :
  (forall i, sync i = i) ->
  let selected := snd (fst (onSelectionUpdate sync getById selectedTextItems event_items)) in
  map id selected = map id event_items /\
  map type selected = map type event_items /\
  map metadata selected = map metadata event_items /\
  snd (onSelectionUpdate sync getById selectedTextItems event_items)
    = List.filter isContentItem selected.
Proof.
  intros Hs. unfold onSelectionUpdate. cbn [fst snd]. unfold forEachItemWithContent.
  rewrite !map_map.
  assert (Hstep : forall item,
    (let (item', changed) := select_callback item in if changed then sync item' else item')
    = fst (select_callback item)).
  { intros item. destruct (select_callback item) as [i' []]; [apply Hs|done]. }
  repeat split.
  - apply map_ext. intros item. destruct (isContentItem item); [|done].
    rewrite Hstep. apply select_frame.
  - apply map_ext. intros item. destruct (isContentItem item); [|done].
    rewrite Hstep. apply select_frame.
  - apply map_ext. intros item. destruct (isContentItem item); [|done].
    rewrite Hstep. apply select_frame.
  - induction event_items as [|item l IH]; [done|]. cbn [List.filter map].
    destruct (isContentItem item) eqn:Hc.
    + rewrite Hstep. cbn [map]. rewrite Hc, Hstep.
      assert (Hc' : isContentItem (fst (select_callback item)) = true).
      { unfold isContentItem. rewrite (proj1 (proj2 (select_frame item))). exact Hc. }
      rewrite Hc'. by rewrite IH.
    + rewrite Hc. exact IH.
Qed.

(** X24: after the disable action the handler leaves the items alone,
    whatever was selected before. *)
Theorem selection_after_disable (selectedTextItems items : list Item) :
  snd (fst (onSelectionUpdate sync getById selectedTextItems (onMarkdownDisable sync items)))
    = onMarkdownDisable sync items.
Proof.
  unfold onSelectionUpdate. cbn [fst snd]. rewrite onMarkdownDisable_map.
  unfold forEachItemWithContent. rewrite map_map. apply map_ext. intros item.
  unfold disabled. destruct (isContentItem item) eqn:Hc; cbn [andb].
  - destruct (hasMarkdownEnabled item) eqn:He.
    + rewrite isContentItem_setMetadata, Hc.
      by rewrite select_callback_disabled by apply hasMarkdownEnabled_setMetadata_null.
    + rewrite Hc. by rewrite select_callback_disabled.
  - by rewrite Hc.
Qed.

(** X25: enabling markdown on items in plain mode and selecting them
    shows the text they already show: the stored source is that text. *)
Theorem selection_after_enable (selectedTextItems items : list Item) :
  (forall i, sync i = i) ->
  Forall (fun item => hasMarkdownEnabled item = false) items ->
  snd (fst (onSelectionUpdate sync getById selectedTextItems (onMarkdownEnable sync items)))
    = onMarkdownEnable sync items.
Proof.
  intros Hs H. unfold onSelectionUpdate. cbn [fst snd]. rewrite onMarkdownEnable_map.
  unfold forEachItemWithContent. rewrite map_map.
  induction H as [|item l He _ IH]; [done|]. cbn [map]. rewrite IH. f_equal.
  unfold enabled. rewrite He. destruct (isContentItem item) eqn:Hc; cbn [andb negb].
  - rewrite isContentItem_setMetadata, Hc.
    erewrite select_callback_source.
    2:{ unfold getMetadata. cbn [setMetadata metadata]. by rewrite lookup_insert_eq. }
    rewrite Hs.
    rewrite <- (getItemContent_setMetadata item MARKDOWN_META_KEY
                  (JString (getItemContent item))) at 2.
    apply setItemContent_get.
  - by rewrite Hc.
Qed.

End SelectionFacts.

Lemma focus_loss_renders_witness :
  exists md,
    convertTextToMarkdown (getItemContent (enabled sample_text_item))
      (str_eqb (type (enabled sample_text_item)) (js "text")) = Some md /\
    getItemContent (unselect_callback (fun i => i) [] (enabled sample_text_item)) = md /\
    getMetadata (unselect_callback (fun i => i) [] (enabled sample_text_item))
      MARKDOWN_META_KEY
      = Some (JString (getItemContent (enabled sample_text_item))) /\
    (forall k, k <> MARKDOWN_META_KEY ->
       getMetadata (unselect_callback (fun i => i) [] (enabled sample_text_item)) k
       = getMetadata (enabled sample_text_item) k) /\
    id (unselect_callback (fun i => i) [] (enabled sample_text_item))
      = id (enabled sample_text_item) /\
    type (unselect_callback (fun i => i) [] (enabled sample_text_item))
      = type (enabled sample_text_item).
Proof.
  apply (focus_loss_renders (fun i => i) [] (enabled sample_text_item));
    [reflexivity | reflexivity | reflexivity | constructor].
Defined.

Lemma focus_round_trip_witness :
  select_callback (unselect_callback (fun i => i) [] sample_rendered_item) =
    (setMetadata sample_rendered_item MARKDOWN_META_KEY
       (JString (getItemContent sample_rendered_item)), true).
Proof.
  apply (focus_round_trip (fun i => i) [] sample_rendered_item);
    [reflexivity | reflexivity | reflexivity | constructor].
Defined.

Lemma select_unselect_identity_witness :
  unselect_callback (fun i => i) [sample_text_item]
    (fst (select_callback sample_rendered_item)) = sample_rendered_item.
Proof.
  apply (select_unselect_identity (fun i => i) [sample_text_item] sample_rendered_item
           (js "**hi**"));
    [reflexivity | reflexivity | reflexivity | vm_compute; reflexivity
    | repeat constructor; discriminate].
Defined.

Lemma still_selected_not_rendered_witness :
  fst (fst (onSelectionUpdate (fun i => i) (fun _ => Some sample_rendered_item)
              [sample_rendered_item] [sample_text_item; sample_rendered_item]))
    = refreshSelected (fun _ => Some sample_rendered_item) [sample_rendered_item].
Proof.
  apply (still_selected_not_rendered (fun i => i) (fun _ => Some sample_rendered_item)
           [sample_rendered_item] [sample_text_item; sample_rendered_item]).
  constructor; [|constructor]. exists sample_rendered_item.
  split; [right; left; reflexivity | reflexivity].
Defined.

Lemma handler_ignores_disabled_witness :
  onSelectionUpdate (fun i => i) (fun _ => Some sample_text_item)
    [sample_text_item] [sample_text_item] =
    (refreshSelected (fun _ => Some sample_text_item) [sample_text_item],
     [sample_text_item], List.filter isContentItem [sample_text_item]).
Proof.
  apply (handler_ignores_disabled (fun i => i) (fun _ => Some sample_text_item)
           [sample_text_item] [sample_text_item]); repeat constructor.
Defined.

Lemma selection_tracks_event_witness :
  let selected :=
    snd (fst (onSelectionUpdate (fun i => i) (fun _ => None) [] [sample_rendered_item])) in
  map id selected = map id [sample_rendered_item] /\
  map type selected = map type [sample_rendered_item] /\
  map metadata selected = map metadata [sample_rendered_item] /\
  snd (onSelectionUpdate (fun i => i) (fun _ => None) [] [sample_rendered_item])
    = List.filter isContentItem selected.
Proof.
  apply (selection_tracks_event (fun i => i) (fun _ => None) [] [sample_rendered_item]).
  reflexivity.
Defined.

Lemma selection_after_enable_witness :
  snd (fst (onSelectionUpdate (fun i => i) (fun _ => None) []
              (onMarkdownEnable (fun i => i) [sample_text_item])))
    = onMarkdownEnable (fun i => i) [sample_text_item].
Proof.
  apply (selection_after_enable (fun i => i) (fun _ => None) [] [sample_text_item]);
    [reflexivity | repeat constructor].
Defined.
